(** * lgi callable.c: calls from Lua to C and back

    A shallow embedding of [src/callable.c]: the derivation of libffi
    types from introspection data, the construction and caching of
    [Callable] descriptions, the Lua-to-C call [callable_call], the
    C-to-Lua trampoline [closure_callback] and the GClosure constructor.

    Conventions of the embedding:
    - introspection structures ([GITypeInfo], [GIArgInfo],
      [GICallableInfo]) are records holding what the accessor functions
      of girepository return for them;
    - a Lua stack is a [list lua_value], bottom first, so that index 1
      is the head and index -1 the last element;
    - C [int]s are [Z]; the bit-field [nargs : 6] wraps modulo 64;
    - functions of other lgi files (marshal.c, record.c, object.c, core.c)
      and of Lua, GLib and libffi are taken as fields of environment
      records; what callable.c does with their results is modelled
      statement by statement;
    - the reference functions of lauxlib ([luaL_ref], [luaL_unref])
      are written out as Lua 5.1 has them, on the integer keys of the
      registry, free list included;
    - the observable actions of a call (locking, the native call, Lua
      invocations, warnings) are collected in a trace of [Event]s. *)

From Stdlib Require Import ZArith String Ascii List Bool Lia.
From stdpp Require Import base option list gmap strings pretty.

Local Open Scope string_scope.
Local Open Scope list_scope.
Local Open Scope Z_scope.

(** ** Introspection data *)

(** [GITypeTag]: the tags callable.c names, and every other one. *)
Inductive GITypeTag : Type :=
| GI_TYPE_TAG_VOID
| GI_TYPE_TAG_BOOLEAN
| GI_TYPE_TAG_INT8
| GI_TYPE_TAG_UINT8
| GI_TYPE_TAG_INT16
| GI_TYPE_TAG_UINT16
| GI_TYPE_TAG_INT32
| GI_TYPE_TAG_UINT32
| GI_TYPE_TAG_INT64
| GI_TYPE_TAG_UINT64
| GI_TYPE_TAG_FLOAT
| GI_TYPE_TAG_DOUBLE
| GI_TYPE_TAG_GTYPE
| GI_TYPE_TAG_ARRAY
| GI_TYPE_TAG_INTERFACE
| GI_TYPE_TAG_other (code : Z).

(** [GIInfoType]: the kinds callable.c names, and every other one. *)
Inductive GIInfoType : Type :=
| GI_INFO_TYPE_FUNCTION
| GI_INFO_TYPE_CALLBACK
| GI_INFO_TYPE_STRUCT
| GI_INFO_TYPE_ENUM
| GI_INFO_TYPE_FLAGS
| GI_INFO_TYPE_OBJECT
| GI_INFO_TYPE_INTERFACE
| GI_INFO_TYPE_UNION
| GI_INFO_TYPE_SIGNAL
| GI_INFO_TYPE_VFUNC
| GI_INFO_TYPE_other (code : Z).

Inductive GIArrayType : Type :=
| GI_ARRAY_TYPE_C
| GI_ARRAY_TYPE_ARRAY
| GI_ARRAY_TYPE_PTR_ARRAY
| GI_ARRAY_TYPE_BYTE_ARRAY.

Inductive GIDirection : Type :=
| GI_DIRECTION_IN
| GI_DIRECTION_OUT
| GI_DIRECTION_INOUT.

Inductive GITransfer : Type :=
| GI_TRANSFER_NOTHING
| GI_TRANSFER_CONTAINER
| GI_TRANSFER_EVERYTHING.

Global Instance GITypeTag_eq_dec : EqDecision GITypeTag.
Proof. solve_decision. Defined.
Global Instance GIInfoType_eq_dec : EqDecision GIInfoType.
Proof. solve_decision. Defined.
Global Instance GIArrayType_eq_dec : EqDecision GIArrayType.
Proof. solve_decision. Defined.
Global Instance GIDirection_eq_dec : EqDecision GIDirection.
Proof. solve_decision. Defined.
Global Instance GITransfer_eq_dec : EqDecision GITransfer.
Proof. solve_decision. Defined.

(** What the [g_type_info_*] accessors answer for a type.
    [ti_interface_type] is [g_base_info_get_type] of
    [g_type_info_get_interface], [ti_storage_type] is
    [g_enum_info_get_storage_type] of it; [ti_array_length] is -1 when the
    array has no length argument. *)
Record GITypeInfo : Type := mkGITypeInfo {
  ti_tag : GITypeTag;
  ti_is_pointer : bool;
  ti_interface_type : GIInfoType;
  ti_storage_type : GITypeTag;
  ti_array_type : GIArrayType;
  ti_array_length : Z
}.

(** What the [g_arg_info_*] accessors answer for an argument;
    [ai_closure] and [ai_destroy] are -1 when there is no companion. *)
Record GIArgInfo : Type := mkGIArgInfo {
  ai_name : string;
  ai_type : GITypeInfo;
  ai_direction : GIDirection;
  ai_ownership_transfer : GITransfer;
  ai_closure : Z;
  ai_destroy : Z;
  ai_caller_allocates : bool
}.

(** Bits of [g_function_info_get_flags] (GIFunctionInfoFlags). *)
Definition GI_FUNCTION_IS_METHOD : Z := 1.
Definition GI_FUNCTION_IS_CONSTRUCTOR : Z := 2.
Definition GI_FUNCTION_THROWS : Z := 32.

(** What the [g_base_info_*], [g_callable_info_*] and
    [g_function_info_*] accessors answer for a callable.
    [ci_type_code] is the integer value of [ci_type] (pushed with
    [lua_pushinteger]); [ci_name] lists the strings [lgi_type_get_name]
    pushes; [ci_container_type] is the type of [g_base_info_get_container]. *)
Record GICallableInfo : Type := mkGICallableInfo {
  ci_type : GIInfoType;
  ci_type_code : Z;
  ci_name : list string;
  ci_namespace : string;
  ci_base_name : string;
  ci_flags : Z;
  ci_symbol : string;
  ci_args : list GIArgInfo;
  ci_return_type : GITypeInfo;
  ci_caller_owns : GITransfer;
  ci_container_type : GIInfoType
}.

Definition g_callable_info_get_n_args (info : GICallableInfo) : Z :=
  Z.of_nat (length (ci_args info)).

Definition GI_IS_FUNCTION_INFO (info : GICallableInfo) : bool :=
  bool_decide (ci_type info = GI_INFO_TYPE_FUNCTION).
Definition GI_IS_SIGNAL_INFO (info : GICallableInfo) : bool :=
  bool_decide (ci_type info = GI_INFO_TYPE_SIGNAL).

(** ** libffi types *)

Inductive ffi_type : Type :=
| ffi_type_void
| ffi_type_uint
| ffi_type_sint8
| ffi_type_uint8
| ffi_type_sint16
| ffi_type_uint16
| ffi_type_sint32
| ffi_type_uint32
| ffi_type_sint64
| ffi_type_uint64
| ffi_type_float
| ffi_type_double
| ffi_type_pointer.

Global Instance ffi_type_eq_dec : EqDecision ffi_type.
Proof. solve_decision. Defined.

(** ** Params and callables *)

Record Param : Type := mkParam {
  ti : GITypeInfo;
  ai : GIArgInfo;
  dir : GIDirection;
  transfer : GITransfer;
  internal : bool
}.

Section FfiTypes.

(** The configuration macro of glibconfig.h. *)
Variable GLIB_SIZEOF_SIZE_T : Z.

(** [get_simple_ffi_type]: [None] is the C NULL. *)
Definition get_simple_ffi_type (tag : GITypeTag) : option ffi_type :=
  match tag with
  | GI_TYPE_TAG_VOID => Some ffi_type_void
  | GI_TYPE_TAG_BOOLEAN => Some ffi_type_uint
  | GI_TYPE_TAG_INT8 => Some ffi_type_sint8
  | GI_TYPE_TAG_UINT8 => Some ffi_type_uint8
  | GI_TYPE_TAG_INT16 => Some ffi_type_sint16
  | GI_TYPE_TAG_UINT16 => Some ffi_type_uint16
  | GI_TYPE_TAG_INT32 => Some ffi_type_sint32
  | GI_TYPE_TAG_UINT32 => Some ffi_type_uint32
  | GI_TYPE_TAG_INT64 => Some ffi_type_sint64
  | GI_TYPE_TAG_UINT64 => Some ffi_type_uint64
  | GI_TYPE_TAG_FLOAT => Some ffi_type_float
  | GI_TYPE_TAG_DOUBLE => Some ffi_type_double
  | GI_TYPE_TAG_GTYPE =>
      if GLIB_SIZEOF_SIZE_T =? 4 then Some ffi_type_uint32
      else Some ffi_type_uint64
  | _ => None
  end.

(** [get_ffi_type]. *)
Definition get_ffi_type (param : Param) : ffi_type :=
  let tag := ti_tag (ti param) in
  let ffi :=
    if ti_is_pointer (ti param) then Some ffi_type_pointer
    else get_simple_ffi_type tag in
  let ffi :=
    match ffi with
    | Some _ => ffi
    | None =>
        if bool_decide (tag = GI_TYPE_TAG_INTERFACE) then
          match ti_interface_type (ti param) with
          | GI_INFO_TYPE_ENUM | GI_INFO_TYPE_FLAGS =>
              get_simple_ffi_type (ti_storage_type (ti param))
          | _ => None
          end
        else None
    end in
  match ffi with
  | Some t => t
  | None => ffi_type_pointer
  end.

(** The ffi type [lgi_callable_create] stores for an argument:
    [(param->dir == GI_DIRECTION_IN) ? get_ffi_type(param) : &ffi_type_pointer]. *)
Definition param_ffi_arg (param : Param) : ffi_type :=
  if bool_decide (dir param = GI_DIRECTION_IN) then get_ffi_type param
  else ffi_type_pointer.

End FfiTypes.

(** [ffi_cif], as far as [ffi_prep_cif] fills it. *)
Record ffi_cif : Type := mkCif {
  cif_nargs : Z;
  cif_rtype : ffi_type;
  cif_arg_types : list ffi_type
}.

(** [Callable]; [address] 0 is NULL, [nargs] is the 6-bit field. *)
Record Callable : Type := mkCallable {
  info : GICallableInfo;
  address : Z;
  has_self : bool;
  throws : bool;
  nargs : Z;
  cif : ffi_cif;
  retval : Param;
  params : list Param
}.

Definition Param_set_internal (b : bool) (p : Param) : Param :=
  mkParam (ti p) (ai p) (dir p) (transfer p) b.

Definition Callable_set_params (ps : list Param) (c : Callable) : Callable :=
  mkCallable (info c) (address c) (has_self c) (throws c) (nargs c)
             (cif c) (retval c) ps.

(** [callable->params[arg].internal = TRUE]. *)
Definition mark_internal (arg : Z) (c : Callable) : Callable :=
  Callable_set_params
    (alter (Param_set_internal true) (Z.to_nat arg) (params c)) c.

(** [callable_mark_array_length]. *)
Definition callable_mark_array_length (callable : Callable) (t : GITypeInfo)
  : Callable :=
  if bool_decide (ti_tag t = GI_TYPE_TAG_ARRAY) &&
     bool_decide (ti_array_type t = GI_ARRAY_TYPE_C)
  then
    let arg := ti_array_length t in
    if (0 <=? arg) && (arg <? nargs callable)
    then mark_internal arg callable
    else callable
  else callable.

(** ** The Lua side of [lgi_callable_create] *)

(** Result of a C function that may leave through [luaL_error]. *)
Inductive lua_result (A : Type) : Type :=
| LuaOk (a : A)
| LuaError (msg : string).
Arguments LuaOk {A} a.
Arguments LuaError {A} msg.

(** The part of the Lua state [lgi_callable_create] works on: the table
    stored in the registry under [&callable_cache] (created by
    [lgi_cache_create (L, &callable_cache, NULL)], so with strong keys
    and values) and the Callable userdata blocks, each identified by its
    position in [ls_userdata]. *)
Record lua_State : Type := mkLuaState {
  ls_callable_cache : gmap string nat;
  ls_userdata : list Callable
}.

(** The collaborators of [lgi_callable_create]: [g_typelib_symbol]
    ([None]: symbol not found), [g_module_error], [ffi_prep_cif]
    ([true]: FFI_OK), and the position prefix [luaL_error] puts before
    its message ([luaL_where (L, 1)]). *)
Record CreateEnv : Type := mkCreateEnv {
  GLIB_SIZEOF_SIZE_T : Z;
  g_typelib_symbol : string -> option Z;
  g_module_error : string;
  ffi_prep_cif : Z -> ffi_type -> list ffi_type -> bool;
  luaL_where : string
}.

(** [lua_concat (L, lgi_type_get_name (L, info))]. *)
Definition type_name (i : GICallableInfo) : string :=
  String.concat "" (ci_name i).

(** The key built at the head of [lgi_callable_create]:
    [lua_pushinteger (type); lua_pushstring (":");
     lua_concat (L, lgi_type_get_name (L, info) + 2)]. *)
Definition callable_cache_key (i : GICallableInfo) : string :=
  pretty (ci_type_code i) +:+ ":" +:+ type_name i.

(** [has_self] and [throws] as computed from the function flags. *)
Definition flags_has_self (flags : Z) : bool :=
  negb (Z.land flags GI_FUNCTION_IS_METHOD =? 0) &&
  (Z.land flags GI_FUNCTION_IS_CONSTRUCTOR =? 0).
Definition flags_throws (flags : Z) : bool :=
  negb (Z.land flags GI_FUNCTION_THROWS =? 0).

Definition bool_to_Z (b : bool) : Z := if b then 1 else 0.

(** The contents of a Param before it is loaded: the block comes from
    [lua_newuserdata]; every field is written before it is read. *)
Definition GITypeInfo_unset : GITypeInfo :=
  mkGITypeInfo GI_TYPE_TAG_VOID false (GI_INFO_TYPE_other 0) GI_TYPE_TAG_VOID
               GI_ARRAY_TYPE_C (-1).
Definition GIArgInfo_unset : GIArgInfo :=
  mkGIArgInfo "" GITypeInfo_unset GI_DIRECTION_IN GI_TRANSFER_NOTHING
              (-1) (-1) false.
Definition Param_unset : Param :=
  mkParam GITypeInfo_unset GIArgInfo_unset GI_DIRECTION_IN GI_TRANSFER_NOTHING
          false.

(** One round of the argument loop of [lgi_callable_create]: loads
    [params[argi]], appends its ffi type, and marks the closure, destroy
    and array-length companions.  [n] is the local [nargs]. *)
Definition callable_load_arg (env : CreateEnv) (n : Z)
    (acc : Callable * list ffi_type) (argi : nat) : Callable * list ffi_type :=
  let '(callable, ffi_args) := acc in
  match ci_args (info callable) !! argi, params callable !! argi with
  | Some a, Some old =>
      let param :=
        mkParam (ai_type a) a (ai_direction a) (ai_ownership_transfer a)
                (internal old) in
      let callable :=
        Callable_set_params (<[argi := param]> (params callable)) callable in
      let ffi_arg :=
        if bool_decide (dir param = GI_DIRECTION_IN)
        then get_ffi_type (GLIB_SIZEOF_SIZE_T env) param
        else ffi_type_pointer in
      let arg := ai_closure a in
      let callable :=
        if (0 <? arg) && (arg <? n) then mark_internal arg callable
        else callable in
      let arg := ai_destroy a in
      let callable :=
        if (0 <? arg) && (arg <? n) then mark_internal arg callable
        else callable in
      (callable_mark_array_length callable (ti param), ffi_args ++ [ffi_arg])
  | _, _ => acc
  end.

(** [lgi_callable_create] from the allocation of the userdata to the
    call of [ffi_prep_cif]: the filled Callable, or the message of the
    [luaL_error] that leaves the function. *)
Definition callable_build (env : CreateEnv) (i : GICallableInfo) (addr : Z)
  : lua_result Callable :=
  let n := g_callable_info_get_n_args i in
  let is_fun := GI_IS_FUNCTION_INFO i in
  let self :=
    if is_fun then flags_has_self (ci_flags i) else GI_IS_SIGNAL_INFO i in
  let thr := if is_fun then flags_throws (ci_flags i) else false in
  let resolved :=
    if is_fun then g_typelib_symbol env (ci_symbol i) else Some addr in
  match resolved with
  | None =>
      LuaError (luaL_where env +:+ "could not locate " +:+
                callable_cache_key i +:+ "(" +:+ ci_symbol i +:+ "): " +:+
                g_module_error env)
  | Some a =>
      let ret :=
        mkParam (ci_return_type i) GIArgInfo_unset GI_DIRECTION_OUT
                (ci_caller_owns i) false in
      let callable :=
        mkCallable i a self thr (n `mod` 64) (mkCif 0 ffi_type_void [])
                   ret (replicate (Z.to_nat n) Param_unset) in
      let ffi_retval := get_ffi_type (GLIB_SIZEOF_SIZE_T env) ret in
      let callable := callable_mark_array_length callable (ti ret) in
      let ffi_args := if self then [ffi_type_pointer] else [] in
      let '(callable, ffi_args) :=
        foldl (callable_load_arg env n) (callable, ffi_args)
              (seq 0 (Z.to_nat n)) in
      let ffi_args := if thr then ffi_args ++ [ffi_type_pointer] else ffi_args in
      let cif_n := bool_to_Z self + n + bool_to_Z thr in
      if ffi_prep_cif env cif_n ffi_retval ffi_args then
        LuaOk (mkCallable i a self thr (nargs callable)
                          (mkCif cif_n ffi_retval ffi_args)
                          (retval callable) (params callable))
      else
        LuaError (luaL_where env +:+ "ffi_prep_cif for `" +:+ type_name i
                  +:+ "' failed")
  end.

(** [lgi_callable_create]: the cached userdata when the key is present;
    otherwise the Callable is built and, when that succeeds, stored in
    the cache under the key.  A userdata whose construction fails is
    garbage and is not kept in the model. *)
Definition lgi_callable_create (env : CreateEnv) (L : lua_State)
    (i : GICallableInfo) (addr : Z) : lua_result nat * lua_State :=
  match ls_callable_cache L !! callable_cache_key i with
  | Some ud => (LuaOk ud, L)
  | None =>
      match callable_build env i addr with
      | LuaError msg => (LuaError msg, L)
      | LuaOk callable =>
          let ud := length (ls_userdata L) in
          (LuaOk ud,
           mkLuaState (<[callable_cache_key i := ud]> (ls_callable_cache L))
                      (ls_userdata L ++ [callable]))
      end
  end.

(** ** Lua values and the Lua stack *)

Inductive lua_type : Type :=
| LUA_TNONE
| LUA_TNIL
| LUA_TBOOLEAN
| LUA_TLIGHTUSERDATA
| LUA_TNUMBER
| LUA_TSTRING
| LUA_TTABLE
| LUA_TFUNCTION
| LUA_TUSERDATA
| LUA_TTHREAD.

Global Instance lua_type_eq_dec : EqDecision lua_type.
Proof. solve_decision. Defined.

(** Collectable values carry the identity of their object. *)
Inductive lua_value : Type :=
| LuaNil
| LuaBoolean (b : bool)
| LuaLightUserdata (p : Z)
| LuaInteger (n : Z)
| LuaString (s : string)
| LuaTable (id : nat)
| LuaFunction (id : nat)
| LuaUserdata (id : nat)
| LuaThread (id : nat).

Global Instance lua_value_eq_dec : EqDecision lua_value.
Proof. solve_decision. Defined.

Definition lua_typeof (v : lua_value) : lua_type :=
  match v with
  | LuaNil => LUA_TNIL
  | LuaBoolean _ => LUA_TBOOLEAN
  | LuaLightUserdata _ => LUA_TLIGHTUSERDATA
  | LuaInteger _ => LUA_TNUMBER
  | LuaString _ => LUA_TSTRING
  | LuaTable _ => LUA_TTABLE
  | LuaFunction _ => LUA_TFUNCTION
  | LuaUserdata _ => LUA_TUSERDATA
  | LuaThread _ => LUA_TTHREAD
  end.

(** [lua_typename]. *)
Definition lua_typename (t : lua_type) : string :=
  match t with
  | LUA_TNONE => "no value"
  | LUA_TNIL => "nil"
  | LUA_TBOOLEAN => "boolean"
  | LUA_TLIGHTUSERDATA => "userdata"
  | LUA_TNUMBER => "number"
  | LUA_TSTRING => "string"
  | LUA_TTABLE => "table"
  | LUA_TFUNCTION => "function"
  | LUA_TUSERDATA => "userdata"
  | LUA_TTHREAD => "thread"
  end.

(** Status codes of lua.h (Lua 5.1). *)
Definition LUA_YIELD : Z := 1.
Definition LUA_ERRRUN : Z := 2.
Definition LUA_ERRSYNTAX : Z := 3.
Definition LUA_ERRMEM : Z := 4.
Definition LUA_ERRERR : Z := 5.

Abbreviation lua_stack := (list lua_value) (only parsing).

Definition lua_gettop (s : lua_stack) : Z := Z.of_nat (length s).

(** Absolute position of an index: negative indices count from the top. *)
Definition lua_absindex (s : lua_stack) (idx : Z) : Z :=
  if idx <? 0 then lua_gettop s + idx + 1 else idx.

(** The value at an acceptable index; a position above the top reads as
    nil by the marshalling code. *)
Definition lua_at (s : lua_stack) (idx : Z) : option lua_value :=
  let p := lua_absindex s idx in
  if 1 <=? p then s !! Z.to_nat (p - 1) else None.

Definition lua_index (s : lua_stack) (idx : Z) : lua_value :=
  default LuaNil (lua_at s idx).

(** [lua_type (L, idx)]. *)
Definition lua_type_at (s : lua_stack) (idx : Z) : lua_type :=
  match lua_at s idx with
  | Some v => lua_typeof v
  | None => LUA_TNONE
  end.

(** [lua_settop] with a non-negative index: cuts the stack or fills it
    with nil. *)
Definition lua_settop (n : Z) (s : lua_stack) : lua_stack :=
  take (Z.to_nat n) s ++ replicate (Z.to_nat n - length s)%nat LuaNil.

(** [lua_pop (L, n)]; [None] when there are fewer than [n] values (or
    [n] is negative), which Lua leaves undefined. *)
Definition lua_pop (n : Z) (s : lua_stack) : option lua_stack :=
  if (0 <=? n) && (n <=? lua_gettop s)
  then Some (take (length s - Z.to_nat n)%nat s)
  else None.

(** [lua_insert (L, idx)]: moves the top value to position [idx] and
    shifts the values from there up; [None] for an index that is not a
    position of the stack. *)
Definition lua_insert (idx : Z) (s : lua_stack) : option lua_stack :=
  let p := lua_absindex s idx in
  if (1 <=? p) && (p <=? lua_gettop s) then
    match last s with
    | Some top =>
        let below := take (length s - 1)%nat s in
        Some (take (Z.to_nat (p - 1)) below ++
              top :: drop (Z.to_nat (p - 1)) below)
    | None => None
    end
  else None.

(** The values a C function returns to Lua with [return n]: the top [n]
    values of its stack. *)
Definition lua_results (n : Z) (s : lua_stack) : lua_stack :=
  drop (length s - Z.to_nat n)%nat s.

(** ** Native values, marshalling and events *)

(** A [GIArgument] slot, as the integer or pointer it holds. *)
Definition GIArgument : Type := Z.

Record GError : Type := mkGError {
  err_domain : string;
  err_code : Z;
  err_message : string
}.

Global Instance GError_eq_dec : EqDecision GError.
Proof. solve_decision. Defined.

(** The marshalling functions of marshal.c, object.c and record.c that
    callable.c calls.
    - [lgi_marshal_arg_2c ti ai transfer v] gives the native value stored
      into the slot and the temporary values the function leaves on the
      Lua stack; the count it returns is the number of those values.
      ([ai] is [None] where callable.c passes NULL.)
    - [lgi_marshal_arg_2c_caller_alloc ti] is [None] when the function
      answers FALSE; [Some (p, v)] when it answers TRUE, where, called
      with position 0, it stores [p] into the slot and pushes [v].
    - [lgi_marshal_arg_2lua ti transfer val args] is the Lua value pushed
      for a native value; it may read the other arguments.
    - [lgi_marshal_arg_2c_stores ti ai transfer v args] are the stores
      the same call of [lgi_marshal_arg_2c] makes through its [args]
      parameter to argument slots other than that of the value (the
      length of an array, the user data of a closure): pairs of the
      index of the slot, counted from [args], and the value stored;
      [args] are the slots it finds there.
    - [lgi_object_2c], [lgi_record_2c], [lgi_object_2lua],
      [lgi_record_2lua] convert the receiver; the repotype that
      [lgi_type_get_repotype] pushes for the record functions is consumed
      by them.
    - [g_newa_args k] is what slot [k] of the block that [g_newa]
      hands to [callable_call] holds before anything is stored in it.
    The functions are total here: a call in which one of them raises a
    Lua error ends at that point and is not described. *)
Record Marshal : Type := mkMarshal {
  lgi_marshal_arg_2c :
    GITypeInfo -> option GIArgInfo -> GITransfer -> lua_value ->
    GIArgument * list lua_value;
  lgi_marshal_arg_2c_stores :
    GITypeInfo -> option GIArgInfo -> GITransfer -> lua_value ->
    list GIArgument -> list (nat * GIArgument);
  lgi_marshal_arg_2c_caller_alloc : GITypeInfo -> option (GIArgument * lua_value);
  lgi_marshal_arg_2lua :
    GITypeInfo -> GITransfer -> GIArgument -> list GIArgument -> lua_value;
  lgi_object_2c : lua_value -> GIArgument;
  lgi_record_2c : lua_value -> GIArgument;
  lgi_object_2lua : GIArgument -> lua_value;
  lgi_record_2lua : GIArgument -> lua_value;
  g_newa_args : nat -> GIArgument
}.

(** What the function called through [ffi_call] leaves behind: its
    return value, the argument slots (those of out and inout arguments
    written through the redirect pointers) and the error it stored
    through the trailing [GError **], if any. *)
Record NativeResult : Type := mkNativeResult {
  nr_retval : GIArgument;
  nr_args : list GIArgument;
  nr_err : option GError
}.

(** Observable actions, in the order the code performs them. *)
Inductive Event : Type :=
| EvLock
| EvUnlock
| EvFfiCall (addr : Z) (args : list GIArgument)
| EvSelf2C
| EvSelf2Lua
| EvArg2C (i : nat)
| EvCallerAlloc (i : nat)
| EvRet2Lua
| EvRet2C
| EvArg2Lua (i : nat)
| EvLuaCall (n : Z)
| EvLuaPCall (n : Z)
| EvLuaResume (n : Z)
| EvLuaError
| EvWarning (msg : string)
| EvLuaPop (n : Z)
| EvSetError (e : GError)
| EvGuardCreate.

Global Instance Event_eq_dec : EqDecision Event.
Proof. solve_decision. Defined.

(** How a C function called by Lua or by libffi ends. *)
Inductive Outcome : Type :=
| Returned (results : list lua_value)
| Raised (msg : lua_value)
| Aborted
| Undefined.

(** [for (i = 0; i < n; i++, param++) body], over the Params [ps]
    starting at index [i]; the body may fail. *)
Fixpoint for_params {St : Type} (body : nat -> Param -> St -> option St)
    (i : nat) (ps : list Param) (st : St) : option St :=
  match ps with
  | [] => Some st
  | p :: ps' =>
      match body i p st with
      | Some st' => for_params body (S i) ps' st'
      | None => None
      end
  end.

(** The Params a loop bounded by [callable->nargs] visits. *)
Definition loop_params (callable : Callable) : list Param :=
  take (Z.to_nat (nargs callable)) (params callable).

(** ** [callable_call]: calling a C function from Lua *)

(** The locals of [callable_call] that change while it runs. *)
Record CallState : Type := mkCallState {
  cs_stack : lua_stack;
  cs_args : list GIArgument;
  cs_lua_argi : Z;
  cs_nret : Z;
  cs_caller_allocated : Z;
  cs_trace : list Event
}.

Definition self_slots (callable : Callable) : nat :=
  if has_self callable then 1%nat else 0%nat.

(** The argument block after the stores a marshaller makes through
    [args + callable->has_self]; [self] is the number of slots before
    [args], [stores] the stores it makes from the slots it finds. *)
Definition store_args (self : nat)
    (stores : list GIArgument -> list (nat * GIArgument))
    (args : list GIArgument) : list GIArgument :=
  foldl (fun a w => <[(w.1 + self)%nat := w.2]> a) args
        (stores (drop self args)).

(** The slot count of the signature is the one the argument block is
    laid out for.  ([ffi_call] reads [cif.nargs] slots; the block has
    [has_self + nargs + throws].) *)
Definition plan_consistent (callable : Callable) : bool :=
  cif_nargs (cif callable) =?
  bool_to_Z (has_self callable) + nargs callable + bool_to_Z (throws callable).

(** "Prepare 'self', if present": the receiver is read from index 2.
    (The [nret++] of this block is undone by the [nret = 0] that
    follows it.) *)
Definition callable_call_self (m : Marshal) (callable : Callable)
    (st : CallState) : CallState :=
  if has_self callable then
    let v := lua_index (cs_stack st) 2 in
    let p :=
      match ci_container_type (info callable) with
      | GI_INFO_TYPE_OBJECT | GI_INFO_TYPE_INTERFACE => lgi_object_2c m v
      | _ => lgi_record_2c m v
      end in
    mkCallState (cs_stack st) (<[0%nat := p]> (cs_args st))
                (cs_lua_argi st + 1) (cs_nret st) (cs_caller_allocated st)
                (cs_trace st ++ [EvSelf2C])
  else st.

(** Body of the loop "Process input parameters". *)
Definition callable_call_in (m : Marshal) (callable : Callable)
    (i : nat) (param : Param) (st : CallState) : option CallState :=
  if internal param then Some st
  else
    let argi := (i + self_slots callable)%nat in
    if negb (bool_decide (dir param = GI_DIRECTION_OUT)) then
      let v := lua_index (cs_stack st) (cs_lua_argi st) in
      let '(val, temps) :=
        lgi_marshal_arg_2c m (ti param) (Some (ai param)) GI_TRANSFER_NOTHING
                           v in
      let args :=
        store_args (self_slots callable)
          (lgi_marshal_arg_2c_stores m (ti param) (Some (ai param))
                                     GI_TRANSFER_NOTHING v)
          (cs_args st) in
      Some (mkCallState (cs_stack st ++ temps) (<[argi := val]> args)
                        (cs_lua_argi st + 1)
                        (cs_nret st + Z.of_nat (length temps))
                        (cs_caller_allocated st)
                        (cs_trace st ++ [EvArg2C i]))
    else if ai_caller_allocates (ai param) then
      match lgi_marshal_arg_2c_caller_alloc m (ti param) with
      | Some (p, v) =>
          match lua_insert (- cs_nret st - 1) (cs_stack st ++ [v]) with
          | Some s =>
              Some (mkCallState s (<[argi := p]> (cs_args st))
                                (cs_lua_argi st) (cs_nret st)
                                (cs_caller_allocated st + 1)
                                (cs_trace st ++ [EvCallerAlloc i]))
          | None => None
          end
      | None => Some st
      end
    else Some st.

(** "Handle return value". *)
Definition callable_call_retval (m : Marshal) (callable : Callable)
    (r : NativeResult) (st : CallState) : option CallState :=
  if bool_decide (ti_tag (ti (retval callable)) = GI_TYPE_TAG_VOID)
  then Some st
  else
    let v :=
      lgi_marshal_arg_2lua m (ti (retval callable))
                           (transfer (retval callable)) (nr_retval r)
                           (drop (self_slots callable) (cs_args st)) in
    match lua_insert (- cs_caller_allocated st - 1) (cs_stack st ++ [v]) with
    | Some s =>
        Some (mkCallState s (cs_args st) (cs_lua_argi st) (cs_nret st + 1)
                          (cs_caller_allocated st)
                          (cs_trace st ++ [EvRet2Lua]))
    | None => None
    end.

Definition caller_alloc_handled (m : Marshal) (t : GITypeInfo) : bool :=
  match lgi_marshal_arg_2c_caller_alloc m t with
  | Some _ => true
  | None => false
  end.

(** Body of the loop "Process output parameters". *)
Definition callable_call_out (m : Marshal) (callable : Callable)
    (i : nat) (param : Param) (st : CallState) : option CallState :=
  if negb (internal param) &&
     negb (bool_decide (dir param = GI_DIRECTION_IN)) then
    let argi := (i + self_slots callable)%nat in
    if ai_caller_allocates (ai param) && caller_alloc_handled m (ti param) then
      Some (mkCallState (cs_stack st) (cs_args st) (cs_lua_argi st)
                        (cs_nret st + 1) (cs_caller_allocated st - 1)
                        (cs_trace st))
    else
      let v :=
        lgi_marshal_arg_2lua m (ti param) (transfer param)
                             (default 0 (cs_args st !! argi))
                             (drop (self_slots callable) (cs_args st)) in
      match lua_insert (- cs_caller_allocated st - 1) (cs_stack st ++ [v]) with
      | Some s =>
          Some (mkCallState s (cs_args st) (cs_lua_argi st) (cs_nret st + 1)
                            (cs_caller_allocated st)
                            (cs_trace st ++ [EvArg2Lua i]))
      | None => None
      end
  else Some st.

(** The part of [callable_call] after the mutex is locked again.
    [st] holds the stack with the temporaries popped and [nret = 0]. *)
Definition callable_call_finish (m : Marshal) (callable : Callable)
    (r : NativeResult) (err : option GError) (st : CallState)
  : list Event * Outcome :=
  match callable_call_retval m callable r st with
  | None => (cs_trace st, Undefined)
  | Some st =>
      match err with
      | Some e =>
          let '(s, nret) :=
            if cs_nret st =? 0
            then (cs_stack st ++ [LuaBoolean false], 1)
            else (cs_stack st, cs_nret st) in
          let s := s ++ [LuaString (err_message e); LuaInteger (err_code e)] in
          (cs_trace st, Returned (lua_results (nret + 2) s))
      | None =>
          match for_params (callable_call_out m callable) 0
                           (loop_params callable) st with
          | None => (cs_trace st, Undefined)
          | Some st =>
              let '(s, nret) :=
                if (cs_nret st =? 0) && throws callable
                then (cs_stack st ++ [LuaBoolean true], 1)
                else (cs_stack st, cs_nret st) in
              if cs_caller_allocated st =? 0
              then (cs_trace st, Returned (lua_results nret s))
              else (cs_trace st, Aborted)
          end
      end
  end.

(** [callable_call] up to the release of the mutex: the stack is set to
    its fixed size, the argument block is allocated, the receiver and
    the input arguments are marshalled.  [stack0] is the Lua stack at
    entry (the Callable userdata at index 1, then the arguments). *)
Definition callable_call_prepare (m : Marshal) (callable : Callable)
    (stack0 : lua_stack) : option CallState :=
  let self := bool_to_Z (has_self callable) in
  let st :=
    mkCallState (lua_settop (self + nargs callable + 1) stack0)
                (g_newa_args m <$> seq 0 (Z.to_nat (nargs callable + self)))
                2 0 0 [] in
  for_params (callable_call_in m callable) 0 (loop_params callable)
             (callable_call_self m callable st).

(** The [err] variable after [ffi_call]: it stays NULL unless the
    callable throws, as only then its address is passed. *)
Definition callable_call_err (callable : Callable) (r : NativeResult)
  : option GError :=
  if throws callable then nr_err r else None.

(** [callable_call].  [native] is the function at [callable->address] as
    [ffi_call] runs it on the argument slots.  [ffi_call] takes the
    number of slots from [callable->cif]; when that is not the number
    the block was laid out for (the 6-bit [nargs] of a callable with 64
    or more arguments has wrapped), it reads past the block and the call
    is undefined, with the mutex released. *)
Definition callable_call (m : Marshal)
    (native : Z -> list GIArgument -> NativeResult)
    (callable : Callable) (stack0 : lua_stack) : list Event * Outcome :=
  match callable_call_prepare m callable stack0 with
  | None => ([], Undefined)
  | Some st =>
      if negb (plan_consistent callable)
      then (cs_trace st ++ [EvUnlock], Undefined)
      else
      let r := native (address callable) (cs_args st) in
      let trace :=
        cs_trace st ++
        [EvUnlock; EvFfiCall (address callable) (cs_args st); EvLock] in
      match lua_pop (cs_nret st) (cs_stack st) with
      | None => (trace, Undefined)
      | Some s =>
          callable_call_finish m callable r (callable_call_err callable r)
            (mkCallState s (nr_args r) (cs_lua_argi st) 0
                         (cs_caller_allocated st) trace)
      end
  end.

(** ** Callbacks: calling Lua from C *)

(** [LUA_NOREF] of lauxlib.h. *)
Definition LUA_NOREF : Z := -2.

(** [Callback], with what its references resolve to: [cb_target] is
    the registry entry of [target_ref], [cb_thread] that of
    [thread_ref]; [cb_status] and [cb_stack] are [lua_status] and the
    stack of that thread.  [callback_create] takes [callback->L] and
    [thread_ref] from the same thread and [callback_prepare_call] moves
    them together, so the thread pushed by [lua_rawgeti] lands on its
    own stack. *)
Record Callback : Type := mkCallback {
  target_ref : Z;
  cb_target : lua_value;
  cb_thread : lua_value;
  cb_status : Z;
  cb_stack : lua_stack
}.

Definition lua_isthread (s : lua_stack) (idx : Z) : bool :=
  bool_decide (lua_type_at s idx = LUA_TTHREAD).

(** [callback_create]; [ref] is the reference [luaL_ref] hands out for
    the target, [thread] the value pushed by [lua_pushthread]. *)
Definition callback_create (s : lua_stack) (target_arg : Z) (ref : Z)
    (thread : lua_value) : Callback :=
  if lua_isthread s target_arg
  then mkCallback LUA_NOREF LuaNil thread 0 s
  else mkCallback ref (lua_index s target_arg) thread 0 s.

(** [callback_prepare_call] after it has locked the mutex: the stack of
    the state it returns, and [*call]. *)
Definition callback_prepare_call (callback : Callback) : lua_stack * bool :=
  let s := cb_stack callback ++ [cb_thread callback] in
  if negb (target_ref callback =? LUA_NOREF) then
    let s :=
      if negb (cb_status callback =? 0)
      then []
      else take (length s - 1)%nat s in
    (s ++ [cb_target callback], true)
  else (s, false).

(** [FfiClosure]; [closure_callable] is the userdata behind
    [callable_ref]. *)
Record FfiClosure : Type := mkFfiClosure {
  closure_callable : Callable;
  callback : Callback;
  autodestroy : bool
}.

(** The native side of a trampoline call: the return slot, the argument
    slots libffi hands over and the error stored through the trailing
    [GError **]. *)
Record NativeFrame : Type := mkNativeFrame {
  nf_ret : option GIArgument;
  nf_args : list GIArgument;
  nf_err : option GError
}.

(** The locals of [closure_callback] that change while it runs. *)
Record ClosureState : Type := mkClosureState {
  st_stack : lua_stack;
  st_npos : Z;
  st_frame : NativeFrame;
  st_trace : list Event
}.

(** [lua_tostring]: a string as it is, a number as its numeral; [None]
    is the NULL it returns for any other value. *)
Definition lua_tostring (v : lua_value) : option string :=
  match v with
  | LuaString s => Some s
  | LuaInteger n => Some (pretty n)
  | _ => None
  end.

(** "Marshall 'self' argument, if it is present"; [None] is
    [g_assert_not_reached]. *)
Definition closure_callback_self (m : Marshal) (callable : Callable)
    (st : ClosureState) : option ClosureState :=
  if has_self callable then
    let addr := default 0 (nf_args (st_frame st) !! 0%nat) in
    let pushed :=
      match ci_container_type (info callable) with
      | GI_INFO_TYPE_OBJECT | GI_INFO_TYPE_INTERFACE =>
          Some (lgi_object_2lua m addr)
      | GI_INFO_TYPE_STRUCT | GI_INFO_TYPE_UNION =>
          Some (lgi_record_2lua m addr)
      | _ => None
      end in
    match pushed with
    | Some v =>
        Some (mkClosureState (st_stack st ++ [v]) (st_npos st + 1)
                             (st_frame st) (st_trace st ++ [EvSelf2Lua]))
    | None => None
    end
  else Some st.

(** Body of the loop "Marshal input arguments to lua". *)
Definition closure_callback_in (m : Marshal) (callable : Callable)
    (i : nat) (param : Param) (st : ClosureState) : option ClosureState :=
  if negb (internal param) &&
     negb (bool_decide (dir param = GI_DIRECTION_OUT)) then
    let args := nf_args (st_frame st) in
    let v :=
      lgi_marshal_arg_2lua m (ti param) GI_TRANSFER_NOTHING
        (default 0 (args !! (i + self_slots callable)%nat))
        (drop (self_slots callable) args) in
    Some (mkClosureState (st_stack st ++ [v]) (st_npos st + 1)
                         (st_frame st) (st_trace st ++ [EvArg2Lua i]))
  else Some st.

(** The [g_warning] texts. *)
Definition warning_return (callable : Callable) (to_pop : Z) : string :=
  "cbk `" +:+ ci_namespace (info callable) +:+ "." +:+
  ci_base_name (info callable) +:+ "': return (transfer none) " +:+
  pretty to_pop +:+ ", unsafe!".

Definition warning_arg (callable : Callable) (param : Param) (to_pop : Z)
  : string :=
  "cbk " +:+ ci_namespace (info callable) +:+ "." +:+
  ci_base_name (info callable) +:+ ": arg `" +:+ ai_name (ai param) +:+
  "' (transfer none) " +:+ pretty to_pop +:+ ", unsafe!".

(** [if (to_pop != 0) { g_warning (...); lua_pop (L, to_pop); }] *)
Definition closure_drop_excess (msg : string) (to_pop : Z)
    (s : lua_stack) (trace : list Event) : option (lua_stack * list Event) :=
  if to_pop =? 0 then Some (s, trace)
  else
    match lua_pop to_pop s with
    | Some s' => Some (s', trace ++ [EvWarning msg; EvLuaPop to_pop])
    | None => None
    end.

(** "Marshal return value from Lua". *)
Definition closure_callback_retval (m : Marshal) (callable : Callable)
    (st : ClosureState) : option ClosureState :=
  if bool_decide (ti_tag (ti (retval callable)) = GI_TYPE_TAG_VOID)
  then Some st
  else
    let v := lua_index (st_stack st) (st_npos st) in
    let '(val, temps) :=
      lgi_marshal_arg_2c m (ti (retval callable)) None
                         (transfer (retval callable)) v in
    let to_pop := Z.of_nat (length temps) in
    let f := st_frame st in
    let args :=
      store_args (self_slots callable)
        (lgi_marshal_arg_2c_stores m (ti (retval callable)) None
                                   (transfer (retval callable)) v)
        (nf_args f) in
    match closure_drop_excess (warning_return callable to_pop) to_pop
            (st_stack st ++ temps) (st_trace st ++ [EvRet2C]) with
    | Some (s, trace) =>
        Some (mkClosureState s (st_npos st + 1)
                (mkNativeFrame (Some val) args (nf_err f)) trace)
    | None => None
    end.

(** Body of the loop "Marshal output arguments from Lua". *)
Definition closure_callback_out (m : Marshal) (callable : Callable)
    (i : nat) (param : Param) (st : ClosureState) : option ClosureState :=
  if negb (internal param) &&
     negb (bool_decide (dir param = GI_DIRECTION_IN)) then
    let v := lua_index (st_stack st) (st_npos st) in
    let '(val, temps) :=
      lgi_marshal_arg_2c m (ti param) (Some (ai param)) (transfer param) v in
    let to_pop := Z.of_nat (length temps) in
    let f := st_frame st in
    let args :=
      store_args (self_slots callable)
        (lgi_marshal_arg_2c_stores m (ti param) (Some (ai param))
                                   (transfer param) v)
        (nf_args f) in
    match closure_drop_excess (warning_arg callable param to_pop) to_pop
            (st_stack st ++ temps) (st_trace st ++ [EvArg2C i]) with
    | Some (s, trace) =>
        Some (mkClosureState s (st_npos st + 1)
                (mkNativeFrame (nf_ret f)
                   (<[(i + self_slots callable)%nat := val]> args)
                   (nf_err f))
                trace)
    | None => None
    end
  else Some st.

(** The [else] branch of "Check, whether we can report an error here":
    the error is stored through the pointer found in the slot after the
    arguments; [None] when the frame has no such slot.
    [g_set_error_literal] does nothing for a NULL pointer, and stores no
    error when the message is NULL ([g_error_new_literal] refuses it),
    that is when the value on top of the stack is neither a string nor
    a number. *)
Definition closure_callback_error (callable : Callable) (st : ClosureState)
  : option ClosureState :=
  let f := st_frame st in
  let slot := Z.to_nat (bool_to_Z (has_self callable) + nargs callable) in
  match nf_args f !! slot with
  | None => None
  | Some errp =>
      let '(err, events) :=
        match lua_tostring (lua_index (st_stack st) (-1)) with
        | Some text =>
            let e := mkGError "lgi-callback-error-quark" 1 text in
            (if errp =? 0 then nf_err f else Some e, [EvSetError e])
        | None => (nf_err f, [])
        end in
      match lua_pop 1 (st_stack st) with
      | Some s =>
          Some (mkClosureState s (st_npos st)
                  (mkNativeFrame (nf_ret f) (nf_args f) err)
                  (st_trace st ++ events))
      | None => None
      end
  end.

(** The end of [closure_callback]: the autodestroy guard, the stack
    reset and the release of the mutex. *)
Definition closure_callback_leave (closure : FfiClosure) (stacktop : Z)
    (st : ClosureState) : lua_stack * list Event :=
  let '(s, trace) :=
    if autodestroy closure
    then (st_stack st ++ [LuaUserdata 0], st_trace st ++ [EvGuardCreate])
    else (st_stack st, st_trace st) in
  (lua_settop stacktop s, trace ++ [EvUnlock]).

(** What a run of [closure_callback] leaves: the trace, the native frame,
    the Lua stack of the thread it ran on, and how it ended. *)
Record ClosureRun : Type := mkClosureRun {
  run_trace : list Event;
  run_frame : NativeFrame;
  run_stack : lua_stack;
  run_outcome : Outcome
}.

Definition closure_run_of (st : ClosureState) (o : Outcome) : ClosureRun :=
  mkClosureRun (st_trace st) (st_frame st) (st_stack st) o.

(** The stack position [closure_callback] remembers in [stacktop]. *)
Definition closure_stacktop (closure : FfiClosure) : Z :=
  let '(s, call) := callback_prepare_call (callback closure) in
  lua_gettop s - (if call then 1 else 0).

(** [closure_callback] up to the invocation of the target: the mutex is
    locked, the receiver and the input arguments are pushed.  [inl] is
    the way the function ends when it does not get that far. *)
Definition closure_callback_enter (m : Marshal) (closure : FfiClosure)
    (args : list GIArgument) : ClosureRun + ClosureState :=
  let '(s, call) := callback_prepare_call (callback closure) in
  let callable := closure_callable closure in
  let st := mkClosureState s 0 (mkNativeFrame None args None) [EvLock] in
  match closure_callback_self m callable st with
  | None => inl (closure_run_of st Aborted)
  | Some st =>
      match for_params (closure_callback_in m callable) 0
                       (loop_params callable) st with
      | None => inl (closure_run_of st Undefined)
      | Some st => inr st
      end
  end.

(** "Call it": [inl] when the error of the target leaves
    [closure_callback] (raised inside [lua_call], or thrown again by
    [lua_error] after a failed resume); otherwise [res] and the state
    with the results on the stack.  [lua_run] is the Lua target: from the
    values above [stacktop] (the function and its arguments for a call,
    the arguments for a resume) it gives the status and the values left
    in their place (the results, or the error message). *)
Definition closure_callback_invoke (lua_run : lua_stack -> Z * lua_stack)
    (closure : FfiClosure) (st : ClosureState) : ClosureRun + Z * ClosureState :=
  let callable := closure_callable closure in
  let call := snd (callback_prepare_call (callback closure)) in
  let stacktop := closure_stacktop closure in
  let npos := st_npos st in
  let '(status, vals) := lua_run (drop (Z.to_nat stacktop) (st_stack st)) in
  let s := take (Z.to_nat stacktop) (st_stack st) ++ vals in
  let raised trace :=
    inl (mkClosureRun trace (st_frame st) s (Raised (lua_index s (-1)))) in
  let done res trace :=
    inr (res, mkClosureState s (stacktop + 1) (st_frame st) trace) in
  if call then
    if throws callable
    then done status (st_trace st ++ [EvLuaPCall npos])
    else if status =? 0
         then done 0 (st_trace st ++ [EvLuaCall npos])
         else raised (st_trace st ++ [EvLuaCall npos])
  else
    let trace := st_trace st ++ [EvLuaResume npos] in
    if status =? LUA_YIELD then done 0 trace
    else if (status =? LUA_ERRRUN) && negb (throws callable)
         then raised (trace ++ [EvLuaError])
         else done status trace.

(** "Check, whether we can report an error here": the outputs are
    marshalled when [res] is 0, the error is reported otherwise. *)
Definition closure_callback_marshal (m : Marshal) (callable : Callable)
    (res : Z) (st : ClosureState) : option ClosureState :=
  if res =? 0 then
    match closure_callback_retval m callable st with
    | Some st =>
        for_params (closure_callback_out m callable) 0
                   (loop_params callable) st
    | None => None
    end
  else closure_callback_error callable st.

(** [closure_callback].  [args] are the argument slots libffi passes. *)
Definition closure_callback (m : Marshal)
    (lua_run : lua_stack -> Z * lua_stack)
    (closure : FfiClosure) (args : list GIArgument) : ClosureRun :=
  match closure_callback_enter m closure args with
  | inl run => run
  | inr st =>
      match closure_callback_invoke lua_run closure st with
      | inl run => run
      | inr (res, st) =>
          match closure_callback_marshal m (closure_callable closure) res st with
          | None => closure_run_of st Undefined
          | Some st =>
              let '(s, trace) :=
                closure_callback_leave closure (closure_stacktop closure) st in
              mkClosureRun trace (st_frame st) s (Returned [])
          end
      end
  end.

(** ** GClosure creation *)

(** [luaL_typerror (L, narg, tname)]: the message of the error it raises
    through [luaL_argerror]; [fname] is the function name Lua finds for
    the running C function. *)
Definition luaL_typerror (where_ fname : string) (narg : Z) (tname : string)
    (actual : lua_type) : string :=
  where_ +:+ "bad argument #" +:+ pretty narg +:+ " to '" +:+ fname +:+
  "' (" +:+ tname +:+ " expected, got " +:+ lua_typename actual +:+ ")".

(** [GlibClosure]: the part callable.c adds to the GClosure. *)
Record GlibClosure : Type := mkGlibClosure {
  gc_callback : Callback
}.

(** [lgi_gclosure_create]. *)
Definition lgi_gclosure_create (where_ fname : string) (ref : Z)
    (thread : lua_value) (s : lua_stack) (target : Z)
  : lua_result GlibClosure :=
  let type := lua_type_at s target in
  if negb (bool_decide (type = LUA_TFUNCTION)) &&
     negb (bool_decide (type = LUA_TTABLE)) &&
     negb (bool_decide (type = LUA_TUSERDATA))
  then LuaError (luaL_typerror where_ fname target
                               (lua_typename LUA_TFUNCTION) type)
  else LuaOk (mkGlibClosure (callback_create s target ref thread)).

(** [G_TYPE_INVALID] of gtype.h. *)
Definition G_TYPE_INVALID : Z := 0.

(** What [callable_closure] takes from outside callable.c:
    [repotype_closure] is the GType [lgi_type_get_repotype (L,
    G_TYPE_CLOSURE, NULL)] returns and the value it pushes;
    [record_2lua] is the proxy [lgi_record_2lua] puts in place of that
    value for a closure. *)
Record ClosureEnv : Type := mkClosureEnv {
  ce_where : string;
  ce_fname : string;
  ce_ref : Z;
  ce_thread : lua_value;
  repotype_closure : Z * lua_value;
  record_2lua : GlibClosure -> lua_value
}.

(** How [callable_closure] ends, and the closure it created, if any. *)
Definition callable_closure (env : ClosureEnv) (s : lua_stack)
  : Outcome * option GlibClosure :=
  let '(gtype, repo) := repotype_closure env in
  if negb (gtype =? G_TYPE_INVALID) then
    match lgi_gclosure_create (ce_where env) (ce_fname env) (ce_ref env)
                              (ce_thread env) (s ++ [repo]) 1 with
    | LuaError msg => (Raised (LuaString msg), None)
    | LuaOk c => (Returned (lua_results 1 (s ++ [record_2lua env c])), Some c)
    end
  else (Returned (lua_results 1 (s ++ [repo])), None).

(** ** References, closures and their destruction *)

(** [LUA_REFNIL] of lauxlib.h and [FREELIST_REF] of lauxlib.c. *)
Definition LUA_REFNIL : Z := -1.
Definition FREELIST_REF : Z := 0.

(** What the reference functions take from Lua: the length
    [lua_objlen] finds for the registry, and the number [lua_tointeger]
    makes of a string. *)
Record RefEnv : Type := mkRefEnv {
  lua_objlen : gmap Z lua_value -> Z;
  lua_str2number : string -> Z
}.

(** [lua_rawgeti] and [lua_rawseti] on the integer keys of the
    registry: an absent key reads as nil, storing nil removes the key. *)
Definition lua_rawgeti (n : Z) (t : gmap Z lua_value) : lua_value :=
  default LuaNil (t !! n).
Definition lua_rawseti (n : Z) (v : lua_value) (t : gmap Z lua_value)
  : gmap Z lua_value :=
  if bool_decide (v = LuaNil) then delete n t else <[n := v]> t.

(** [lua_tointeger]: 0 for a value that is no number. *)
Definition lua_tointeger (r : RefEnv) (v : lua_value) : Z :=
  match v with
  | LuaInteger n => n
  | LuaString s => lua_str2number r s
  | _ => 0
  end.

(** [luaL_ref (L, LUA_REGISTRYINDEX)] of Lua 5.1 on the value [v]: nil
    has the fixed reference LUA_REFNIL and is not stored; any other
    value goes to the first slot of the free list, which the registry
    keeps linked from key 0, or, when that list is empty, to the slot
    after the length of the registry. *)
Definition luaL_ref (r : RefEnv) (v : lua_value) (reg : gmap Z lua_value)
  : Z * gmap Z lua_value :=
  if bool_decide (v = LuaNil) then (LUA_REFNIL, reg)
  else
    let ref := lua_tointeger r (lua_rawgeti FREELIST_REF reg) in
    if negb (ref =? 0) then
      (ref, lua_rawseti ref v
              (lua_rawseti FREELIST_REF (lua_rawgeti ref reg) reg))
    else
      let ref := lua_objlen r reg + 1 in
      (ref, lua_rawseti ref v reg).

(** [luaL_unref (L, LUA_REGISTRYINDEX, ref)] of Lua 5.1: a reference
    that is not negative is put in front of the free list
    ([t[ref] = t[0]; t[0] = ref]). *)
Definition luaL_unref (ref : Z) (reg : gmap Z lua_value) : gmap Z lua_value :=
  if 0 <=? ref then
    lua_rawseti FREELIST_REF (LuaInteger ref)
      (lua_rawseti ref (lua_rawgeti FREELIST_REF reg) reg)
  else reg.

(** The Lua state closures are created in: the state of
    [lgi_callable_create] and the integer keys of the registry. *)
Record ClosureLua : Type := mkClosureLua {
  cl_lua : lua_State;
  cl_registry : gmap Z lua_value
}.

(** What [lgi_closure_create] takes from outside callable.c, besides the
    environment of [lgi_callable_create]: what the reference functions
    need, whether [ffi_closure_alloc] hands out a closure ([false]:
    NULL), [ffi_prep_closure_loc] ([true]: FFI_OK) and the thread
    [lua_pushthread] pushes. *)
Record ClosureCreateEnv : Type := mkClosureCreateEnv {
  cc_env : CreateEnv;
  cc_refs : RefEnv;
  ffi_closure_alloc : bool;
  ffi_prep_closure_loc : ffi_cif -> bool;
  cc_thread : nat
}.

(** [Callback] with the reference to its thread. *)
Record CallbackRefs : Type := mkCallbackRefs {
  cbr_callback : Callback;
  thread_ref : Z
}.

(** [callback_create] with the references it takes: none for a thread
    target, one for any other target, then one for the running thread. *)
Definition callback_create_refs (r : RefEnv)
    (s : lua_stack) (target_arg : Z) (thread : lua_value)
    (reg : gmap Z lua_value) : CallbackRefs * gmap Z lua_value :=
  let '(tref, reg) :=
    if lua_isthread s target_arg then (LUA_NOREF, reg)
    else luaL_ref r (lua_index s target_arg) reg in
  let '(thref, reg) := luaL_ref r thread reg in
  (mkCallbackRefs (callback_create s target_arg tref thread) thref, reg).

(** [callback_destroy]. *)
Definition callback_destroy (cb : CallbackRefs) (reg : gmap Z lua_value)
  : gmap Z lua_value :=
  luaL_unref (thread_ref cb) (luaL_unref (target_ref (cbr_callback cb)) reg).

(** [FfiClosure] with its references: [callable_ref] and the reference
    to the thread of its callback. *)
Record FfiClosureRefs : Type := mkFfiClosureRefs {
  fc_closure : FfiClosure;
  callable_ref : Z;
  fc_thread_ref : Z
}.

(** [lgi_closure_destroy], as far as the registry goes. *)
Definition lgi_closure_destroy (c : FfiClosureRefs) (reg : gmap Z lua_value)
  : gmap Z lua_value :=
  callback_destroy (mkCallbackRefs (callback (fc_closure c)) (fc_thread_ref c))
                   (luaL_unref (callable_ref c) reg).

(** [lgi_closure_create].  [s] is the Lua stack, [target] the index of
    the target on it.  The result is [None] where the code is
    undefined: when the userdata [lgi_callable_create] returns is not a
    Callable block of the state, and when [ffi_closure_alloc] returns
    NULL, through which the code stores [callable_ref] unchecked.
    The format of the error has the conversion [%'], which
    [lua_pushvfstring] of Lua 5.1 copies as it stands, so the name pushed
    for it is not part of the message. *)
Definition lgi_closure_create (env : ClosureCreateEnv) (L : ClosureLua)
    (ci : GICallableInfo) (s : lua_stack) (target : Z) (autodestroy_ : bool)
  : option (lua_result FfiClosureRefs * ClosureLua) :=
  match lgi_callable_create (cc_env env) (cl_lua L) ci 0 with
  | (LuaError msg, lua) => Some (LuaError msg, mkClosureLua lua (cl_registry L))
  | (LuaOk ud, lua) =>
      match ls_userdata lua !! ud with
      | None => None
      | Some callable =>
          if negb (ffi_closure_alloc env) then None
          else
          let '(cref, reg) :=
            luaL_ref (cc_refs env) (LuaUserdata ud) (cl_registry L) in
          let '(cb, reg) :=
            callback_create_refs (cc_refs env) s target
                                 (LuaThread (cc_thread env)) reg in
          let closure :=
            mkFfiClosureRefs
              (mkFfiClosure callable (cbr_callback cb) autodestroy_)
              cref (thread_ref cb) in
          if ffi_prep_closure_loc env (cif callable) then
            Some (LuaOk closure, mkClosureLua lua reg)
          else
            Some (LuaError (luaL_where (cc_env env) +:+
                            "failed to prepare closure for `%'"),
                  mkClosureLua lua (lgi_closure_destroy closure reg))
      end
  end.

(** ** The GClosure marshaller *)

(** A [GValue], as an opaque handle. *)
Definition GValue : Type := Z.

(** [lgi_marshal_val_2lua] and [lgi_marshal_val_2c] of marshal.c, for
    the arguments [lgi_gclosure_marshal] passes. *)
Record ValueMarshal : Type := mkValueMarshal {
  lgi_marshal_val_2lua : GValue -> lua_value;
  lgi_marshal_val_2c : lua_value -> GValue
}.

(** What a run of [lgi_gclosure_marshal] leaves: the trace, the value
    stored in [return_value], the Lua stack, and how it ended. *)
Record GClosureRun : Type := mkGClosureRun {
  gr_trace : list Event;
  gr_return : option GValue;
  gr_stack : lua_stack;
  gr_outcome : Outcome
}.

(** [lgi_gclosure_marshal].  [lua_run] is the Lua target as for
    [closure_callback]; [lua_call] is asked for one result, so the
    function and its arguments are replaced by the first result, or by
    nil when there is none. *)
Definition lgi_gclosure_marshal (vm : ValueMarshal)
    (lua_run : lua_stack -> Z * lua_stack) (c : GlibClosure)
    (param_values : list GValue) : GClosureRun :=
  let '(s, call) := callback_prepare_call (gc_callback c) in
  let base := take (length s - (if call then 1 else 0))%nat s in
  let s := s ++ (lgi_marshal_val_2lua vm <$> param_values) in
  let vals := Z.of_nat (length param_values) in
  let trace := EvLock :: imap (fun i _ => EvArg2Lua i) param_values in
  let '(status, results) := lua_run (drop (length base) s) in
  let finish s trace :=
    mkGClosureRun (trace ++ [EvRet2C; EvUnlock])
                  (Some (lgi_marshal_val_2c vm (lua_index s (-1))))
                  s (Returned []) in
  if call then
    if status =? 0
    then finish (base ++ [default LuaNil (head results)])
                (trace ++ [EvLuaCall vals])
    else mkGClosureRun (trace ++ [EvLuaCall vals]) None (base ++ results)
                       (Raised (lua_index (base ++ results) (-1)))
  else
    if negb (status =? 0) && negb (status =? LUA_YIELD)
    then mkGClosureRun (trace ++ [EvLuaResume vals; EvLuaError]) None
                       (base ++ results)
                       (Raised (lua_index (base ++ results) (-1)))
    else finish (base ++ results) (trace ++ [EvLuaResume vals]).

(** ** Notions used in the statements *)

(** The type tags [get_simple_ffi_type] enumerates, with the libffi
    type each stands for. *)
Definition enumerated_primitives (size_t : Z) : list (GITypeTag * ffi_type) :=
  [ (GI_TYPE_TAG_VOID, ffi_type_void);
    (GI_TYPE_TAG_BOOLEAN, ffi_type_uint);
    (GI_TYPE_TAG_INT8, ffi_type_sint8);
    (GI_TYPE_TAG_UINT8, ffi_type_uint8);
    (GI_TYPE_TAG_INT16, ffi_type_sint16);
    (GI_TYPE_TAG_UINT16, ffi_type_uint16);
    (GI_TYPE_TAG_INT32, ffi_type_sint32);
    (GI_TYPE_TAG_UINT32, ffi_type_uint32);
    (GI_TYPE_TAG_INT64, ffi_type_sint64);
    (GI_TYPE_TAG_UINT64, ffi_type_uint64);
    (GI_TYPE_TAG_FLOAT, ffi_type_float);
    (GI_TYPE_TAG_DOUBLE, ffi_type_double);
    (GI_TYPE_TAG_GTYPE,
     if size_t =? 4 then ffi_type_uint32 else ffi_type_uint64) ].

(** Enum and flags types. *)
Definition is_enum_or_flags (t : GITypeInfo) : bool :=
  bool_decide (ti_tag t = GI_TYPE_TAG_INTERFACE) &&
  (bool_decide (ti_interface_type t = GI_INFO_TYPE_ENUM) ||
   bool_decide (ti_interface_type t = GI_INFO_TYPE_FLAGS)).

(** The kind a by-value type is mapped by: its own tag, or the storage
    tag of an enum or flags type. *)
Definition mapped_kind (t : GITypeInfo) : GITypeTag :=
  if is_enum_or_flags t then ti_storage_type t else ti_tag t.

(** [sub] occurs in [s]. *)
Definition occurs_in (sub s : string) : Prop :=
  exists pre post, s = pre +:+ sub +:+ post.

(** The length argument a type names, when it is a C array. *)
Definition array_length_arg (t : GITypeInfo) : option Z :=
  if bool_decide (ti_tag t = GI_TYPE_TAG_ARRAY) &&
     bool_decide (ti_array_type t = GI_ARRAY_TYPE_C)
  then Some (ti_array_length t) else None.

(** Whether [callable_mark_array_length], run for type [t] on a callable
    whose [nargs] field is [m], marks argument [k]. *)
Definition array_marks (m : Z) (t : GITypeInfo) (k : nat) : bool :=
  match array_length_arg t with
  | Some l => (0 <=? l) && (l <? m) && bool_decide (Z.to_nat l = k)
  | None => false
  end.

(** Whether the round of the argument loop for [a] marks argument [k];
    [n] is the number of arguments, [m] the [nargs] field. *)
Definition arg_marks (n m : Z) (a : GIArgInfo) (k : nat) : bool :=
  ((0 <? ai_closure a) && (ai_closure a <? n) &&
     bool_decide (Z.to_nat (ai_closure a) = k)) ||
  ((0 <? ai_destroy a) && (ai_destroy a <? n) &&
     bool_decide (Z.to_nat (ai_destroy a) = k)) ||
  array_marks m (ai_type a) k.

(** The [internal] flag [lgi_callable_create] leaves on argument [k]. *)
Definition marked_internal (i : GICallableInfo) (k : nat) : bool :=
  let n := g_callable_info_get_n_args i in
  array_marks (n `mod` 64) (ci_return_type i) k ||
  existsb (fun a => arg_marks n (n `mod` 64) a k) (ci_args i).

(** Argument [k] is named as a companion: as the length of a C array
    (the return type's or an argument's), or as the closure or destroy
    argument of an argument. *)
Definition declared_companion (i : GICallableInfo) (k : nat) : Prop :=
  array_length_arg (ci_return_type i) = Some (Z.of_nat k) \/
  exists a, a ∈ ci_args i /\
    (array_length_arg (ai_type a) = Some (Z.of_nat k) \/
     ai_closure a = Z.of_nat k \/ ai_destroy a = Z.of_nat k).

(** The [internal] flags of the Params, in order. *)
Definition flags (c : Callable) : list bool := internal <$> params c.

(** What marking keeps: the [nargs] field, the info and the number of
    Params. *)
Definition same_shape (c' c : Callable) : Prop :=
  nargs c' = nargs c /\ info c' = info c /\
  length (params c') = length (params c).

(** Events of marshalling and of Lua: everything but the mutex and the
    native call. *)
Definition inner_event (e : Event) : Prop :=
  match e with
  | EvLock | EvUnlock | EvFfiCall _ _ => False
  | _ => True
  end.

(** The value [callable_call] creates before the call for a
    caller-allocated output argument. *)
Definition caller_allocated_value (m : Marshal) (p : Param) : option lua_value :=
  if negb (internal p) && bool_decide (dir p = GI_DIRECTION_OUT) &&
     ai_caller_allocates (ai p)
  then snd <$> lgi_marshal_arg_2c_caller_alloc m (ti p)
  else None.

(** Those values for the Params [ps], in declared order. *)
Definition caller_allocated_values (m : Marshal) (ps : list Param)
  : list lua_value :=
  omap (caller_allocated_value m) ps.

(** An inout argument is not flagged caller-allocates with a type
    [lgi_marshal_arg_2c_caller_alloc] handles. *)
Definition inout_not_caller_allocated (m : Marshal) (p : Param) : Prop :=
  internal p = false -> dir p = GI_DIRECTION_INOUT ->
  ai_caller_allocates (ai p) && caller_alloc_handled m (ti p) = false.

(** The Lua value of the return value: none for a void function. *)
Definition return_values (m : Marshal) (callable : Callable)
    (r : NativeResult) : list lua_value :=
  if bool_decide (ti_tag (ti (retval callable)) = GI_TYPE_TAG_VOID) then []
  else [lgi_marshal_arg_2lua m (ti (retval callable))
          (transfer (retval callable)) (nr_retval r)
          (drop (self_slots callable) (nr_args r))].

(** The Lua values of the visible out and inout arguments, in declared
    order; [i] is the index of the first Param of [ps]. *)
Fixpoint out_values (m : Marshal) (callable : Callable)
    (args : list GIArgument) (i : nat) (ps : list Param) : list lua_value :=
  match ps with
  | [] => []
  | p :: ps' =>
      (if negb (internal p) && negb (bool_decide (dir p = GI_DIRECTION_IN))
       then [ match caller_allocated_value m p with
              | Some v => v
              | None =>
                  lgi_marshal_arg_2lua m (ti p) (transfer p)
                    (default 0 (args !! (i + self_slots callable)%nat))
                    (drop (self_slots callable) args)
              end ]
       else []) ++ out_values m callable args (S i) ps'
  end.

(** The leading result [callable_call] returns with an error. *)
Definition error_leading (rv cas : list lua_value) : lua_value :=
  match rv with
  | [] => LuaBoolean false
  | v :: _ => default v (last cas)
  end.

(** The argument slots [callable_call] hands to the native function. *)
Definition callable_call_args (m : Marshal) (callable : Callable)
    (stack0 : lua_stack) : list GIArgument :=
  match callable_call_prepare m callable stack0 with
  | Some st => cs_args st
  | None => []
  end.

(** The trace grows by marshalling events only. *)
Definition trace_extends (t t' : list Event) : Prop :=
  exists ext, t' = t ++ ext /\ Forall inner_event ext.

(** The stack of [callable_call] while the inputs are marshalled: the
    arguments, the caller-allocated values, the temporaries. *)
Definition in_shape (base cas temps : lua_stack) (st : CallState) : Prop :=
  cs_stack st = base ++ cas ++ temps /\
  cs_nret st = Z.of_nat (length temps) /\
  cs_caller_allocated st = Z.of_nat (length cas).

(** Equal lists up to the bracketing of appends. *)
Ltac list_assoc :=
  repeat first [ rewrite <- app_assoc | rewrite <- app_comm_cons
               | rewrite app_nil_r | rewrite app_nil_l ];
  reflexivity.

(** The stack of [callable_call] while the results are produced: the
    arguments, the results so far, the caller-allocated values not yet
    counted as results. *)
Definition out_shape (base res cas : lua_stack) (st : CallState) : Prop :=
  cs_stack st = base ++ res ++ cas /\
  cs_nret st = Z.of_nat (length res) /\
  cs_caller_allocated st = Z.of_nat (length cas).

(** The results of a call that reports no error: the return value and
    the visible outputs, or [true] alone when the callable throws and
    there is neither. *)
Definition success_results (callable : Callable) (others : list lua_value)
  : list lua_value :=
  if throws callable && bool_decide (others = [])
  then [LuaBoolean true] else others.

(** The results of a call that reports error [e]. *)
Definition error_results (rv cas : list lua_value) (e : GError)
  : list lua_value :=
  [error_leading rv cas; LuaString (err_message e); LuaInteger (err_code e)].

(** One value [closure_callback] hands back to the native caller: the
    event of its marshalling, the slot it goes to ([None]: the return
    slot), the native value, what the marshaller makes of the other
    argument slots, the excess values it left on the Lua stack, and the
    warning printed when there is an excess. *)
Record Output : Type := mkOutput {
  out_event : Event;
  out_slot : option nat;
  out_value : GIArgument;
  out_stores : list GIArgument -> list GIArgument;
  out_excess : list lua_value;
  out_warning : string
}.

(** The return value, read from stack position [npos]: none for void. *)
Definition return_output (m : Marshal) (callable : Callable)
    (s : lua_stack) (npos : Z) : list Output :=
  if bool_decide (ti_tag (ti (retval callable)) = GI_TYPE_TAG_VOID) then []
  else
    let '(val, temps) :=
      lgi_marshal_arg_2c m (ti (retval callable)) None
                         (transfer (retval callable)) (lua_index s npos) in
    [mkOutput EvRet2C None val
              (store_args (self_slots callable)
                 (lgi_marshal_arg_2c_stores m (ti (retval callable)) None
                    (transfer (retval callable)) (lua_index s npos)))
              temps
              (warning_return callable (Z.of_nat (length temps)))].

(** The visible out and inout arguments in declared order, each read
    from the next stack position; [i] is the index of the first Param. *)
Fixpoint param_outputs (m : Marshal) (callable : Callable) (s : lua_stack)
    (i : nat) (ps : list Param) (npos : Z) : list Output :=
  match ps with
  | [] => []
  | p :: ps' =>
      if negb (internal p) && negb (bool_decide (dir p = GI_DIRECTION_IN))
      then
        let '(val, temps) :=
          lgi_marshal_arg_2c m (ti p) (Some (ai p)) (transfer p)
                             (lua_index s npos) in
        mkOutput (EvArg2C i) (Some (i + self_slots callable)%nat) val
                 (store_args (self_slots callable)
                    (lgi_marshal_arg_2c_stores m (ti p) (Some (ai p))
                       (transfer p) (lua_index s npos)))
                 temps
                 (warning_arg callable p (Z.of_nat (length temps)))
        :: param_outputs m callable s (S i) ps' (npos + 1)
      else param_outputs m callable s (S i) ps' npos
  end.

(** All outputs of a trampoline call: the return value first, then the
    arguments. *)
Definition closure_outputs (m : Marshal) (callable : Callable)
    (s : lua_stack) (npos : Z) : list Output :=
  let rets := return_output m callable s npos in
  rets ++ param_outputs m callable s 0 (loop_params callable)
                        (npos + Z.of_nat (length rets)).

(** The events of one output: its marshalling and, for an excess, the
    warning followed by the pop of the excess. *)
Definition output_events (o : Output) : list Event :=
  out_event o ::
  match out_excess o with
  | [] => []
  | _ => [EvWarning (out_warning o);
          EvLuaPop (Z.of_nat (length (out_excess o)))]
  end.

(** The native frame after one output is stored. *)
Definition store_output (f : NativeFrame) (o : Output) : NativeFrame :=
  let args := out_stores o (nf_args f) in
  match out_slot o with
  | None => mkNativeFrame (Some (out_value o)) args (nf_err f)
  | Some slot =>
      mkNativeFrame (nf_ret f) (<[slot := out_value o]> args) (nf_err f)
  end.

(** The types of the targets [lgi_gclosure_create] takes. *)
Definition callable_target (t : lua_type) : bool :=
  bool_decide (t = LUA_TFUNCTION) || bool_decide (t = LUA_TTABLE) ||
  bool_decide (t = LUA_TUSERDATA).

(** Whether the function came back to its caller. *)
Definition returned (o : Outcome) : bool :=
  match o with Returned _ => true | _ => false end.

(** The Param [lgi_callable_create] loads for argument [a], with
    [internal] flag [b]. *)
Definition arg_param (a : GIArgInfo) (b : bool) : Param :=
  mkParam (ai_type a) a (ai_direction a) (ai_ownership_transfer a) b.

(** The fields of a Param other than its [internal] flag. *)
Definition param_fields (p : Param)
  : GITypeInfo * GIArgInfo * GIDirection * GITransfer :=
  (ti p, ai p, dir p, transfer p).

(** The signature [lgi_callable_create] hands to [ffi_prep_cif]: the
    number of arguments, the return type and the argument types. *)
Definition callable_signature (env : CreateEnv) (i : GICallableInfo) : ffi_cif :=
  let is_fun := GI_IS_FUNCTION_INFO i in
  let self :=
    if is_fun then flags_has_self (ci_flags i) else GI_IS_SIGNAL_INFO i in
  let thr := if is_fun then flags_throws (ci_flags i) else false in
  let sz := GLIB_SIZEOF_SIZE_T env in
  mkCif (bool_to_Z self + g_callable_info_get_n_args i + bool_to_Z thr)
        (get_ffi_type sz (mkParam (ci_return_type i) GIArgInfo_unset
                                  GI_DIRECTION_OUT (ci_caller_owns i) false))
        ((if self then [ffi_type_pointer] else []) ++
         ((fun a => param_ffi_arg sz (arg_param a false)) <$> ci_args i) ++
         (if thr then [ffi_type_pointer] else [])).

(** The symbol lookup of [lgi_callable_create]: made for functions
    only; any other callable keeps the address it is given. *)
Definition callable_resolve (env : CreateEnv) (i : GICallableInfo) (addr : Z)
  : option Z :=
  if GI_IS_FUNCTION_INFO i then g_typelib_symbol env (ci_symbol i)
  else Some addr.

(** Whether [ffi_prep_cif] takes the signature of [i]. *)
Definition signature_accepted (env : CreateEnv) (i : GICallableInfo) : bool :=
  let sig := callable_signature env i in
  ffi_prep_cif env (cif_nargs sig) (cif_rtype sig) (cif_arg_types sig).

(** Every cache entry names a Callable block of the state, built for a
    description with the key of the entry. *)
Definition cache_consistent (L : lua_State) : Prop :=
  forall key ud,
    ls_callable_cache L !! key = Some ud ->
    exists c, ls_userdata L !! ud = Some c /\ callable_cache_key (info c) = key.

(** A string without the separator of the cache key. *)
Fixpoint no_colon (s : string) : Prop :=
  match s with
  | EmptyString => True
  | String c s' => c <> ":"%char /\ no_colon s'
  end.

(** A Param that takes a Lua argument: visible, and not "out". *)
Definition visible_input (p : Param) : bool :=
  negb (internal p) && negb (bool_decide (dir p = GI_DIRECTION_OUT)).

(** The argument slots after "Prepare 'self'", read from [base]; the
    other slots hold what the new block held. *)
Definition self_args (m : Marshal) (callable : Callable) (base : lua_stack)
  : list GIArgument :=
  let args :=
    g_newa_args m <$>
    seq 0 (Z.to_nat (nargs callable + bool_to_Z (has_self callable))) in
  if has_self callable then
    <[0%nat :=
        match ci_container_type (info callable) with
        | GI_INFO_TYPE_OBJECT | GI_INFO_TYPE_INTERFACE =>
            lgi_object_2c m (lua_index base 2)
        | _ => lgi_record_2c m (lua_index base 2)
        end]> args
  else args.

(** The argument slots filled from the positions of [base] alone:
    a visible input takes the next position, starting at [lua_argi],
    and its marshaller stores to the slots of its companions; a
    caller-allocated output takes the address of its new value. *)
Fixpoint input_args (m : Marshal) (callable : Callable) (base : lua_stack)
    (i : nat) (ps : list Param) (lua_argi : Z) (args : list GIArgument)
  : list GIArgument :=
  match ps with
  | [] => args
  | p :: ps' =>
      let argi := (i + self_slots callable)%nat in
      if visible_input p then
        let v := lua_index base lua_argi in
        input_args m callable base (S i) ps' (lua_argi + 1)
          (<[argi := (lgi_marshal_arg_2c m (ti p) (Some (ai p))
                        GI_TRANSFER_NOTHING v).1]>
             (store_args (self_slots callable)
                (lgi_marshal_arg_2c_stores m (ti p) (Some (ai p))
                                           GI_TRANSFER_NOTHING v)
                args))
      else
        input_args m callable base (S i) ps' lua_argi
          match caller_allocated_value m p,
                lgi_marshal_arg_2c_caller_alloc m (ti p) with
          | Some _, Some (q, _) => <[argi := q]> args
          | _, _ => args
          end
  end.

(** The Lua state after a series of creations, failed ones included. *)
Definition create_all (env : CreateEnv) (L : lua_State)
    (reqs : list (GICallableInfo * Z)) : lua_State :=
  foldl (fun L r => (lgi_callable_create env L r.1 r.2).2) L reqs.

(** A visible inout argument flagged caller-allocates, of a type
    [lgi_marshal_arg_2c_caller_alloc] handles. *)
Definition inout_caller_allocated (m : Marshal) (p : Param) : bool :=
  negb (internal p) && bool_decide (dir p = GI_DIRECTION_INOUT) &&
  ai_caller_allocates (ai p) && caller_alloc_handled m (ti p).

(** The stack [callback_prepare_call] hands over, below the target: the
    stack of the callback's thread with the thread on top for a
    resume; that stack, or the empty stack of a new thread when the
    thread is suspended, for a call. *)
Definition closure_base (cb : Callback) : lua_stack :=
  if target_ref cb =? LUA_NOREF then cb_stack cb ++ [cb_thread cb]
  else if cb_status cb =? 0 then cb_stack cb else [].

(** Whether the error of the target leaves [closure_callback] as a Lua
    error: only for a callable that does not throw, after a failed call
    or after a resume that failed with LUA_ERRRUN. *)
Definition closure_throws_again (closure : FfiClosure) (status : Z) : bool :=
  negb (throws (closure_callable closure)) &&
  (if target_ref (callback closure) =? LUA_NOREF
   then status =? LUA_ERRRUN
   else negb (status =? 0)).

(** The events of the body of a trampoline call: marshalling, the run
    of the target, warnings and the report of an error; not the mutex,
    not a native call and not the creation of the autodestroy guard. *)
Definition body_event (e : Event) : Prop :=
  match e with
  | EvLock | EvUnlock | EvFfiCall _ _ | EvGuardCreate => False
  | _ => True
  end.


(** The values [lgi_gclosure_marshal] runs the target on: the function
    for a call, then the marshalled parameters. *)
Definition gclosure_input (vm : ValueMarshal) (c : GlibClosure)
    (param_values : list GValue) : lua_stack :=
  (if target_ref (gc_callback c) =? LUA_NOREF then []
   else [cb_target (gc_callback c)]) ++
  (lgi_marshal_val_2lua vm <$> param_values).

(** The link a slot of the free list holds: the next free slot, 0 at
    the end; an absent slot reads as 0. *)
Definition free_link (reg : gmap Z lua_value) (k : Z) : option Z :=
  match reg !! k with
  | None => Some 0
  | Some (LuaInteger n) => Some n
  | Some _ => None
  end.

(** The slots [l] are linked from [h], in this order. *)
Fixpoint free_list (reg : gmap Z lua_value) (h : Z) (l : list Z) : Prop :=
  match l with
  | [] => h = 0
  | k :: l' =>
      h = k /\ exists n, free_link reg k = Some n /\ free_list reg n l'
  end.

(** The registry keeps the free list [l]: the slots linked from key 0,
    each once, all positive. *)
Definition registry_free (reg : gmap Z lua_value) (l : list Z) : Prop :=
  (exists h, free_link reg FREELIST_REF = Some h /\ free_list reg h l) /\
  NoDup l /\ Forall (fun k => 0 < k) l.

(** [lua_objlen] gives a border of the registry: the slot after it is
    empty, and it is 0 or a slot in use. *)
Definition border (r : RefEnv) : Prop :=
  forall reg,
    0 <= lua_objlen r reg /\
    reg !! (lua_objlen r reg + 1) = None /\
    (lua_objlen r reg = 0 \/ is_Some (reg !! lua_objlen r reg)).

(** The registry [reg'] with free list [l'] holds the references that
    [reg] with free list [l] holds, and no other: what was free is free,
    every slot that is not free is as it was, and a slot that has become
    free was empty before. *)
Definition same_references (reg reg' : gmap Z lua_value) (l l' : list Z)
  : Prop :=
  (forall k, k ∈ l -> k ∈ l') /\
  (forall k, k <> 0 -> k ∉ l' -> reg' !! k = reg !! k) /\
  (forall k, k ∈ l' -> k ∉ l -> reg !! k = None).

(** The registry [reg] with free list [l] while the references [T] are
    held on top of those of [reg0] with free list [l0]. *)
Definition holding (reg0 : gmap Z lua_value) (l0 : list Z)
    (reg : gmap Z lua_value) (l : list Z) (T : gset Z) : Prop :=
  registry_free reg l /\
  (forall k, k ∈ T -> 0 < k /\ (k ∉ l) /\ is_Some (reg !! k)) /\
  (forall k, k ∈ l0 -> k ∈ l \/ k ∈ T) /\
  (forall k, k <> 0 -> k ∉ l -> k ∉ T -> reg !! k = reg0 !! k) /\
  (forall k, (k ∈ l \/ k ∈ T) -> k ∉ l0 -> reg0 !! k = None).

(** ** Example inputs *)

Definition ti_int32 : GITypeInfo :=
  mkGITypeInfo GI_TYPE_TAG_INT32 false (GI_INFO_TYPE_other 0) GI_TYPE_TAG_VOID
               GI_ARRAY_TYPE_C (-1).
Definition ti_void : GITypeInfo :=
  mkGITypeInfo GI_TYPE_TAG_VOID false (GI_INFO_TYPE_other 0) GI_TYPE_TAG_VOID
               GI_ARRAY_TYPE_C (-1).
Definition ti_gpointer : GITypeInfo :=
  mkGITypeInfo GI_TYPE_TAG_VOID true (GI_INFO_TYPE_other 0) GI_TYPE_TAG_VOID
               GI_ARRAY_TYPE_C (-1).
Definition ti_struct : GITypeInfo :=
  mkGITypeInfo GI_TYPE_TAG_INTERFACE true GI_INFO_TYPE_STRUCT GI_TYPE_TAG_VOID
               GI_ARRAY_TYPE_C (-1).
Definition ti_callback : GITypeInfo :=
  mkGITypeInfo GI_TYPE_TAG_INTERFACE false GI_INFO_TYPE_CALLBACK
               GI_TYPE_TAG_VOID GI_ARRAY_TYPE_C (-1).

(** An environment in which every symbol resolves and every signature
    compiles. *)
Definition example_env : CreateEnv :=
  mkCreateEnv 8 (fun _ => Some 4096) "" (fun _ _ _ => true) "".

(** An environment in which no symbol resolves. *)
Definition failing_env : CreateEnv :=
  mkCreateEnv 8 (fun _ => None) "undefined symbol" (fun _ _ _ => true) "".

Definition lua_State_empty : lua_State := mkLuaState ∅ [].

(** [void each (gpointer user_data, Callback cb)] with the closure
    annotation of [cb] naming argument 0. *)
Definition info_user_data_first : GICallableInfo :=
  mkGICallableInfo GI_INFO_TYPE_FUNCTION 1 ["Foo"; "."; "each"] "Foo" "each"
    0 "foo_each"
    [ mkGIArgInfo "user_data" ti_gpointer GI_DIRECTION_IN GI_TRANSFER_NOTHING
                  (-1) (-1) false;
      mkGIArgInfo "cb" ti_callback GI_DIRECTION_IN GI_TRANSFER_NOTHING
                  0 (-1) false ]
    ti_void GI_TRANSFER_NOTHING (GI_INFO_TYPE_other 0).

(** [gint32 get (Struct *out) throws], [out] caller-allocated. *)
Definition info_get_throws : GICallableInfo :=
  mkGICallableInfo GI_INFO_TYPE_FUNCTION 1 ["Foo"; "."; "get"] "Foo" "get"
    GI_FUNCTION_THROWS "foo_get"
    [ mkGIArgInfo "out" ti_struct GI_DIRECTION_OUT GI_TRANSFER_NOTHING
                  (-1) (-1) true ]
    ti_int32 GI_TRANSFER_NOTHING (GI_INFO_TYPE_other 0).

(** [void check (gint32 x) throws]. *)
Definition info_check_throws : GICallableInfo :=
  mkGICallableInfo GI_INFO_TYPE_FUNCTION 1 ["Foo"; "."; "check"] "Foo" "check"
    GI_FUNCTION_THROWS "foo_check"
    [ mkGIArgInfo "x" ti_int32 GI_DIRECTION_IN GI_TRANSFER_NOTHING
                  (-1) (-1) false ]
    ti_void GI_TRANSFER_NOTHING (GI_INFO_TYPE_other 0).

(** A callback type returning [gint32] and one returning nothing, both
    without arguments. *)
Definition info_callback_int : GICallableInfo :=
  mkGICallableInfo GI_INFO_TYPE_CALLBACK 2 ["Foo"; "."; "Getter"] "Foo"
    "Getter" 0 "" [] ti_int32 GI_TRANSFER_NOTHING (GI_INFO_TYPE_other 0).
Definition info_callback_void : GICallableInfo :=
  mkGICallableInfo GI_INFO_TYPE_CALLBACK 2 ["Foo"; "."; "Notify"] "Foo"
    "Notify" 0 "" [] ti_void GI_TRANSFER_NOTHING (GI_INFO_TYPE_other 0).

(** The Callable [callable_build] makes in [example_env]. *)
Definition built (i : GICallableInfo) : Callable :=
  match callable_build example_env i 0 with
  | LuaOk c => c
  | LuaError _ =>
      mkCallable i 0 false false 0 (mkCif 0 ffi_type_void []) Param_unset []
  end.

(** Marshalling for the examples: integers pass unchanged; a string
    converts to 0 and leaves one temporary on the stack; struct types
    are caller-allocated as userdata 7 at address 777. *)
Definition example_marshal : Marshal :=
  mkMarshal
    (fun _ _ _ v =>
       match v with
       | LuaInteger n => (n, [])
       | LuaString _ => (0, [LuaUserdata 9])
       | _ => (0, [])
       end)
    (fun _ _ _ _ _ => [])
    (fun t =>
       if bool_decide (ti_interface_type t = GI_INFO_TYPE_STRUCT)
       then Some (777, LuaUserdata 7) else None)
    (fun _ _ v _ => LuaInteger v)
    (fun _ => 1) (fun _ => 2)
    (fun _ => LuaUserdata 1) (fun _ => LuaUserdata 2)
    (fun _ => 0).

(** Marshalling with a companion: as [example_marshal], but the
    marshaller of a C array with a length argument stores 3 there, and
    the slots of a new block hold 100, 101 and so on. *)
Definition companion_marshal : Marshal :=
  mkMarshal
    (lgi_marshal_arg_2c example_marshal)
    (fun t _ _ _ _ =>
       match array_length_arg t with
       | Some l => if 0 <=? l then [(Z.to_nat l, 3)] else []
       | None => []
       end)
    (lgi_marshal_arg_2c_caller_alloc example_marshal)
    (lgi_marshal_arg_2lua example_marshal)
    (lgi_object_2c example_marshal) (lgi_record_2c example_marshal)
    (lgi_object_2lua example_marshal) (lgi_record_2lua example_marshal)
    (fun k => 100 + Z.of_nat k).

(** A native function that reports an error, and one that returns 42. *)
Definition native_fails (_ : Z) (args : list GIArgument) : NativeResult :=
  mkNativeResult 0 args (Some (mkGError "foo-error-quark" 5 "boom")).
Definition native_succeeds (_ : Z) (args : list GIArgument) : NativeResult :=
  mkNativeResult 42 args None.

(** A closure on a Lua function, and one on a coroutine. *)
Definition closure_on_function (i : GICallableInfo) : FfiClosure :=
  mkFfiClosure (built i) (mkCallback 3 (LuaFunction 1) (LuaThread 0) 0 []) false.
Definition closure_on_thread (i : GICallableInfo) : FfiClosure :=
  mkFfiClosure (built i) (mkCallback LUA_NOREF LuaNil (LuaThread 0) 0 []) false.

(** An environment whose repository has no type for G_TYPE_CLOSURE, and
    one that has. *)
Definition closure_env_missing : ClosureEnv :=
  mkClosureEnv "" "closure" 3 (LuaThread 0) (G_TYPE_INVALID, LuaNil)
               (fun _ => LuaUserdata 5).
Definition closure_env_loaded : ClosureEnv :=
  mkClosureEnv "" "closure" 3 (LuaThread 0) (80, LuaTable 1)
               (fun _ => LuaUserdata 5).

(** A forward reference: the array of argument 0 has its length in
    argument 1, the callback of argument 2 its user data in argument 3
    and its destroy notification in argument 4. *)
Definition ti_c_array (len : Z) : GITypeInfo :=
  mkGITypeInfo GI_TYPE_TAG_ARRAY true (GI_INFO_TYPE_other 0) GI_TYPE_TAG_VOID
               GI_ARRAY_TYPE_C len.
Definition info_forward_companions : GICallableInfo :=
  mkGICallableInfo GI_INFO_TYPE_FUNCTION 1 ["Foo"; "."; "visit"] "Foo" "visit"
    0 "foo_visit"
    [ mkGIArgInfo "items" (ti_c_array 1) GI_DIRECTION_IN GI_TRANSFER_NOTHING
                  (-1) (-1) false;
      mkGIArgInfo "n_items" ti_int32 GI_DIRECTION_IN GI_TRANSFER_NOTHING
                  (-1) (-1) false;
      mkGIArgInfo "cb" ti_callback GI_DIRECTION_IN GI_TRANSFER_NOTHING
                  3 4 false;
      mkGIArgInfo "user_data" ti_gpointer GI_DIRECTION_IN GI_TRANSFER_NOTHING
                  (-1) (-1) false;
      mkGIArgInfo "notify" ti_callback GI_DIRECTION_IN GI_TRANSFER_NOTHING
                  (-1) (-1) false ]
    ti_void GI_TRANSFER_NOTHING (GI_INFO_TYPE_other 0).

(** [void fill (Struct *buf)] with [buf] inout and caller-allocated. *)
Definition info_fill_inout : GICallableInfo :=
  mkGICallableInfo GI_INFO_TYPE_FUNCTION 1 ["Foo"; "."; "fill"] "Foo" "fill"
    0 "foo_fill"
    [ mkGIArgInfo "buf" ti_struct GI_DIRECTION_INOUT GI_TRANSFER_NOTHING
                  (-1) (-1) true ]
    ti_void GI_TRANSFER_NOTHING (GI_INFO_TYPE_other 0).

(** [gint32 sum (gint32 a, gint32 b)] as a method of a struct. *)
Definition info_method_sum : GICallableInfo :=
  mkGICallableInfo GI_INFO_TYPE_FUNCTION 1 ["Foo"; "."; "Acc"; "."; "sum"]
    "Foo" "sum" GI_FUNCTION_IS_METHOD "foo_acc_sum"
    [ mkGIArgInfo "a" ti_int32 GI_DIRECTION_IN GI_TRANSFER_NOTHING
                  (-1) (-1) false;
      mkGIArgInfo "b" ti_int32 GI_DIRECTION_IN GI_TRANSFER_NOTHING
                  (-1) (-1) false ]
    ti_int32 GI_TRANSFER_NOTHING GI_INFO_TYPE_STRUCT.


(** Values pass to and from GValues as integers. *)
Definition example_value_marshal : ValueMarshal :=
  mkValueMarshal LuaInteger
                 (fun v => match v with LuaInteger n => n | _ => 0 end).

(** A GClosure on a Lua function, created on a stack holding it. *)
Definition gclosure_on_function : GlibClosure :=
  mkGlibClosure (callback_create [LuaFunction 1] 1 3 (LuaThread 0)).

(** The largest key in use, as the length of the registry. *)
Definition example_objlen (reg : gmap Z lua_value) : Z :=
  map_fold (fun k _ acc => Z.max k acc) 0 reg.

Definition example_refs : RefEnv := mkRefEnv example_objlen (fun _ => 0).

(** An environment for closures in which libffi allocates and prepares
    every closure. *)
Definition example_closure_env : ClosureCreateEnv :=
  mkClosureCreateEnv example_env example_refs true (fun _ => true) 0%nat.

(** One in which libffi prepares no closure. *)
Definition refusing_closure_env : ClosureCreateEnv :=
  mkClosureCreateEnv example_env example_refs true (fun _ => false) 0%nat.

(** One in which [ffi_closure_alloc] returns NULL. *)
Definition exhausted_closure_env : ClosureCreateEnv :=
  mkClosureCreateEnv example_env example_refs false (fun _ => true) 0%nat.

(** A state with the reference 1 in use and the references 2 and 3
    free. *)
Definition example_closure_lua : ClosureLua :=
  mkClosureLua lua_State_empty
    {[ 0 := LuaInteger 3; 1 := LuaTable 0; 3 := LuaInteger 2 ]}.

(** ** Properties *)

(** Membership in a list given by its elements. *)
Ltac elem_of_listed :=
  repeat first [ apply list_elem_of_here | apply list_elem_of_further ].

(** [enumerated_primitives] is the graph of [get_simple_ffi_type]. *)
Lemma get_simple_ffi_type_enumerated sz tag f :
  get_simple_ffi_type sz tag = Some f <-> (tag, f) ∈ enumerated_primitives sz.
Proof.
  unfold enumerated_primitives. split.
  - destruct tag; simpl; intros H; try discriminate;
      try (injection H as <-; elem_of_listed).
    destruct (sz =? 4); injection H as <-; elem_of_listed.
  - intros H.
    repeat (apply elem_of_cons in H as [H|H];
            [ injection H as -> ->; simpl; try reflexivity;
              by destruct (sz =? 4) |]).
    by apply elem_of_nil in H.
Qed.

Lemma get_simple_ffi_type_interface sz : get_simple_ffi_type sz GI_TYPE_TAG_INTERFACE = None.
Proof. reflexivity. Qed.

Lemma get_ffi_type_by_value sz param :
  ti_is_pointer (ti param) = false ->
  get_ffi_type sz param =
    default ffi_type_pointer (get_simple_ffi_type sz (mapped_kind (ti param))).
Proof.
  intros Hp. unfold get_ffi_type, mapped_kind, is_enum_or_flags. rewrite Hp.
  destruct (ti_tag (ti param)) eqn:Ht; simpl; try reflexivity.
  - by destruct (sz =? 4).
  - destruct (ti_interface_type (ti param)); simpl; try reflexivity;
      by destruct (get_simple_ffi_type sz (ti_storage_type (ti param))).
Qed.

(** C3.  The ffi type stored for the slot of a parameter is the pointer
    type when the direction is not "in" or the type is a pointer.  For an
    "in" parameter passed by value it is the libffi primitive of its
    kind when [get_simple_ffi_type] enumerates that kind - the kind of an
    enum or flags type being its storage type - and the pointer type for
    every other kind.  The mapping is a total function, so no kind raises
    an error; array, interface and all unnamed tags are kinds that are not
    enumerated. *)
Theorem param_ffi_arg_mapping (size_t : Z) (param : Param) :
  (dir param <> GI_DIRECTION_IN \/ ti_is_pointer (ti param) = true ->
   param_ffi_arg size_t param = ffi_type_pointer) /\
  (forall f,
     dir param = GI_DIRECTION_IN -> ti_is_pointer (ti param) = false ->
     (mapped_kind (ti param), f) ∈ enumerated_primitives size_t ->
     param_ffi_arg size_t param = f) /\
  (dir param = GI_DIRECTION_IN -> ti_is_pointer (ti param) = false ->
   mapped_kind (ti param) ∉ (enumerated_primitives size_t).*1 ->
   param_ffi_arg size_t param = ffi_type_pointer) /\
  (forall tag,
     In tag [GI_TYPE_TAG_ARRAY; GI_TYPE_TAG_INTERFACE] \/
     (exists c, tag = GI_TYPE_TAG_other c) ->
     tag ∉ (enumerated_primitives size_t).*1).
Proof.
  unfold param_ffi_arg. repeat split.
  - intros [Hd|Hp].
    + by rewrite bool_decide_eq_false_2.
    + case_bool_decide; [|done]. unfold get_ffi_type. by rewrite Hp.
  - intros f Hd Hp Hin. rewrite bool_decide_eq_true_2 by done.
    rewrite get_ffi_type_by_value by done.
    apply get_simple_ffi_type_enumerated in Hin. by rewrite Hin.
  - intros Hd Hp Hnin. rewrite bool_decide_eq_true_2 by done.
    rewrite get_ffi_type_by_value by done.
    destruct (get_simple_ffi_type size_t (mapped_kind (ti param))) as [f|] eqn:E; [|done].
    exfalso. apply Hnin. apply get_simple_ffi_type_enumerated in E.
    apply list_elem_of_fmap. by exists (mapped_kind (ti param), f).
  - intros tag Htag Hin. apply list_elem_of_fmap in Hin as [[t f] [-> Hin]].
    apply get_simple_ffi_type_enumerated in Hin. simpl in *.
    destruct Htag as [[<-|[<-|[]]]|[c ->]]; discriminate.
Qed.

Lemma app_string_assoc (a b c : string) : (a +:+ b) +:+ c = a +:+ (b +:+ c).
Proof.
  induction a as [|x a IH]; [reflexivity|].
  change (String x ((a +:+ b) +:+ c) = String x (a +:+ (b +:+ c))).
  by rewrite IH.
Qed.

Lemma occurs_in_here sub post : occurs_in sub (sub +:+ post).
Proof. by exists "", post. Qed.

Lemma occurs_in_skip pre sub s : occurs_in sub s -> occurs_in sub (pre +:+ s).
Proof.
  intros (a & b & ->). exists (pre +:+ a), b. by rewrite app_string_assoc.
Qed.

Lemma occurs_in_app_l sub s post : occurs_in sub s -> occurs_in sub (s +:+ post).
Proof.
  intros (a & b & ->). exists a, (b +:+ post). by rewrite !app_string_assoc.
Qed.

Lemma occurs_in_end sub : occurs_in sub sub.
Proof.
  exists "", "". change (sub = sub +:+ "").
  induction sub as [|x s IH]; [done|].
  change (String x s = String x (s +:+ "")). by rewrite <- IH.
Qed.

Lemma callable_build_error_names env i addr msg :
  callable_build env i addr = LuaError msg -> occurs_in (type_name i) msg.
Proof.
  unfold callable_build.
  destruct (if GI_IS_FUNCTION_INFO i then _ else _) as [a|].
  - destruct (foldl _ _ _) as [c fa]. destruct (ffi_prep_cif _ _ _ _); [done|].
    intros [= <-]. do 2 apply occurs_in_skip. apply occurs_in_here.
  - intros [= <-]. do 2 apply occurs_in_skip. apply occurs_in_app_l.
    unfold callable_cache_key. do 2 apply occurs_in_skip. apply occurs_in_end.
Qed.

(** [callable_build] fails only when the symbol of a function is not
    found or [ffi_prep_cif] rejects the signature. *)
Lemma callable_build_error_cases env i addr msg :
  callable_build env i addr = LuaError msg ->
  (GI_IS_FUNCTION_INFO i = true /\ g_typelib_symbol env (ci_symbol i) = None) \/
  (exists n r a, ffi_prep_cif env n r a = false).
Proof.
  unfold callable_build.
  destruct (GI_IS_FUNCTION_INFO i) eqn:Hf.
  - destruct (g_typelib_symbol env (ci_symbol i)) eqn:Hs; [|by left].
    destruct (foldl _ _ _) as [c fa].
    destruct (ffi_prep_cif _ _ _ _) eqn:Hp; [done|].
    intros _. right. eauto.
  - destruct (foldl _ _ _) as [c fa].
    destruct (ffi_prep_cif _ _ _ _) eqn:Hp; [done|].
    intros _. right. eauto.
Qed.

(** C4.  Once [lgi_callable_create] has returned a Callable for a
    description, creating one for any description with the same kind code
    and the same qualified name - whatever the address and the
    environment - returns the identical userdata and leaves the Lua state
    as it is: the userdata is the cache entry under the key made of kind
    and name. *)
Theorem lgi_callable_create_cached
    (env env' : CreateEnv) (L L' : lua_State) (i i' : GICallableInfo)
    (addr addr' : Z) (ud : nat) :
  lgi_callable_create env L i addr = (LuaOk ud, L') ->
  ci_type_code i' = ci_type_code i ->
  type_name i' = type_name i ->
  ls_callable_cache L' !! callable_cache_key i = Some ud /\
  lgi_callable_create env' L' i' addr' = (LuaOk ud, L').
Proof.
  intros Hc Hk Hn.
  assert (Hkey : callable_cache_key i' = callable_cache_key i).
  { unfold callable_cache_key. by rewrite Hk, Hn. }
  assert (Hl : ls_callable_cache L' !! callable_cache_key i = Some ud).
  { unfold lgi_callable_create in Hc.
    destruct (ls_callable_cache L !! callable_cache_key i) as [u|] eqn:E.
    - by injection Hc as <- <-.
    - destruct (callable_build env i addr); [|done].
      injection Hc as <- <-. simpl. apply lookup_insert_eq. }
  split; [done|].
  unfold lgi_callable_create. by rewrite Hkey, Hl.
Qed.

(** C8.  When [lgi_callable_create] fails, the Lua state, and with it
    the cache, is unchanged and has no entry under the key of the
    description; the error message contains the qualified name of the
    callable; and the next attempt for the description builds the
    Callable anew, storing it only when that build succeeds. *)
Theorem lgi_callable_create_failure
    (env : CreateEnv) (L L' : lua_State) (i : GICallableInfo) (addr : Z)
    (msg : string) :
  lgi_callable_create env L i addr = (LuaError msg, L') ->
  L' = L /\
  ls_callable_cache L' !! callable_cache_key i = None /\
  occurs_in (type_name i) msg /\
  forall env' addr',
    lgi_callable_create env' L' i addr' =
      match callable_build env' i addr' with
      | LuaError msg' => (LuaError msg', L')
      | LuaOk callable =>
          (LuaOk (length (ls_userdata L')),
           mkLuaState
             (<[callable_cache_key i := length (ls_userdata L')]>
                (ls_callable_cache L'))
             (ls_userdata L' ++ [callable]))
      end.
Proof.
  unfold lgi_callable_create.
  destruct (ls_callable_cache L !! callable_cache_key i) as [u|] eqn:E; [done|].
  destruct (callable_build env i addr) as [c|m] eqn:B; [done|].
  intros [= <- <-]. repeat split; [done| |].
  - by eapply callable_build_error_names.
  - intros env' addr'. by rewrite E.
Qed.

Lemma flags_mark_internal arg c :
  flags (mark_internal arg c) = <[Z.to_nat arg := true]> (flags c).
Proof.
  unfold flags, mark_internal. simpl.
  rewrite list_insert_alter.
  apply list_fmap_alter. by apply Forall_forall.
Qed.

(** Marking as a pointwise disjunction. *)
Lemma insert_true_lookup (l : list bool) (i k : nat) (b : bool) :
  l !! k = Some b ->
  <[i := true]> l !! k = Some (b || bool_decide (i = k)).
Proof.
  intros Hk. destruct (decide (i = k)) as [->|Hne].
  - rewrite list_lookup_insert_eq by (by eapply lookup_lt_Some).
    rewrite bool_decide_eq_true_2 by done. by rewrite orb_true_r.
  - rewrite list_lookup_insert_ne by done.
    rewrite bool_decide_eq_false_2 by done. by rewrite orb_false_r.
Qed.

Lemma same_shape_refl c : same_shape c c.
Proof. by repeat split. Qed.

Lemma same_shape_trans c1 c2 c3 :
  same_shape c1 c2 -> same_shape c2 c3 -> same_shape c1 c3.
Proof. unfold same_shape. intros (? & ? & ?) (? & ? & ?). repeat split; congruence. Qed.

Lemma same_shape_mark_if (cond : bool) arg c :
  same_shape (if cond then mark_internal arg c else c) c.
Proof.
  destruct cond; [|apply same_shape_refl].
  repeat split. simpl. by rewrite length_alter.
Qed.

Lemma same_shape_mark_array_length c t :
  same_shape (callable_mark_array_length c t) c.
Proof.
  unfold callable_mark_array_length.
  destruct (_ && _); [|apply same_shape_refl]. apply same_shape_mark_if.
Qed.

Lemma flags_mark_if (cond : bool) arg c k b :
  flags c !! k = Some b ->
  flags (if cond then mark_internal arg c else c) !! k =
    Some (b || (cond && bool_decide (Z.to_nat arg = k))).
Proof.
  intros Hk. destruct cond; simpl; [|by rewrite orb_false_r].
  rewrite flags_mark_internal. by apply insert_true_lookup.
Qed.

Lemma flags_mark_array_length c t k b :
  flags c !! k = Some b ->
  flags (callable_mark_array_length c t) !! k =
    Some (b || array_marks (nargs c) t k).
Proof.
  intros Hk. unfold callable_mark_array_length, array_marks, array_length_arg.
  destruct (bool_decide _ && bool_decide _); [|by rewrite orb_false_r].
  by apply flags_mark_if.
Qed.

(** One round of the loop keeps the shape of the callable ... *)
Lemma callable_load_arg_shape env n c fa j :
  same_shape (callable_load_arg env n (c, fa) j).1 c.
Proof.
  unfold callable_load_arg.
  destruct (ci_args (info c) !! j) as [a|]; [|apply same_shape_refl].
  destruct (params c !! j) as [old|]; [|apply same_shape_refl].
  simpl. eapply same_shape_trans; [apply same_shape_mark_array_length|].
  eapply same_shape_trans; [apply same_shape_mark_if|].
  eapply same_shape_trans; [apply same_shape_mark_if|].
  repeat split. simpl. by rewrite length_insert.
Qed.

(** ... and ors the flag of argument [k] with what the round marks. *)
Lemma callable_load_arg_flags env n c fa j a k b :
  ci_args (info c) !! j = Some a ->
  (j < length (params c))%nat ->
  flags c !! k = Some b ->
  flags (callable_load_arg env n (c, fa) j).1 !! k =
    Some (b || arg_marks n (nargs c) a k).
Proof.
  intros Ha Hj Hk. unfold callable_load_arg. rewrite Ha.
  destruct (lookup_lt_is_Some_2 _ _ Hj) as [old Hold]. rewrite Hold.
  set (param := mkParam _ _ _ _ _).
  set (c1 := Callable_set_params _ c).
  assert (H1 : flags c1 = flags c).
  { unfold c1, flags. simpl. rewrite list_fmap_insert. simpl.
    apply list_insert_id. rewrite list_lookup_fmap. by rewrite Hold. }
  simpl.
  erewrite flags_mark_array_length; cycle 1.
  { do 2 apply flags_mark_if. rewrite H1. exact Hk. }
  f_equal. unfold arg_marks.
  assert (N : nargs (if (0 <? ai_destroy a) && (ai_destroy a <? n)
                     then mark_internal (ai_destroy a)
                            (if (0 <? ai_closure a) && (ai_closure a <? n)
                             then mark_internal (ai_closure a) c1 else c1)
                     else if (0 <? ai_closure a) && (ai_closure a <? n)
                          then mark_internal (ai_closure a) c1 else c1)
              = nargs c).
  { by do 2 destruct (_ && _). }
  rewrite N. simpl. by rewrite <- !orb_assoc.
Qed.

(** The loop over the first [j] arguments. *)
Lemma callable_load_args_flags env n c0 fa0 j :
  (j <= length (ci_args (info c0)))%nat ->
  length (params c0) = length (ci_args (info c0)) ->
  let c := (foldl (callable_load_arg env n) (c0, fa0) (seq 0 j)).1 in
  same_shape c c0 /\
  forall k b, flags c0 !! k = Some b ->
    flags c !! k =
      Some (b || existsb (fun a => arg_marks n (nargs c0) a k)
                         (take j (ci_args (info c0)))).
Proof.
  intros Hj Hlen. induction j as [|j IH].
  - cbn. split; [apply same_shape_refl|].
    intros k b Hk. by rewrite orb_false_r.
  - rewrite seq_S, foldl_app. cbn [foldl Nat.add].
    destruct IH as (Sh & F); [lia|].
    destruct (foldl _ _ (seq 0 j)) as [c fa] eqn:E. cbn [fst] in Sh, F.
    split.
    + eapply same_shape_trans; [apply callable_load_arg_shape | exact Sh].
    + intros k b Hk. destruct Sh as (N & I & L).
      destruct (lookup_lt_is_Some_2 (ci_args (info c0)) j) as [a Ha]; [lia|].
      erewrite callable_load_arg_flags; cycle 1.
      * rewrite I. exact Ha.
      * lia.
      * by apply F.
      * f_equal. rewrite N. rewrite (take_S_r _ _ a) by done.
        rewrite existsb_app. cbn [existsb]. rewrite orb_false_r. by rewrite orb_assoc.
Qed.

(** The flags of a built callable. *)
Lemma callable_build_internal env i addr c :
  callable_build env i addr = LuaOk c ->
  info c = i /\
  nargs c = g_callable_info_get_n_args i `mod` 64 /\
  length (params c) = length (ci_args i) /\
  forall k, (k < length (ci_args i))%nat ->
    internal <$> params c !! k = Some (marked_internal i k).
Proof.
  unfold callable_build.
  set (n := g_callable_info_get_n_args i).
  destruct (if GI_IS_FUNCTION_INFO i
            then g_typelib_symbol env (ci_symbol i) else Some addr)
    as [a|]; [|done].
  set (self := if GI_IS_FUNCTION_INFO i then _ else _).
  set (thr := if GI_IS_FUNCTION_INFO i then _ else _).
  set (ret := mkParam _ _ _ _ _).
  set (c00 := mkCallable _ _ _ _ _ _ _ _).
  set (c0 := callable_mark_array_length c00 _).
  set (fa0 := if self then _ else _).
  assert (Hn : Z.to_nat n = length (ci_args i)).
  { unfold n, g_callable_info_get_n_args. lia. }
  destruct (same_shape_mark_array_length c00 (ti ret)) as (N0 & I0 & L0).
  fold c0 in N0, I0, L0.
  assert (L00 : length (params c0) = length (ci_args i)).
  { rewrite L0. unfold c00. cbn [params]. by rewrite length_replicate. }
  destruct (callable_load_args_flags env n c0 fa0 (Z.to_nat n)) as (Sh & F).
  { rewrite I0. cbn. lia. }
  { rewrite I0. done. }
  destruct (foldl _ _ _) as [c1 fa1]. cbn [fst] in Sh, F.
  destruct (ffi_prep_cif _ _ _ _); [|done].
  intros [= <-]. cbn [info nargs params]. destruct Sh as (N & I & L).
  split; [done|]. split; [by rewrite N, N0|]. split; [by rewrite L|].
  intros k Hk. rewrite <- list_lookup_fmap.
  change (internal <$> params c1) with (flags c1).
  rewrite (F k (array_marks (n `mod` 64) (ci_return_type i) k)).
  - f_equal. unfold marked_internal. fold n.
    rewrite I0. cbn [info c00]. rewrite Hn, firstn_all. rewrite N0. done.
  - unfold c0. rewrite (flags_mark_array_length c00 (ti ret) k false).
    + done.
    + unfold flags, c00. cbn [params]. rewrite list_lookup_fmap.
      rewrite lookup_replicate_2 by lia. done.
Qed.

(** *** The Lua stack *)

Lemma lua_insert_below (lo hi : lua_stack) (v : lua_value) :
  lua_insert (- Z.of_nat (length hi) - 1) (lo ++ hi ++ [v]) = Some (lo ++ v :: hi).
Proof.
  unfold lua_insert, lua_absindex, lua_gettop.
  rewrite !length_app. cbn [length].
  rewrite (proj2 (Z.ltb_lt _ _)) by lia.
  rewrite andb_true_intro by (split; apply Z.leb_le; lia).
  rewrite (assoc_L (++)), last_snoc.
  replace (length lo + (length hi + 1) - 1)%nat with (length (lo ++ hi))
    by (rewrite length_app; lia).
  rewrite take_app_length.
  replace (Z.to_nat (Z.of_nat (length lo + (length hi + 1)) +
                     (- Z.of_nat (length hi) - 1) + 1 - 1))
    with (length lo) by lia.
  by rewrite take_app_length, drop_app_length.
Qed.

Lemma lua_insert_top (lo : lua_stack) (v : lua_value) :
  lua_insert (- 0 - 1) (lo ++ [v]) = Some (lo ++ [v]).
Proof. apply (lua_insert_below lo [] v). Qed.

Lemma lua_pop_app (lo hi : lua_stack) :
  lua_pop (Z.of_nat (length hi)) (lo ++ hi) = Some lo.
Proof.
  unfold lua_pop, lua_gettop. rewrite length_app.
  rewrite andb_true_intro by (split; apply Z.leb_le; lia).
  f_equal. rewrite Nat2Z.id.
  replace (length lo + length hi - length hi)%nat with (length lo) by lia.
  apply take_app_length.
Qed.

Lemma lua_results_app (lo hi : lua_stack) (n : Z) :
  n = Z.of_nat (length hi) -> lua_results n (lo ++ hi) = hi.
Proof.
  intros ->. unfold lua_results. rewrite length_app, Nat2Z.id.
  replace (length lo + length hi - length hi)%nat with (length lo) by lia.
  apply drop_app_length.
Qed.

(** *** Loops over the Params *)

(** A loop whose rounds keep a relation to the start keeps it. *)
Lemma for_params_preserves {St : Type} (R : St -> St -> Prop)
    (body : nat -> Param -> St -> option St) :
  (forall st, R st st) ->
  (forall a b c, R a b -> R b c -> R a c) ->
  (forall i p st st', body i p st = Some st' -> R st st') ->
  forall ps i st st', for_params body i ps st = Some st' -> R st st'.
Proof.
  intros Hrefl Htrans Hbody ps.
  induction ps as [|p ps IH]; intros i st st' H; simpl in H.
  - injection H as <-. apply Hrefl.
  - destruct (body i p st) as [st1|] eqn:E; [|done].
    eapply Htrans; [by eapply Hbody | by eapply IH].
Qed.

Lemma trace_extends_refl t : trace_extends t t.
Proof. exists []. by rewrite app_nil_r. Qed.

Lemma trace_extends_trans t1 t2 t3 :
  trace_extends t1 t2 -> trace_extends t2 t3 -> trace_extends t1 t3.
Proof.
  intros (e1 & -> & H1) (e2 & -> & H2). exists (e1 ++ e2).
  split; [by rewrite (assoc_L (++))| by apply Forall_app].
Qed.

Lemma trace_extends_snoc t e : inner_event e -> trace_extends t (t ++ [e]).
Proof. intros He. exists [e]. split; [done|]. by constructor. Qed.

Lemma callable_call_in_trace m callable i p st st' :
  callable_call_in m callable i p st = Some st' ->
  trace_extends (cs_trace st) (cs_trace st').
Proof.
  unfold callable_call_in. intros H.
  destruct (internal p); [injection H as <-; apply trace_extends_refl|].
  destruct (negb _).
  - destruct (lgi_marshal_arg_2c _ _ _ _ _) as [val temps].
    injection H as <-. by apply trace_extends_snoc.
  - destruct (ai_caller_allocates _); [|injection H as <-; apply trace_extends_refl].
    destruct (lgi_marshal_arg_2c_caller_alloc _ _) as [[q v]|];
      [|injection H as <-; apply trace_extends_refl].
    destruct (lua_insert _ _); [|done].
    injection H as <-. by apply trace_extends_snoc.
Qed.

Lemma callable_call_out_trace m callable i p st st' :
  callable_call_out m callable i p st = Some st' ->
  trace_extends (cs_trace st) (cs_trace st').
Proof.
  unfold callable_call_out. intros H.
  destruct (negb _ && negb _); [|injection H as <-; apply trace_extends_refl].
  destruct (_ && _); [injection H as <-; apply trace_extends_refl|].
  destruct (lua_insert _ _); [|done].
  injection H as <-. by apply trace_extends_snoc.
Qed.

(** *** The input phase *)

Lemma caller_allocated_values_one m p :
  caller_allocated_values m [p] =
  match caller_allocated_value m p with Some v => [v] | None => [] end.
Proof. unfold caller_allocated_values. cbn. by destruct (caller_allocated_value m p). Qed.

Lemma callable_call_in_shape m callable base i p st cas temps :
  in_shape base cas temps st ->
  exists st' temps',
    callable_call_in m callable i p st = Some st' /\
    in_shape base (cas ++ caller_allocated_values m [p]) (temps ++ temps') st'.
Proof.
  intros (Hs & Hn & Hc). rewrite caller_allocated_values_one.
  unfold callable_call_in, caller_allocated_value.
  destruct (internal p); cbn [negb andb].
  { exists st, []. by rewrite !app_nil_r. }
  case_bool_decide as Hd; cbn [negb andb].
  - destruct (ai_caller_allocates (ai p)).
    + destruct (lgi_marshal_arg_2c_caller_alloc m (ti p)) as [[q v]|]; cbn.
      * rewrite Hs, Hn. rewrite <- !(assoc_L (++)).
        rewrite (assoc_L (++) base cas), lua_insert_below.
        eexists _, []. split; [reflexivity|].
        repeat split; cbn.
        -- by rewrite app_nil_r, <- !(assoc_L (++)).
        -- by rewrite app_nil_r.
        -- rewrite Hc, length_app. cbn. lia.
      * exists st, []. by rewrite !app_nil_r.
    + exists st, []. by rewrite !app_nil_r.
  - destruct (lgi_marshal_arg_2c _ _ _ _ _) as [val temps'].
    eexists _, temps'. split; [reflexivity|].
    repeat split; cbn.
    + by rewrite Hs, app_nil_r, <- !(assoc_L (++)).
    + rewrite Hn, length_app. lia.
    + by rewrite app_nil_r.
Qed.

Lemma caller_allocated_values_cons m p ps :
  caller_allocated_values m (p :: ps) =
  caller_allocated_values m [p] ++ caller_allocated_values m ps.
Proof.
  unfold caller_allocated_values. cbn.
  by destruct (caller_allocated_value m p).
Qed.

Lemma callable_call_in_loop m callable base ps :
  forall i st cas temps,
    in_shape base cas temps st ->
    exists st' temps',
      for_params (callable_call_in m callable) i ps st = Some st' /\
      in_shape base (cas ++ caller_allocated_values m ps) (temps ++ temps') st'.
Proof.
  induction ps as [|p ps IH]; intros i st cas temps Hsh.
  - exists st, []. unfold caller_allocated_values. cbn. by rewrite !app_nil_r.
  - destruct (callable_call_in_shape m callable base i p st cas temps Hsh)
      as (st1 & t1 & H1 & Sh1).
    destruct (IH (S i) st1 _ _ Sh1) as (st2 & t2 & H2 & Sh2).
    exists st2, (t1 ++ t2). cbn [for_params]. rewrite H1. split; [done|].
    by rewrite caller_allocated_values_cons, !(assoc_L (++)).
Qed.

(** The input phase always gets to the native call. *)
Lemma callable_call_prepare_shape m callable stack0 :
  exists st temps,
    callable_call_prepare m callable stack0 = Some st /\
    in_shape (lua_settop
                (bool_to_Z (has_self callable) + nargs callable + 1) stack0)
             (caller_allocated_values m (loop_params callable)) temps st /\
    Forall inner_event (cs_trace st).
Proof.
  unfold callable_call_prepare.
  set (base := lua_settop _ _).
  set (st0 := mkCallState _ _ _ _ _ _).
  assert (Sh0 : in_shape base [] [] (callable_call_self m callable st0)).
  { unfold in_shape, callable_call_self, st0.
    destruct (has_self callable); cbn [cs_stack cs_nret cs_caller_allocated length];
      by rewrite !app_nil_r. }
  destruct (callable_call_in_loop m callable base (loop_params callable)
              0%nat _ [] [] Sh0) as (st & temps & H & Sh).
  exists st, temps. split; [done|]. split; [done|].
  assert (T0 : Forall inner_event (cs_trace (callable_call_self m callable st0))).
  { unfold callable_call_self, st0. destruct (has_self callable); cbn; repeat constructor. }
  assert (T : trace_extends (cs_trace (callable_call_self m callable st0)) (cs_trace st)).
  { revert H. apply (for_params_preserves (fun a b => trace_extends (cs_trace a) (cs_trace b))).
    - intros; apply trace_extends_refl.
    - intros a b c; apply trace_extends_trans.
    - apply callable_call_in_trace. }
  destruct T as (ext & -> & Hext). by apply Forall_app.
Qed.

(** *** The output phase *)

Lemma callable_call_retval_shape m callable r base cas st :
  out_shape base [] cas st ->
  cs_args st = nr_args r ->
  exists st',
    callable_call_retval m callable r st = Some st' /\
    out_shape base (return_values m callable r) cas st' /\
    cs_args st' = nr_args r /\
    trace_extends (cs_trace st) (cs_trace st').
Proof.
  intros (Hs & Hn & Hc) Ha. unfold callable_call_retval, return_values.
  case_bool_decide.
  - exists st. repeat split; try done. apply trace_extends_refl.
  - rewrite Hs, Hc, Ha. cbn [app]. rewrite <- (assoc_L (++)), lua_insert_below.
    eexists. split; [reflexivity|]. repeat split; cbn; try done.
    + rewrite Hn. done.
    + by apply trace_extends_snoc.
Qed.

Lemma lua_results_error (base rv cas s : lua_stack) (nret : Z) (a b : lua_value) :
  (length rv <= 1)%nat ->
  s = base ++ rv ++ cas ->
  nret = Z.of_nat (length rv) ->
  (let '(s', n) :=
     if nret =? 0 then (s ++ [LuaBoolean false], 1) else (s, nret) in
   lua_results (n + 2) (s' ++ [a; b])) = [error_leading rv cas; a; b].
Proof.
  intros Hrv -> ->. destruct rv as [|v [|? ?]]; cbn in Hrv; [| |lia].
  - change (Z.of_nat (length []) =? 0) with true. cbv beta iota. cbn [app error_leading].
    replace (((base ++ cas) ++ [LuaBoolean false]) ++ [a; b])
      with ((base ++ cas) ++ [LuaBoolean false; a; b])
      by list_assoc.
    by apply lua_results_app.
  - change (Z.of_nat (length [v]) =? 0) with false. cbv beta iota. cbn [app error_leading length].
    destruct (last cas) as [l|] eqn:El; cbn [default].
    + apply last_Some in El as [cas' ->].
      replace ((base ++ v :: cas' ++ [l]) ++ [a; b])
        with ((base ++ v :: cas') ++ [l; a; b])
        by list_assoc.
      by apply lua_results_app.
    + apply last_None in El as ->.
      replace ((base ++ [v]) ++ [a; b]) with (base ++ [v; a; b])
        by list_assoc.
      by apply lua_results_app.
Qed.

Lemma return_values_length m callable r :
  (length (return_values m callable r) <= 1)%nat.
Proof. unfold return_values. case_bool_decide; cbn; lia. Qed.

Lemma caller_allocated_value_hidden m p :
  negb (internal p) && negb (bool_decide (dir p = GI_DIRECTION_IN)) = false ->
  caller_allocated_value m p = None.
Proof.
  unfold caller_allocated_value. destruct (internal p); [done|].
  destruct (dir p); cbn; try done.
Qed.

Lemma caller_allocated_value_unhandled m p :
  ai_caller_allocates (ai p) && caller_alloc_handled m (ti p) = false ->
  caller_allocated_value m p = None.
Proof.
  unfold caller_allocated_value, caller_alloc_handled.
  destruct (negb _ && bool_decide _); [|done].
  destruct (ai_caller_allocates (ai p)); [|done].
  by destruct (lgi_marshal_arg_2c_caller_alloc m (ti p)).
Qed.

Lemma caller_allocated_value_handled m p :
  inout_not_caller_allocated m p ->
  negb (internal p) && negb (bool_decide (dir p = GI_DIRECTION_IN)) = true ->
  ai_caller_allocates (ai p) && caller_alloc_handled m (ti p) = true ->
  exists v, caller_allocated_value m p = Some v.
Proof.
  unfold inout_not_caller_allocated, caller_allocated_value, caller_alloc_handled.
  intros Hwf Hv Hh. destruct (internal p); [done|].
  destruct (dir p); cbn in *; try done.
  - destruct (ai_caller_allocates (ai p)); [|done].
    destruct (lgi_marshal_arg_2c_caller_alloc m (ti p)) as [[q v]|]; [|done].
    by exists v.
  - rewrite Hwf in Hh; done.
Qed.

Lemma callable_call_out_shape m callable base i p st res cas :
  inout_not_caller_allocated m p ->
  out_shape base res (caller_allocated_values m [p] ++ cas) st ->
  exists st',
    callable_call_out m callable i p st = Some st' /\
    out_shape base (res ++ out_values m callable (cs_args st) i [p]) cas st' /\
    cs_args st' = cs_args st /\
    trace_extends (cs_trace st) (cs_trace st').
Proof.
  intros Hwf (Hs & Hn & Hc). revert Hs Hc.
  rewrite caller_allocated_values_one. unfold out_values, callable_call_out.
  destruct (negb (internal p) && negb (bool_decide (dir p = GI_DIRECTION_IN)))
    eqn:Hvis.
  - destruct (ai_caller_allocates (ai p) && caller_alloc_handled m (ti p))
      eqn:Hh.
    + destruct (caller_allocated_value_handled m p Hwf Hvis Hh) as [v ->].
      intros Hs Hc. eexists. split; [reflexivity|].
      split; [|split; [done|apply trace_extends_refl]].
      repeat split; cbn [cs_stack cs_nret cs_caller_allocated].
      * rewrite Hs. list_assoc.
      * rewrite Hn, !length_app. cbn. lia.
      * rewrite Hc, length_app. cbn. lia.
    + rewrite (caller_allocated_value_unhandled m p Hh). cbn [app].
      intros Hs Hc. rewrite Hs, Hc.
      rewrite (assoc_L (++) base res), <- (assoc_L (++)), lua_insert_below.
      eexists. split; [reflexivity|].
      split; [|split; [done|by apply trace_extends_snoc]].
      repeat split; cbn [cs_stack cs_nret cs_caller_allocated].
      * list_assoc.
      * rewrite Hn, !length_app. cbn. lia.
  - rewrite (caller_allocated_value_hidden m p Hvis). cbn [app].
    intros Hs Hc. exists st.
    split; [done|]. split; [|split; [done|apply trace_extends_refl]].
    unfold out_shape. rewrite !app_nil_r. done.
Qed.

Lemma out_values_cons m callable args i p ps :
  out_values m callable args i (p :: ps) =
  out_values m callable args i [p] ++ out_values m callable args (S i) ps.
Proof. cbn [out_values]. by rewrite app_nil_r. Qed.

Lemma callable_call_out_loop m callable base ps :
  forall i st res,
    Forall (inout_not_caller_allocated m) ps ->
    out_shape base res (caller_allocated_values m ps) st ->
    exists st',
      for_params (callable_call_out m callable) i ps st = Some st' /\
      out_shape base (res ++ out_values m callable (cs_args st) i ps) [] st' /\
      cs_args st' = cs_args st /\
      trace_extends (cs_trace st) (cs_trace st').
Proof.
  induction ps as [|p ps IH]; intros i st res Hwf Hsh.
  - exists st. cbn [for_params out_values]. rewrite app_nil_r.
    split; [done|]. split; [done|]. split; [done|apply trace_extends_refl].
  - apply Forall_cons in Hwf as [Hp Hps].
    rewrite caller_allocated_values_cons in Hsh.
    destruct (callable_call_out_shape m callable base i p st res _ Hp Hsh)
      as (st1 & H1 & Sh1 & A1 & T1).
    destruct (IH (S i) st1 _ Hps Sh1) as (st2 & H2 & Sh2 & A2 & T2).
    exists st2. cbn [for_params]. rewrite H1. split; [done|].
    rewrite A1 in Sh2. rewrite out_values_cons, (assoc_L (++)).
    split; [done|]. split; [congruence|].
    by eapply trace_extends_trans.
Qed.

Lemma callable_call_finish_trace m callable r err st :
  trace_extends (cs_trace st) (callable_call_finish m callable r err st).1.
Proof.
  unfold callable_call_finish.
  destruct (callable_call_retval m callable r st) as [st1|] eqn:E1;
    [|apply trace_extends_refl].
  assert (T1 : trace_extends (cs_trace st) (cs_trace st1)).
  { revert E1. unfold callable_call_retval. case_bool_decide.
    - intros [= <-]. apply trace_extends_refl.
    - destruct (lua_insert _ _); [|done]. intros [= <-].
      by apply trace_extends_snoc. }
  destruct err as [e|].
  - destruct (cs_nret st1 =? 0); exact T1.
  - destruct (for_params _ _ _ _) as [st2|] eqn:E2; [|exact T1].
    assert (T2 : trace_extends (cs_trace st1) (cs_trace st2)).
    { revert E2. apply (for_params_preserves
        (fun a b => trace_extends (cs_trace a) (cs_trace b))).
      - intros; apply trace_extends_refl.
      - intros a b c; apply trace_extends_trans.
      - apply callable_call_out_trace. }
    destruct (_ && _); destruct (_ =? 0); by eapply trace_extends_trans.
Qed.

Lemma callable_call_finish_error m callable r e base cas st :
  out_shape base [] cas st ->
  cs_args st = nr_args r ->
  (callable_call_finish m callable r (Some e) st).2 =
    Returned (error_results (return_values m callable r) cas e).
Proof.
  intros Hsh Ha. unfold callable_call_finish.
  destruct (callable_call_retval_shape m callable r base cas st Hsh Ha)
    as (st1 & -> & (Hs & Hn & Hc) & _ & _).
  pose proof (lua_results_error base (return_values m callable r) cas
                (cs_stack st1) (cs_nret st1)
                (LuaString (err_message e)) (LuaInteger (err_code e))
                (return_values_length m callable r) Hs Hn) as H.
  destruct (cs_nret st1 =? 0); cbn [snd]; by rewrite H.
Qed.

Lemma callable_call_finish_success m callable r base st :
  Forall (inout_not_caller_allocated m) (loop_params callable) ->
  out_shape base [] (caller_allocated_values m (loop_params callable)) st ->
  cs_args st = nr_args r ->
  (callable_call_finish m callable r None st).2 =
    Returned (success_results callable
                (return_values m callable r ++
                 out_values m callable (nr_args r) 0 (loop_params callable))).
Proof.
  intros Hwf Hsh Ha. unfold callable_call_finish.
  destruct (callable_call_retval_shape m callable r base _ st Hsh Ha)
    as (st1 & -> & Sh1 & A1 & _).
  destruct (callable_call_out_loop m callable base (loop_params callable)
              0%nat st1 _ Hwf Sh1) as (st2 & -> & (Hs & Hn & Hc) & A2 & _).
  rewrite A1 in Hs, Hn.
  set (others := return_values m callable r ++ _) in *.
  rewrite app_nil_r in Hs. cbn [length] in Hc.
  unfold success_results. rewrite Hc. change (Z.of_nat 0 =? 0) with true.
  rewrite Hn. destruct others as [|v others'] eqn:Eo.
  - change (Z.of_nat (length []) =? 0) with true.
    destruct (throws callable); cbn.
    + rewrite Hs. f_equal. by apply lua_results_app.
    + rewrite Hs. f_equal. by apply lua_results_app.
  - replace (Z.of_nat (length (v :: others')) =? 0) with false
      by (symmetry; apply Z.eqb_neq; cbn [length]; lia).
    rewrite andb_false_l. rewrite bool_decide_eq_false_2 by done.
    rewrite andb_false_r. cbn [snd]. rewrite Hs. f_equal.
    by apply lua_results_app.
Qed.

(** With a signature that does not fit the argument block the call is
    undefined once the mutex is released. *)
Lemma callable_call_inconsistent m native callable stack0 :
  plan_consistent callable = false ->
  exists pre,
    callable_call m native callable stack0 = (pre ++ [EvUnlock], Undefined) /\
    Forall inner_event pre.
Proof.
  intros Hpc.
  destruct (callable_call_prepare_shape m callable stack0)
    as (st & temps & Hp & _ & Ht).
  exists (cs_trace st). unfold callable_call. by rewrite Hp, Hpc.
Qed.

(** The state in which [callable_call] enters its last part. *)
Lemma callable_call_unfold m native callable stack0 :
  plan_consistent callable = true ->
  exists st base,
    callable_call_prepare m callable stack0 = Some st /\
    Forall inner_event (cs_trace st) /\
    let r := native (address callable) (cs_args st) in
    let st' :=
      mkCallState (base ++ caller_allocated_values m (loop_params callable))
                  (nr_args r) (cs_lua_argi st) 0
                  (cs_caller_allocated st)
                  (cs_trace st ++
                   [EvUnlock; EvFfiCall (address callable) (cs_args st); EvLock]) in
    callable_call m native callable stack0 =
      callable_call_finish m callable r (callable_call_err callable r) st' /\
    out_shape base [] (caller_allocated_values m (loop_params callable)) st'.
Proof.
  intros Hpc.
  destruct (callable_call_prepare_shape m callable stack0)
    as (st & temps & Hp & (Hs & Hn & Hc) & Ht).
  exists st, (lua_settop (bool_to_Z (has_self callable) + nargs callable + 1) stack0).
  split; [done|]. split; [done|]. cbn zeta.
  unfold callable_call. rewrite Hp, Hpc, Hs, Hn. cbn [negb].
  rewrite (assoc_L (++)), lua_pop_app. split; [done|].
  repeat split; cbn; done.
Qed.

(** *** The trace of [closure_callback] *)

Lemma closure_drop_excess_spec msg (temps s : lua_stack) trace :
  closure_drop_excess msg (Z.of_nat (length temps)) (s ++ temps) trace =
    Some (s, trace ++ match temps with
                      | [] => []
                      | _ => [EvWarning msg; EvLuaPop (Z.of_nat (length temps))]
                      end).
Proof.
  unfold closure_drop_excess. destruct temps as [|t temps].
  - cbn. by rewrite !app_nil_r.
  - replace (Z.of_nat (length (t :: temps)) =? 0) with false
      by (symmetry; apply Z.eqb_neq; cbn [length]; lia).
    by rewrite lua_pop_app.
Qed.

Lemma closure_callback_retval_spec m callable st :
  closure_callback_retval m callable st =
    Some (let outs := return_output m callable (st_stack st) (st_npos st) in
          mkClosureState (st_stack st)
            (st_npos st + Z.of_nat (length outs))
            (foldl store_output (st_frame st) outs)
            (st_trace st ++ concat (output_events <$> outs))).
Proof.
  unfold closure_callback_retval, return_output. case_bool_decide.
  - cbn. rewrite Z.add_0_r, app_nil_r. by destruct st.
  - destruct (lgi_marshal_arg_2c _ _ _ _ _) as [val temps].
    rewrite closure_drop_excess_spec. cbn. f_equal. f_equal.
    rewrite <- (assoc_L (++)). f_equal. cbn. unfold output_events. cbn.
    by rewrite app_nil_r.
Qed.

Lemma closure_callback_out_loop m callable ps :
  forall i st,
    for_params (closure_callback_out m callable) i ps st =
      Some (let outs := param_outputs m callable (st_stack st) i ps (st_npos st) in
            mkClosureState (st_stack st)
              (st_npos st + Z.of_nat (length outs))
              (foldl store_output (st_frame st) outs)
              (st_trace st ++ concat (output_events <$> outs))).
Proof.
  induction ps as [|p ps IH]; intros i st.
  - cbn. rewrite Z.add_0_r, app_nil_r. by destruct st.
  - cbn [for_params param_outputs]. unfold closure_callback_out at 1.
    destruct (negb (internal p) && negb (bool_decide (dir p = GI_DIRECTION_IN))).
    + destruct (lgi_marshal_arg_2c _ _ _ _ _) as [val temps].
      rewrite closure_drop_excess_spec. rewrite IH. cbn. f_equal. f_equal.
      * lia.
      * list_assoc.
    + by rewrite IH.
Qed.

(** With a result of 0 the outputs are marshalled in declared order,
    whatever excess the marshaller leaves, and the stack is as the target
    left it. *)
Lemma closure_callback_marshal_outputs m callable st :
  closure_callback_marshal m callable 0 st =
    Some (let outs := closure_outputs m callable (st_stack st) (st_npos st) in
          mkClosureState (st_stack st)
            (st_npos st + Z.of_nat (length outs))
            (foldl store_output (st_frame st) outs)
            (st_trace st ++ concat (output_events <$> outs))).
Proof.
  unfold closure_callback_marshal. change (0 =? 0) with true. cbv iota.
  rewrite closure_callback_retval_spec. cbv zeta.
  rewrite closure_callback_out_loop. cbn [st_stack st_npos st_frame st_trace].
  unfold closure_outputs. cbv zeta. f_equal. f_equal.
  - rewrite length_app. lia.
  - by rewrite foldl_app.
  - rewrite fmap_app, concat_app. by rewrite (assoc_L (++)).
Qed.









(** *** Results of [callable_call] *)

Lemma callable_call_error_results m native callable stack0 e :
  let r := native (address callable) (callable_call_args m callable stack0) in
  plan_consistent callable = true ->
  callable_call_err callable r = Some e ->
  (callable_call m native callable stack0).2 =
    Returned (error_results (return_values m callable r)
                (caller_allocated_values m (loop_params callable)) e).
Proof.
  cbv zeta. unfold callable_call_args. intros Hpc.
  destruct (callable_call_unfold m native callable stack0 Hpc)
    as (st & base & Hp & _ & Hc & Hsh).
  rewrite Hp, Hc. intros ->.
  by apply (callable_call_finish_error m callable _ e base).
Qed.

Lemma callable_call_success_results m native callable stack0 :
  let r := native (address callable) (callable_call_args m callable stack0) in
  plan_consistent callable = true ->
  Forall (inout_not_caller_allocated m) (loop_params callable) ->
  callable_call_err callable r = None ->
  (callable_call m native callable stack0).2 =
    Returned (success_results callable
                (return_values m callable r ++
                 out_values m callable (nr_args r) 0 (loop_params callable))).
Proof.
  cbv zeta. unfold callable_call_args. intros Hpc.
  destruct (callable_call_unfold m native callable stack0 Hpc)
    as (st & base & Hp & _ & Hc & Hsh).
  rewrite Hp, Hc. intros Hwf ->.
  by apply (callable_call_finish_success m callable _ base).
Qed.

(** Without caller-allocated outputs the error results are the return
    value, or [false] for a void function, then message and code. *)
Lemma callable_call_error_plain m native callable stack0 e :
  let r := native (address callable) (callable_call_args m callable stack0) in
  plan_consistent callable = true ->
  callable_call_err callable r = Some e ->
  caller_allocated_values m (loop_params callable) = [] ->
  (callable_call m native callable stack0).2 =
    Returned (match return_values m callable r with
              | [] => LuaBoolean false
              | v :: _ => v
              end :: [LuaString (err_message e); LuaInteger (err_code e)]).
Proof.
  cbv zeta. intros Hpc He Hcas.
  rewrite (callable_call_error_results m native callable stack0 e Hpc He), Hcas.
  unfold error_results, error_leading.
  by destruct (return_values _ _ _).
Qed.

(** C7.  For a callable whose signature fits its argument block and
    none of whose visible inout arguments is caller-allocated (with one,
    [callable_call] ends in its final assertion), the call returns.  When
    the callable throws and the native function has stored an error, it
    returns the error results, which have no synthetic [true].  In every
    other case it returns the return value and the visible out and inout
    arguments, with a synthetic [true] put before them exactly when the
    callable throws and there is none of them. *)
Theorem callable_call_synthetic_true
    (m : Marshal) (native : Z -> list GIArgument -> NativeResult)
    (callable : Callable) (stack0 : lua_stack) :
  plan_consistent callable = true ->
  Forall (inout_not_caller_allocated m) (loop_params callable) ->
  let r := native (address callable) (callable_call_args m callable stack0) in
  let others :=
    return_values m callable r ++
    out_values m callable (nr_args r) 0 (loop_params callable) in
  (callable_call m native callable stack0).2 =
    Returned
      match nr_err r with
      | Some e =>
          if throws callable
          then error_results (return_values m callable r)
                 (caller_allocated_values m (loop_params callable)) e
          else others
      | None =>
          if throws callable && bool_decide (others = [])
          then LuaBoolean true :: others
          else others
      end.
Proof.
  intros Hpc Hwf r others.
  destruct (callable_call_err callable r) as [e|] eqn:He.
  - rewrite (callable_call_error_results m native callable stack0 e Hpc He).
    fold r. revert He. unfold callable_call_err.
    destruct (throws callable); [|done]. by intros ->.
  - rewrite (callable_call_success_results m native callable stack0 Hpc Hwf He).
    unfold success_results. fold r. fold others.
    revert He. unfold callable_call_err.
    destruct (throws callable); cbn [andb].
    + intros ->. case_bool_decide as Ho; [|done]. by rewrite Ho.
    + intros _. by destruct (nr_err r).
Qed.

(** A throwing function without return value and outputs returns
    [true] when the native function stores no error. *)
Lemma callable_call_synthetic_true_witness :
  (callable_call example_marshal native_succeeds (built info_check_throws)
                 [LuaUserdata 0; LuaInteger 3]).2 =
  Returned [LuaBoolean true].
Proof.
  apply (callable_call_synthetic_true example_marshal native_succeeds
           (built info_check_throws) [LuaUserdata 0; LuaInteger 3]).
  - reflexivity.
  - repeat constructor.
Defined.

(** *** The mutex *)

Lemma callable_call_trace m native callable stack0 :
  plan_consistent callable = true ->
  exists pre post,
    (callable_call m native callable stack0).1 =
      pre ++ [EvUnlock;
              EvFfiCall (address callable) (callable_call_args m callable stack0);
              EvLock] ++ post /\
    Forall inner_event pre /\ Forall inner_event post.
Proof.
  unfold callable_call_args. intros Hpc.
  destruct (callable_call_unfold m native callable stack0 Hpc)
    as (st & base & Hp & Hpre & Hc & _).
  rewrite Hp, Hc.
  destruct (callable_call_finish_trace m callable
              (native (address callable) (cs_args st))
              (callable_call_err callable (native (address callable) (cs_args st)))
              (mkCallState (base ++ caller_allocated_values m (loop_params callable))
                 (nr_args (native (address callable) (cs_args st)))
                 (cs_lua_argi st) 0 (cs_caller_allocated st)
                 (cs_trace st ++
                  [EvUnlock; EvFfiCall (address callable) (cs_args st); EvLock])))
    as (post & E & Hpost).
  exists (cs_trace st), post. rewrite E. cbn [cs_trace].
  split; [by rewrite <- (assoc_L (++))|done].
Qed.

(** *** Outputs of a trampoline call *)

(** C9.  In a trampoline call whose target came back without error,
    every output is marshalled in declared order - the return value, then
    the visible out and inout arguments - each from the next result of
    the target, whatever excess the marshaller leaves on the Lua stack
    (so also for transfer none); an excess is followed by the warning
    and by the pop of exactly these values; the native frame receives
    every output; and the function returns to its caller. *)
Theorem closure_callback_excess_discarded
    (m : Marshal) (lua_run : lua_stack -> Z * lua_stack)
    (closure : FfiClosure) (args : list GIArgument)
    (st st1 : ClosureState) :
  closure_callback_enter m closure args = inr st ->
  closure_callback_invoke lua_run closure st = inr (0, st1) ->
  let callable := closure_callable closure in
  let outs := closure_outputs m callable (st_stack st1) (st_npos st1) in
  let guard := if autodestroy closure then [EvGuardCreate] else [] in
  let run := closure_callback m lua_run closure args in
  run_outcome run = Returned [] /\
  run_frame run = foldl store_output (st_frame st1) outs /\
  run_trace run =
    st_trace st1 ++ concat (output_events <$> outs) ++ guard ++ [EvUnlock] /\
  run_stack run =
    lua_settop (closure_stacktop closure)
      (st_stack st1 ++ if autodestroy closure then [LuaUserdata 0] else []).
Proof.
  intros He Hi. cbv zeta. unfold closure_callback. rewrite He, Hi.
  rewrite closure_callback_marshal_outputs. cbv zeta.
  unfold closure_callback_leave. cbn [st_stack st_trace st_frame].
  destruct (autodestroy closure); cbn [run_outcome run_frame run_trace run_stack].
  - repeat split; [list_assoc].
  - repeat split; [list_assoc | by rewrite app_nil_r].
Qed.

(** A callback returning an integer whose target returns a string: the
    marshaller leaves one temporary, which is warned about and popped. *)
Lemma closure_callback_excess_discarded_witness :
  let run :=
    closure_callback example_marshal (fun _ => (0, [LuaString "five"]))
                     (closure_on_function info_callback_int) [] in
  run_outcome run = Returned [] /\
  run_frame run = mkNativeFrame (Some 0) [] None /\
  run_trace run =
    [EvLock; EvLuaCall 0; EvRet2C;
     EvWarning "cbk `Foo.Getter': return (transfer none) 1, unsafe!";
     EvLuaPop 1; EvUnlock] /\
  run_stack run = [].
Proof.
  apply (closure_callback_excess_discarded example_marshal
           (fun _ => (0, [LuaString "five"]))
           (closure_on_function info_callback_int) []
           (mkClosureState [LuaFunction 1] 0 (mkNativeFrame None [] None)
                           [EvLock])
           (mkClosureState [LuaString "five"] 1 (mkNativeFrame None [] None)
                           [EvLock; EvLuaCall 0]));
    vm_compute; reflexivity.
Defined.

(** *** Resuming a coroutine *)

(** A resume that yields runs as one that returns. *)
Lemma resume_yield_as_return m lua_run lua_run' closure args :
  target_ref (callback closure) = LUA_NOREF ->
  (forall s, (lua_run s).2 = (lua_run' s).2 /\
             (lua_run s).1 = LUA_YIELD /\ (lua_run' s).1 = 0) ->
  closure_callback m lua_run closure args =
  closure_callback m lua_run' closure args.
Proof.
  intros Ht Hrun. unfold closure_callback.
  destruct (closure_callback_enter m closure args) as [run|st]; [done|].
  assert (E : closure_callback_invoke lua_run closure st =
              closure_callback_invoke lua_run' closure st).
  { unfold closure_callback_invoke, callback_prepare_call. rewrite Ht.
    change (negb (LUA_NOREF =? LUA_NOREF)) with false. cbv iota. cbn [snd].
    destruct (Hrun (drop (Z.to_nat (closure_stacktop closure)) (st_stack st)))
      as (Hv & H1 & H2).
    destruct (lua_run _) as [s1 v1], (lua_run' _) as [s2 v2]. cbn in *.
    by subst. }
  by rewrite E.
Qed.

(** A resume that fails with LUA_ERRRUN is thrown again when the
    callable does not throw. *)
Lemma resume_error_thrown m lua_run closure args st vals :
  target_ref (callback closure) = LUA_NOREF ->
  throws (closure_callable closure) = false ->
  closure_callback_enter m closure args = inr st ->
  lua_run (drop (Z.to_nat (closure_stacktop closure)) (st_stack st)) =
    (LUA_ERRRUN, vals) ->
  run_outcome (closure_callback m lua_run closure args) =
    Raised (lua_index (take (Z.to_nat (closure_stacktop closure)) (st_stack st)
                       ++ vals) (-1)).
Proof.
  intros Ht Hthr He Hrun. unfold closure_callback. rewrite He.
  unfold closure_callback_invoke, callback_prepare_call. rewrite Ht.
  change (negb (LUA_NOREF =? LUA_NOREF)) with false. cbv iota. cbn [snd].
  rewrite Hrun, Hthr. done.
Qed.

Lemma lua_index_top (s : lua_stack) (v : lua_value) :
  lua_index (s ++ [v]) (-1) = v.
Proof.
  unfold lua_index, lua_at, lua_absindex, lua_gettop.
  rewrite length_app. cbn [length].
  change (-1 <? 0) with true. cbv iota.
  rewrite (proj2 (Z.leb_le _ _)) by lia.
  replace (Z.to_nat (Z.of_nat (length s + 1) + -1 + 1 - 1)) with (length s) by lia.
  by rewrite (list_lookup_middle s [] v (length s) eq_refl).
Qed.

Lemma closure_callback_enter_frame m closure args st :
  closure_callback_enter m closure args = inr st ->
  st_frame st = mkNativeFrame None args None.
Proof.
  unfold closure_callback_enter.
  destruct (callback_prepare_call (callback closure)) as [s call].
  set (st0 := mkClosureState _ _ _ _).
  destruct (closure_callback_self m _ st0) as [st1|] eqn:E1; [|done].
  assert (F1 : st_frame st1 = st_frame st0).
  { revert E1. unfold closure_callback_self. destruct (has_self _).
    - destruct (match ci_container_type _ with GI_INFO_TYPE_FUNCTION => _ | _ => _ end); [|done].
      by intros [= <-].
    - by intros [= <-]. }
  destruct (for_params _ _ _ _) as [st2|] eqn:E2; [|done].
  intros [= <-]. change (st_frame st2 = st_frame st0). rewrite <- F1.
  symmetry. revert E2.
  apply (for_params_preserves (fun a b => st_frame a = st_frame b)).
  - done.
  - intros a b c. congruence.
  - intros i p a b. unfold closure_callback_in.
    destruct (_ && _); by intros [= <-].
Qed.

(** A failed resume is reported through the error slot when the
    callable throws and the error value is a string or a number. *)
Lemma resume_error_reported m lua_run closure args st status vals msg text
    errp :
  target_ref (callback closure) = LUA_NOREF ->
  throws (closure_callable closure) = true ->
  closure_callback_enter m closure args = inr st ->
  lua_run (drop (Z.to_nat (closure_stacktop closure)) (st_stack st)) =
    (status, vals ++ [msg]) ->
  lua_tostring msg = Some text ->
  status <> 0 -> status <> LUA_YIELD ->
  args !! Z.to_nat (bool_to_Z (has_self (closure_callable closure)) +
                    nargs (closure_callable closure)) = Some errp ->
  let run := closure_callback m lua_run closure args in
  let e := mkGError "lgi-callback-error-quark" 1 text in
  run_outcome run = Returned [] /\
  nf_err (run_frame run) = (if errp =? 0 then None else Some e) /\
  EvSetError e ∈ run_trace run.
Proof.
  intros Ht Hthr He Hrun Htext H0 Hy Hslot. cbv zeta.
  pose proof (closure_callback_enter_frame m closure args st He) as Hf.
  unfold closure_callback. rewrite He.
  unfold closure_callback_invoke, callback_prepare_call. rewrite Ht.
  change (negb (LUA_NOREF =? LUA_NOREF)) with false. cbv iota. cbn [snd].
  rewrite Hrun, Hthr.
  replace (status =? LUA_YIELD) with false by (symmetry; by apply Z.eqb_neq).
  rewrite andb_false_r.
  unfold closure_callback_marshal.
  replace (status =? 0) with false by (symmetry; by apply Z.eqb_neq).
  unfold closure_callback_error. cbn [st_frame st_stack st_npos st_trace].
  rewrite Hf. cbn [nf_args nf_ret nf_err]. rewrite Hslot.
  rewrite (assoc_L (++)), lua_index_top, Htext.
  rewrite (lua_pop_app _ [msg]).
  unfold closure_callback_leave. cbn [st_stack st_trace st_frame].
  destruct (autodestroy closure); cbn [run_outcome run_frame run_trace nf_err];
    (split; [done|]); (split; [done|]);
    rewrite !elem_of_app, !list_elem_of_singleton; tauto.
Qed.

(** *** Companions *)

Lemma array_marks_true n t k :
  (Z.of_nat k < n) ->
  array_marks n t k = true <-> array_length_arg t = Some (Z.of_nat k).
Proof.
  intros Hk. unfold array_marks. destruct (array_length_arg t) as [l|]; [|done].
  rewrite !andb_true_iff, bool_decide_eq_true, Z.leb_le, Z.ltb_lt.
  split.
  - intros [[? ?] <-]. f_equal. lia.
  - intros [= ->]. lia.
Qed.

Lemma companion_marks_true n c k :
  (Z.of_nat k < n) -> c <> 0 ->
  (0 <? c) && (c <? n) && bool_decide (Z.to_nat c = k) = true <-> c = Z.of_nat k.
Proof.
  intros Hk Hc.
  rewrite !andb_true_iff, bool_decide_eq_true, !Z.ltb_lt. lia.
Qed.

(** With fewer than 64 arguments and no closure or destroy annotation
    naming argument 0, the arguments marked internal are the declared
    companions. *)
Lemma marked_internal_declared i k :
  g_callable_info_get_n_args i < 64 ->
  (k < length (ci_args i))%nat ->
  (forall a, a ∈ ci_args i -> ai_closure a <> 0 /\ ai_destroy a <> 0) ->
  marked_internal i k = true <-> declared_companion i k.
Proof.
  intros Hn Hk Hz. unfold marked_internal, declared_companion.
  assert (Hk' : Z.of_nat k < g_callable_info_get_n_args i).
  { unfold g_callable_info_get_n_args. lia. }
  rewrite Z.mod_small by (unfold g_callable_info_get_n_args in *; lia).
  rewrite orb_true_iff, array_marks_true, existsb_exists by done.
  apply or_iff_compat_l. split.
  - intros (a & Ha & Hm). apply list_elem_of_In in Ha. exists a. split; [done|].
    destruct (Hz a Ha) as [Hc Hd]. unfold arg_marks in Hm.
    rewrite !orb_true_iff in Hm.
    rewrite !companion_marks_true, array_marks_true in Hm by done. tauto.
  - intros (a & Ha & Hm). exists a. split; [by apply list_elem_of_In|].
    destruct (Hz a Ha) as [Hc Hd]. unfold arg_marks.
    rewrite !orb_true_iff.
    rewrite !companion_marks_true, array_marks_true by done. tauto.
Qed.

(** C1, evaluated where the code departs from it.  In
    [info_user_data_first] the second argument names argument 0 as its
    closure (user data) companion, so argument 0 is a declared companion;
    [lgi_callable_create] succeeds and the Callable it stores has no
    argument marked internal. *)
Theorem closure_user_data_first_not_internal :
  let '(res, L) :=
    lgi_callable_create example_env lua_State_empty info_user_data_first 0 in
  declared_companion info_user_data_first 0 /\
  res = LuaOk 0%nat /\
  (fun c => internal <$> params c) <$> ls_userdata L !! 0%nat =
    Some [false; false].
Proof.
  vm_compute. split; [|done].
  right. eexists. split; [apply list_elem_of_further, list_elem_of_here|].
  right. left. reflexivity.
Qed.

(** C2, evaluated where the code departs from it.  For a function that
    throws, returns an integer and has a caller-allocated out argument,
    a native call that sets the error makes [callable_call] return the
    pre-allocated out value, the message and the code: the leading result
    is neither [false] nor the return value. *)
Theorem error_results_after_caller_alloc :
  let callable := built info_get_throws in
  let stack0 := [LuaUserdata 0] in
  let r := native_fails (address callable)
             (callable_call_args example_marshal callable stack0) in
  throws callable = true /\
  nr_err r = Some (mkGError "foo-error-quark" 5 "boom") /\
  return_values example_marshal callable r = [LuaInteger 0] /\
  caller_allocated_values example_marshal (loop_params callable) =
    [LuaUserdata 7] /\
  (callable_call example_marshal native_fails callable stack0).2 =
    Returned [LuaUserdata 7; LuaString "boom"; LuaInteger 5].
Proof. vm_compute. done. Qed.


(** C6, evaluated where the code departs from it.  With a coroutine as
    target and a callable that does not throw, a resume that fails with
    LUA_ERRMEM is not thrown again: [closure_callback] goes on to report
    an error through an error slot the frame does not have. *)
Theorem resume_memory_error_not_thrown :
  let closure := closure_on_thread info_callback_void in
  let run :=
    closure_callback example_marshal
      (fun _ => (LUA_ERRMEM, [LuaString "not enough memory"])) closure [] in
  target_ref (callback closure) = LUA_NOREF /\
  throws (closure_callable closure) = false /\
  run_trace run = [EvLock; EvLuaResume 0] /\
  run_outcome run = Undefined.
Proof. vm_compute. done. Qed.

(** The second creation of a function finds the first. *)
Lemma lgi_callable_create_cached_witness :
  let L := (lgi_callable_create example_env lua_State_empty
                                info_check_throws 0).2 in
  ls_callable_cache L !! callable_cache_key info_check_throws = Some 0%nat /\
  lgi_callable_create example_env L info_check_throws 77 = (LuaOk 0%nat, L).
Proof.
  apply (lgi_callable_create_cached example_env example_env lua_State_empty
           _ info_check_throws info_check_throws 0 77 0%nat);
    reflexivity.
Defined.

(** A function whose symbol is not found. *)
Lemma lgi_callable_create_failure_witness :
  ls_callable_cache lua_State_empty !! callable_cache_key info_check_throws = None /\
  occurs_in (type_name info_check_throws)
            "could not locate 1:Foo.check(foo_check): undefined symbol".
Proof.
  pose proof (lgi_callable_create_failure failing_env lua_State_empty
                lua_State_empty info_check_throws 0
                "could not locate 1:Foo.check(foo_check): undefined symbol"
                eq_refl) as (_ & H1 & H2 & _).
  split; [exact H1 | exact H2].
Defined.

(** *** GClosure targets *)

Lemma lgi_gclosure_create_spec w f ref th s target :
  lgi_gclosure_create w f ref th s target =
    if callable_target (lua_type_at s target)
    then LuaOk (mkGlibClosure (callback_create s target ref th))
    else LuaError (luaL_typerror w f target "function" (lua_type_at s target)).
Proof.
  unfold lgi_gclosure_create, callable_target.
  by destruct (lua_type_at s target).
Qed.

(** C10, with the condition of [callable_closure] made explicit.
    [lgi_gclosure_create] takes a target of type
    function, table or userdata and raises a type error for every other
    type, a thread included.  [callable_closure] applies this to the
    value at index 1 only when the repository has a type for
    G_TYPE_CLOSURE; when it has none, no closure is created and no error
    is raised, whatever the target.  The callback machinery itself takes
    a thread: such a callback is resumed, not called. *)
Theorem gclosure_targets (env : ClosureEnv) (v : lua_value) (s : lua_stack)
    (target : Z) :
  lgi_gclosure_create (ce_where env) (ce_fname env) (ce_ref env)
                      (ce_thread env) s target =
    (if callable_target (lua_type_at s target)
     then LuaOk (mkGlibClosure
                   (callback_create s target (ce_ref env) (ce_thread env)))
     else LuaError (luaL_typerror (ce_where env) (ce_fname env) target
                                  "function" (lua_type_at s target))) /\
  callable_closure env s =
    (let '(gtype, repo) := repotype_closure env in
     let type := lua_type_at (s ++ [repo]) 1 in
     if gtype =? G_TYPE_INVALID then (Returned [repo], None)
     else if callable_target type then
       let c := mkGlibClosure
                  (callback_create (s ++ [repo]) 1 (ce_ref env)
                                   (ce_thread env)) in
       (Returned [record_2lua env c], Some c)
     else
       (Raised (LuaString (luaL_typerror (ce_where env) (ce_fname env) 1
                                         "function" type)), None)) /\
  (forall repo, lua_type_at ((v :: s) ++ [repo]) 1 = lua_typeof v) /\
  callable_target LUA_TTHREAD = false /\
  (lua_typeof v = LUA_TTHREAD ->
   (callback_prepare_call
      (callback_create (v :: s) 1 (ce_ref env) (ce_thread env))).2 = false).
Proof.
  split; [apply lgi_gclosure_create_spec|].
  split; [|split; [done|split; [done|]]].
  - unfold callable_closure. destruct (repotype_closure env) as [gtype repo].
    destruct (gtype =? G_TYPE_INVALID); cbn [negb].
    + f_equal. f_equal. by apply lua_results_app.
    + rewrite lgi_gclosure_create_spec. cbv zeta.
      destruct (callable_target (lua_type_at (s ++ [repo]) 1)); [|done].
      f_equal. f_equal. by apply (lua_results_app s [_]).
  - intros Hv. unfold callback_create, lua_isthread.
    change (lua_type_at (v :: s) 1) with (lua_typeof v).
    by rewrite Hv.
Qed.

(** With no repository type for G_TYPE_CLOSURE a thread target raises no
    error. *)
Lemma thread_target_without_repotype :
  lua_typeof (LuaThread 1) = LUA_TTHREAD /\
  callable_closure closure_env_missing [LuaThread 1] =
    (Returned [LuaNil], None).
Proof. vm_compute. done. Qed.

(** ** Further properties of callable.c *)

(** *** The Params and the signature of a built callable *)

Lemma param_fields_mark_if (cond : bool) arg c :
  param_fields <$> params (if cond then mark_internal arg c else c) =
  param_fields <$> params c.
Proof.
  destruct cond; [|done]. unfold mark_internal. cbn [params Callable_set_params].
  rewrite (list_fmap_alter param_fields (Param_set_internal true) id).
  - by rewrite list_alter_id.
  - by apply Forall_forall.
Qed.

Lemma param_fields_mark_array_length c t :
  param_fields <$> params (callable_mark_array_length c t) =
  param_fields <$> params c.
Proof.
  unfold callable_mark_array_length.
  destruct (_ && _); [|done]. apply param_fields_mark_if.
Qed.

(** One round of the loop writes the fields of its own Param and adds
    its ffi type. *)
Lemma callable_load_arg_fields env n c fa j a :
  ci_args (info c) !! j = Some a ->
  (j < length (params c))%nat ->
  let r := callable_load_arg env n (c, fa) j in
  param_fields <$> params r.1 =
    <[j := param_fields (arg_param a false)]> (param_fields <$> params c) /\
  r.2 = fa ++ [param_ffi_arg (GLIB_SIZEOF_SIZE_T env) (arg_param a false)].
Proof.
  intros Ha Hj. cbv zeta. unfold callable_load_arg. rewrite Ha.
  destruct (lookup_lt_is_Some_2 _ _ Hj) as [old ->].
  cbn [fst snd]. split; [|done].
  rewrite param_fields_mark_array_length, !param_fields_mark_if.
  cbn [params Callable_set_params]. by rewrite list_fmap_insert.
Qed.

Lemma callable_load_args_fields env n c0 fa0 j :
  (j <= length (ci_args (info c0)))%nat ->
  length (params c0) = length (ci_args (info c0)) ->
  let r := foldl (callable_load_arg env n) (c0, fa0) (seq 0 j) in
  (forall k a, (k < j)%nat -> ci_args (info c0) !! k = Some a ->
     param_fields <$> params r.1 !! k = Some (param_fields (arg_param a false))) /\
  r.2 = fa0 ++ ((fun a => param_ffi_arg (GLIB_SIZEOF_SIZE_T env) (arg_param a false))
                  <$> take j (ci_args (info c0))).
Proof.
  intros Hj Hlen. induction j as [|j IH].
  - cbn. split; [intros; lia | by rewrite app_nil_r].
  - rewrite seq_S, foldl_app. cbn [foldl Nat.add].
    destruct IH as (F & A); [lia|].
    pose proof (callable_load_args_flags env n c0 fa0 j ltac:(lia) Hlen) as [Sh _].
    destruct (foldl _ _ (seq 0 j)) as [c fa] eqn:E. cbn [fst snd] in *.
    destruct Sh as (N & I & L).
    destruct (lookup_lt_is_Some_2 (ci_args (info c0)) j) as [a Ha]; [lia|].
    destruct (callable_load_arg_fields env n c fa j a) as (F1 & A1).
    { by rewrite I. } { lia. }
    split.
    + intros k b Hk Hb. rewrite <- list_lookup_fmap, F1.
      destruct (decide (k = j)) as [->|Hne].
      * rewrite list_lookup_insert_eq by (rewrite length_fmap; lia). congruence.
      * rewrite list_lookup_insert_ne by done. rewrite list_lookup_fmap.
        apply F; [lia|done].
    + rewrite A1, A. rewrite (take_S_r _ _ a) by done.
      rewrite fmap_app. cbn. by rewrite <- (assoc_L (++)).
Qed.

(** The plan of a built callable: receiver and error flags, address,
    return Param, one Param per argument carrying the argument's type,
    direction and transfer and the [internal] flag [marked_internal]
    gives, and the signature [callable_signature]. *)
Lemma callable_build_plan env i addr c :
  callable_build env i addr = LuaOk c ->
  info c = i /\
  has_self c = (if GI_IS_FUNCTION_INFO i then flags_has_self (ci_flags i)
                else GI_IS_SIGNAL_INFO i) /\
  throws c = (if GI_IS_FUNCTION_INFO i then flags_throws (ci_flags i)
              else false) /\
  Some (address c) = (if GI_IS_FUNCTION_INFO i
                      then g_typelib_symbol env (ci_symbol i) else Some addr) /\
  retval c = mkParam (ci_return_type i) GIArgInfo_unset GI_DIRECTION_OUT
                     (ci_caller_owns i) false /\
  length (params c) = length (ci_args i) /\
  (forall k a, ci_args i !! k = Some a ->
     params c !! k = Some (arg_param a (marked_internal i k))) /\
  cif c = callable_signature env i /\
  ffi_prep_cif env (cif_nargs (cif c)) (cif_rtype (cif c))
               (cif_arg_types (cif c)) = true.
Proof.
  intros Hb.
  destruct (callable_build_internal env i addr c Hb) as (_ & _ & Hlen & Hint).
  revert Hb. unfold callable_build, callable_signature.
  set (n := g_callable_info_get_n_args i).
  destruct (if GI_IS_FUNCTION_INFO i
            then g_typelib_symbol env (ci_symbol i) else Some addr)
    as [a|]; [|done].
  set (self := if GI_IS_FUNCTION_INFO i then _ else _).
  set (thr := if GI_IS_FUNCTION_INFO i then _ else _).
  set (ret := mkParam _ _ _ _ _).
  set (c00 := mkCallable _ _ _ _ _ _ _ _).
  set (c0 := callable_mark_array_length c00 _).
  set (fa0 := if self then _ else _).
  assert (Hn : Z.to_nat n = length (ci_args i)).
  { unfold n, g_callable_info_get_n_args. lia. }
  destruct (same_shape_mark_array_length c00 (ti ret)) as (N0 & I0 & L0).
  fold c0 in N0, I0, L0.
  assert (R0 : retval c0 = ret).
  { unfold c0, callable_mark_array_length. destruct (_ && _); [|done].
    by destruct (_ && _). }
  destruct (callable_load_args_fields env n c0 fa0 (Z.to_nat n)) as (F & A).
  { rewrite I0. cbn. lia. }
  { rewrite L0, I0. unfold c00. cbn [params info]. by rewrite length_replicate. }
  assert (R : retval (foldl (callable_load_arg env n) (c0, fa0)
                            (seq 0 (Z.to_nat n))).1 = ret).
  { rewrite <- R0. generalize (Z.to_nat n). intros j. induction j as [|j IH].
    - done.
    - rewrite seq_S, foldl_app. cbn [foldl Nat.add].
      destruct (foldl _ _ (seq 0 j)) as [c1 fa1]. cbn [fst] in *. rewrite <- IH.
      unfold callable_load_arg.
      destruct (ci_args (info c1) !! j); [|done].
      destruct (params c1 !! j); [|done]. cbn [fst].
      unfold callable_mark_array_length.
      repeat (destruct (_ && _); cbn [retval mark_internal Callable_set_params]);
        done. }
  destruct (foldl _ _ _) as [c1 fa1]. cbn [fst snd] in F, A, R.
  destruct (ffi_prep_cif _ _ _ _) eqn:Hprep; [|done].
  intros [= <-]. cbn [info has_self throws address retval params cif
                      cif_nargs cif_rtype cif_arg_types] in *.
  rewrite I0 in F, A. cbn [info c00] in F, A. rewrite Hn, firstn_all in A.
  repeat split; try done.
  - intros k b Hb.
    assert (Hk : (k < length (ci_args i))%nat) by (by eapply lookup_lt_Some).
    specialize (F k b ltac:(lia) Hb). specialize (Hint k Hk).
    destruct (params c1 !! k) as [[t1 a1 d1 tr1 b1]|]; [|done].
    cbn in F, Hint. injection F as -> -> -> ->. injection Hint as ->. done.
  - rewrite A. f_equal. destruct thr; [by rewrite <- (assoc_L (++))|by rewrite app_nil_r].
Qed.

(** The two ways [callable_build] ends once the address is known. *)
Lemma callable_build_resolved env i addr a :
  callable_resolve env i addr = Some a ->
  if signature_accepted env i
  then exists c, callable_build env i addr = LuaOk c
  else callable_build env i addr =
         LuaError (luaL_where env +:+ "ffi_prep_cif for `" +:+ type_name i
                   +:+ "' failed").
Proof.
  unfold callable_resolve, signature_accepted, callable_build,
    callable_signature. intros ->.
  set (n := g_callable_info_get_n_args i).
  set (self := if GI_IS_FUNCTION_INFO i then _ else _).
  set (thr := if GI_IS_FUNCTION_INFO i then _ else _).
  set (ret := mkParam _ _ _ _ _).
  set (c00 := mkCallable _ _ _ _ _ _ _ _).
  set (c0 := callable_mark_array_length c00 _).
  set (fa0 := if self then _ else _).
  assert (Hn : Z.to_nat n = length (ci_args i)).
  { unfold n, g_callable_info_get_n_args. lia. }
  destruct (same_shape_mark_array_length c00 (ti ret)) as (N0 & I0 & L0).
  fold c0 in N0, I0, L0.
  destruct (callable_load_args_fields env n c0 fa0 (Z.to_nat n)) as (_ & A).
  { rewrite I0. cbn. lia. }
  { rewrite L0, I0. unfold c00. cbn [params info]. by rewrite length_replicate. }
  destruct (foldl _ _ _) as [c1 fa1]. cbn [snd] in A.
  rewrite I0 in A. cbn [info c00] in A. rewrite Hn, firstn_all in A.
  cbv zeta. cbn [cif_nargs cif_rtype cif_arg_types].
  assert (E : (if thr then fa1 ++ [ffi_type_pointer] else fa1) =
              fa0 ++ ((fun a0 => param_ffi_arg (GLIB_SIZEOF_SIZE_T env)
                                   (arg_param a0 false)) <$> ci_args i) ++
              (if thr then [ffi_type_pointer] else [])).
  { rewrite A. destruct thr; [by rewrite <- (assoc_L (++))|by rewrite app_nil_r]. }
  rewrite E. destruct (ffi_prep_cif _ _ _ _); [eauto|done].
Qed.

Lemma callable_build_unresolved env i addr :
  callable_resolve env i addr = None ->
  callable_build env i addr =
    LuaError (luaL_where env +:+ "could not locate " +:+
              callable_cache_key i +:+ "(" +:+ ci_symbol i +:+ "): " +:+
              g_module_error env).
Proof. unfold callable_resolve, callable_build. by intros ->. Qed.

(** *** The cache key *)

Lemma pretty_N_go_no_colon x s : no_colon s -> no_colon (pretty_N_go x s).
Proof.
  revert s. induction (N.lt_wf_0 x) as [x _ IH]; intros s Hs.
  assert (x = 0 \/ 0 < x)%N as [->|Hx] by lia.
  - by rewrite pretty_N_go_0.
  - rewrite pretty_N_go_step by done. apply IH.
    + by apply N.div_lt.
    + split; [|done]. unfold pretty_N_char. by repeat case_match.
Qed.

Lemma pretty_Z_no_colon (z : Z) : no_colon (pretty z).
Proof.
  assert (HN : forall n : N, no_colon (pretty n)).
  { intros n. unfold pretty, pretty_N. case_decide; [by cbn|].
    by apply pretty_N_go_no_colon. }
  destruct z as [|p|p]; [by cbn|apply (HN (Npos p))|].
  split; [done|apply (HN (Npos p))].
Qed.

(** The text before the first colon and the text after it determine
    each other's place. *)
Lemma colon_split (a b x y : string) :
  no_colon a -> no_colon b ->
  a +:+ String ":" x = b +:+ String ":" y -> a = b /\ x = y.
Proof.
  revert b. induction a as [|c a IH]; intros [|d b] Ha Hb H.
  - change (String ":" x = String ":" y) in H. by injection H as ->.
  - change (String ":" x = String d (b +:+ String ":" y)) in H.
    injection H as <- _. by destruct Hb.
  - change (String c (a +:+ String ":" x) = String ":" y) in H.
    injection H as -> _. by destruct Ha.
  - change (String c (a +:+ String ":" x) = String d (b +:+ String ":" y)) in H.
    injection H as -> H. destruct Ha as [_ Ha], Hb as [_ Hb].
    by destruct (IH b Ha Hb H) as [-> ->].
Qed.

(** Two descriptions have the same cache key exactly when they have the
    same kind and the same qualified name. *)
Lemma callable_cache_key_inj i i' :
  callable_cache_key i = callable_cache_key i' <->
  ci_type_code i = ci_type_code i' /\ type_name i = type_name i'.
Proof.
  unfold callable_cache_key. split.
  - intros H.
    change (pretty (ci_type_code i) +:+ String ":" (type_name i) =
            pretty (ci_type_code i') +:+ String ":" (type_name i')) in H.
    apply colon_split in H as [H1 H2];
      [|apply pretty_Z_no_colon..].
    split; [by apply (inj pretty)|done].
  - by intros [-> ->].
Qed.

(** *** The cache *)

Lemma lgi_callable_create_extends env L i addr :
  let L' := (lgi_callable_create env L i addr).2 in
  (forall key ud, ls_callable_cache L !! key = Some ud ->
                  ls_callable_cache L' !! key = Some ud) /\
  ls_userdata L `prefix_of` ls_userdata L'.
Proof.
  cbv zeta. unfold lgi_callable_create.
  destruct (ls_callable_cache L !! callable_cache_key i) as [u|] eqn:E;
    [done|].
  destruct (callable_build env i addr) as [c|msg]; [|done].
  cbn. split.
  - intros key ud Hk. rewrite lookup_insert_ne; [done|congruence].
  - by apply prefix_app_r.
Qed.

Lemma cache_consistent_create env L i addr :
  cache_consistent L ->
  cache_consistent (lgi_callable_create env L i addr).2.
Proof.
  intros Hc. unfold lgi_callable_create.
  destruct (ls_callable_cache L !! callable_cache_key i) as [u|] eqn:E;
    [done|].
  destruct (callable_build env i addr) as [c|msg] eqn:Hb; [|done].
  cbn. intros key ud Hk. cbn [ls_callable_cache ls_userdata] in *.
  destruct (decide (key = callable_cache_key i)) as [->|Hne].
  - rewrite lookup_insert_eq in Hk. injection Hk as <-.
    exists c. split; [apply list_lookup_middle; done|].
    by destruct (callable_build_plan env i addr c Hb) as [-> _].
  - rewrite lookup_insert_ne in Hk by done.
    destruct (Hc key ud Hk) as (c' & Hu & Hkey). exists c'. split; [|done].
    by apply lookup_app_l_Some.
Qed.

(** The result of a successful creation is cached, and names the block
    built for the description. *)
Lemma lgi_callable_create_cached_block env L i addr ud L' :
  cache_consistent L ->
  lgi_callable_create env L i addr = (LuaOk ud, L') ->
  ls_callable_cache L' !! callable_cache_key i = Some ud /\
  exists c, ls_userdata L' !! ud = Some c /\
            callable_cache_key (info c) = callable_cache_key i.
Proof.
  intros Hc Hcr.
  assert (Hc' : cache_consistent L').
  { replace L' with (lgi_callable_create env L i addr).2 by (by rewrite Hcr).
    by apply cache_consistent_create. }
  assert (Hl : ls_callable_cache L' !! callable_cache_key i = Some ud).
  { revert Hcr. unfold lgi_callable_create.
    destruct (ls_callable_cache L !! callable_cache_key i) as [u|] eqn:E.
    - by intros [= <- <-].
    - destruct (callable_build env i addr); [|done].
      intros [= <- <-]. apply lookup_insert_eq. }
  split; [done|]. by apply Hc'.
Qed.

(** *** The arguments a call reads *)

Lemma lua_index_app_l (base rest : lua_stack) (k : Z) :
  1 <= k <= Z.of_nat (length base) ->
  lua_index (base ++ rest) k = lua_index base k.
Proof.
  intros Hk. unfold lua_index, lua_at, lua_absindex.
  rewrite (proj2 (Z.ltb_ge _ _)) by lia.
  rewrite (proj2 (Z.leb_le _ _)) by lia.
  by rewrite lookup_app_l by lia.
Qed.

Lemma callable_call_in_args m callable src base i p st st' cas temps :
  (forall k, 1 <= k <= Z.of_nat (length base) ->
             lua_index base k = lua_index src k) ->
  in_shape base cas temps st ->
  (visible_input p = true -> 1 <= cs_lua_argi st <= Z.of_nat (length base)) ->
  callable_call_in m callable i p st = Some st' ->
  cs_args st' = input_args m callable src i [p] (cs_lua_argi st) (cs_args st) /\
  cs_lua_argi st' = cs_lua_argi st + (if visible_input p then 1 else 0).
Proof.
  intros Hsrc (Hs & _ & _) Hla. unfold callable_call_in, input_args, visible_input,
    caller_allocated_value in *.
  destruct (internal p); cbn [negb andb].
  { intros [= <-]. split; [done|lia]. }
  case_bool_decide as Hd; cbn [negb andb].
  - destruct (ai_caller_allocates (ai p)).
    + destruct (lgi_marshal_arg_2c_caller_alloc m (ti p)) as [[q v]|]; cbn.
      * destruct (lua_insert _ _); [|done]. intros [= <-]. cbn. split; [done|lia].
      * intros [= <-]. split; [done|lia].
    + intros [= <-]. split; [done|lia].
  - rewrite Hs, lua_index_app_l, Hsrc by (by apply Hla).
    destruct (lgi_marshal_arg_2c _ _ _ _ _) as [val tmp].
    intros [= <-]. cbn. split; [done|lia].
Qed.

Lemma input_args_cons m callable base i p ps la args :
  input_args m callable base i (p :: ps) la args =
  input_args m callable base (S i) ps
    (la + (if visible_input p then 1 else 0))
    (input_args m callable base i [p] la args).
Proof. cbn [input_args]. destruct (visible_input p); [done|]. by rewrite Z.add_0_r. Qed.

Lemma callable_call_in_loop_args m callable src base ps :
  (forall k, 1 <= k <= Z.of_nat (length base) ->
             lua_index base k = lua_index src k) ->
  forall i st st' cas temps,
    in_shape base cas temps st ->
    1 <= cs_lua_argi st ->
    cs_lua_argi st + Z.of_nat (length (filter (fun p => visible_input p = true) ps))
      <= Z.of_nat (length base) + 1 ->
    for_params (callable_call_in m callable) i ps st = Some st' ->
    cs_args st' = input_args m callable src i ps (cs_lua_argi st) (cs_args st) /\
    cs_lua_argi st' =
      cs_lua_argi st +
      Z.of_nat (length (filter (fun p => visible_input p = true) ps)).
Proof.
  intros Hsrc.
  induction ps as [|p ps IH]; intros i st st' cas temps Hsh H1 Hle Hloop.
  - cbn in *. injection Hloop as <-. split; [done|lia].
  - cbn [for_params] in Hloop.
    destruct (callable_call_in m callable i p st) as [st1|] eqn:E1; [|done].
    rewrite filter_cons in Hle |- *.
    destruct (callable_call_in_shape m callable base i p st cas temps Hsh)
      as (st1' & t1 & E1' & Sh1).
    rewrite E1 in E1'. injection E1' as <-.
    destruct (callable_call_in_args m callable src base i p st st1 cas temps
                Hsrc Hsh) as (A1 & L1); [|done|].
    { intros Hv. rewrite decide_True in Hle by done. cbn [length] in Hle. lia. }
    destruct (IH (S i) st1 st' _ _ Sh1) as (A2 & L2); [| |done|].
    { rewrite L1. destruct (visible_input p); lia. }
    { rewrite L1. destruct (visible_input p) eqn:Hv.
      - rewrite decide_True in Hle by done. cbn [length] in Hle. lia.
      - rewrite decide_False in Hle by done. lia. }
    rewrite input_args_cons, <- A1, <- L1. split; [done|].
    rewrite L2, L1. destruct (visible_input p) eqn:Hv.
    + rewrite decide_True by done. cbn [length]. lia.
    + rewrite decide_False by done. lia.
Qed.

Lemma lua_settop_length (n : Z) (s : lua_stack) :
  length (lua_settop n s) = Z.to_nat n.
Proof. unfold lua_settop. rewrite length_app, length_take, length_replicate. lia. Qed.

Lemma lua_settop_index (n : Z) (s : lua_stack) (k : Z) :
  1 <= k <= n -> lua_index (lua_settop n s) k = lua_index s k.
Proof.
  intros Hk. unfold lua_index, lua_at, lua_absindex, lua_settop.
  rewrite (proj2 (Z.ltb_ge _ _)) by lia.
  rewrite (proj2 (Z.leb_le _ _)) by lia.
  destruct (decide (Z.to_nat (k - 1) < length s)%nat) as [Hlt|Hge].
  - rewrite lookup_app_l by (rewrite length_take; lia).
    by rewrite lookup_take_lt by lia.
  - rewrite lookup_app_r by (rewrite length_take; lia).
    rewrite (lookup_ge_None_2 s) by lia.
    rewrite length_take.
    by rewrite lookup_replicate_2 by lia.
Qed.

Lemma visible_inputs_bound (callable : Callable) :
  0 <= nargs callable ->
  Z.of_nat (length (filter (fun p => visible_input p = true)
                           (loop_params callable))) <= nargs callable.
Proof.
  intros Hn. pose proof (length_filter (fun p => visible_input p = true)
                                       (loop_params callable)) as Hf.
  unfold loop_params in *. rewrite length_take in Hf. lia.
Qed.

Lemma callable_call_prepare_args m callable stack0 :
  0 <= nargs callable ->
  exists st,
    callable_call_prepare m callable stack0 = Some st /\
    cs_args st =
      input_args m callable stack0 0 (loop_params callable)
                 (2 + bool_to_Z (has_self callable))
                 (self_args m callable stack0) /\
    cs_lua_argi st =
      2 + bool_to_Z (has_self callable) +
      Z.of_nat (length (filter (fun p => visible_input p = true)
                               (loop_params callable))).
Proof.
  intros Hn.
  destruct (callable_call_prepare_shape m callable stack0)
    as (st & temps & Hprep & _ & _).
  exists st. split; [done|].
  unfold callable_call_prepare in Hprep.
  set (top := bool_to_Z (has_self callable) + nargs callable + 1) in *.
  set (base := lua_settop top stack0) in *.
  set (st0 := mkCallState _ _ _ _ _ _) in Hprep.
  assert (Htop : 1 <= top) by (unfold top, bool_to_Z; destruct (has_self callable); lia).
  assert (Hsrc : forall k, 1 <= k <= Z.of_nat (length base) ->
                           lua_index base k = lua_index stack0 k).
  { intros k Hk. apply lua_settop_index. unfold base in Hk.
    rewrite lua_settop_length in Hk. lia. }
  assert (Sh0 : in_shape base [] [] (callable_call_self m callable st0)).
  { unfold in_shape, callable_call_self, st0.
    destruct (has_self callable); cbn [cs_stack cs_nret cs_caller_allocated length];
      by rewrite !app_nil_r. }
  assert (La : cs_lua_argi (callable_call_self m callable st0) =
               2 + bool_to_Z (has_self callable)).
  { unfold callable_call_self, st0, bool_to_Z. by destruct (has_self callable). }
  assert (Ar : cs_args (callable_call_self m callable st0) =
               self_args m callable stack0).
  { unfold callable_call_self, self_args, st0.
    destruct (has_self callable) eqn:Hself; [|done].
    cbn [cs_args cs_stack]. fold top base.
    rewrite Hsrc; [done|]. unfold base. rewrite lua_settop_length.
    unfold top, bool_to_Z. rewrite ?Hself. lia. }
  pose proof (visible_inputs_bound callable Hn) as Hb.
  destruct (callable_call_in_loop_args m callable stack0 base
              (loop_params callable) Hsrc 0%nat _ st [] [] Sh0) as (A & L);
    [rewrite La; unfold bool_to_Z; destruct (has_self callable); lia
    | rewrite La; unfold base; rewrite lua_settop_length; unfold top; lia
    | done |].
  by rewrite A, L, La, Ar.
Qed.

(** *** Further properties of [lgi_callable_create] *)

(** X1.  In a Callable built for a description with fewer than 64
    arguments, none of which names argument 0 as its closure or destroy
    argument, the Param of argument [k] is flagged internal exactly when
    the description names [k] as a companion: as the length of a C
    array (of the return value or of an argument, before or after [k])
    or as the closure or destroy argument of an argument. *)
Theorem built_internal_iff_companion
    (env : CreateEnv) (i : GICallableInfo) (addr : Z) (c : Callable) (k : nat) :
  callable_build env i addr = LuaOk c ->
  g_callable_info_get_n_args i < 64 ->
  (forall a, a ∈ ci_args i -> ai_closure a <> 0 /\ ai_destroy a <> 0) ->
  (k < length (ci_args i))%nat ->
  exists p, params c !! k = Some p /\
            (internal p = true <-> declared_companion i k).
Proof.
  intros Hb Hn Hz Hk.
  destruct (callable_build_internal env i addr c Hb) as (_ & _ & Hl & Hi).
  specialize (Hi k Hk).
  destruct (params c !! k) as [p|] eqn:Hp; [|done].
  exists p. split; [done|]. cbn in Hi. injection Hi as ->.
  by apply marked_internal_declared.
Qed.

Lemma built_internal_iff_companion_witness :
  exists p, params (built info_forward_companions) !! 3%nat = Some p /\
            (internal p = true <->
             declared_companion info_forward_companions 3).
Proof.
  apply (built_internal_iff_companion example_env info_forward_companions 0
           (built info_forward_companions) 3).
  - vm_compute. reflexivity.
  - reflexivity.
  - intros a Ha. cbn in Ha.
    repeat (apply elem_of_cons in Ha as [->|Ha]; [cbn; lia|]).
    by apply elem_of_nil in Ha.
  - cbn. lia.
Defined.

(** X2.  The plan of a built Callable is read off the description: the
    receiver flag (a method that is no constructor, or a signal), the
    error flag (functions only), the address (the resolved symbol of a
    function, the given address otherwise), the return Param with
    direction out, one Param per argument carrying the argument's type,
    direction and transfer, and the signature given to libffi: a pointer
    for the receiver, one type per argument, a pointer for the error. *)
Theorem callable_build_follows_info
    (env : CreateEnv) (i : GICallableInfo) (addr : Z) (c : Callable) :
  callable_build env i addr = LuaOk c ->
  info c = i /\
  has_self c = (if GI_IS_FUNCTION_INFO i then flags_has_self (ci_flags i)
                else GI_IS_SIGNAL_INFO i) /\
  throws c = (if GI_IS_FUNCTION_INFO i then flags_throws (ci_flags i)
              else false) /\
  Some (address c) = callable_resolve env i addr /\
  retval c = mkParam (ci_return_type i) GIArgInfo_unset GI_DIRECTION_OUT
                     (ci_caller_owns i) false /\
  (forall k a, ci_args i !! k = Some a ->
     exists b, params c !! k = Some (arg_param a b)) /\
  cif c = callable_signature env i.
Proof.
  intros Hb.
  destruct (callable_build_plan env i addr c Hb)
    as (H1 & H2 & H3 & H4 & H5 & _ & H7 & H8 & _).
  repeat split; try done.
  intros k a Ha. exists (marked_internal i k). by apply H7.
Qed.

Lemma callable_build_follows_info_witness :
  let c := built info_forward_companions in
  info c = info_forward_companions /\
  has_self c = false /\ throws c = false /\
  Some (address c) = Some 4096 /\
  cif c = mkCif 5 ffi_type_void
                [ffi_type_pointer; ffi_type_sint32; ffi_type_pointer;
                 ffi_type_pointer; ffi_type_pointer].
Proof.
  assert (Hb : callable_build example_env info_forward_companions 0 =
               LuaOk (built info_forward_companions))
    by (vm_compute; reflexivity).
  pose proof (callable_build_follows_info example_env info_forward_companions
                0 (built info_forward_companions) Hb)
    as (H1 & H2 & H3 & H4 & _ & _ & H7).
  revert H1 H2 H3 H4 H7. vm_compute. tauto.
Defined.

(** X3.  With fewer than 64 arguments the counts of the plan agree: the
    [nargs] field is the number of arguments, there is one Param per
    argument, and the signature has one slot for the receiver, one per
    argument and one for the error, which are the slots [callable_call]
    fills and passes. *)
Theorem callable_build_counts
    (env : CreateEnv) (i : GICallableInfo) (addr : Z) (c : Callable) :
  callable_build env i addr = LuaOk c ->
  g_callable_info_get_n_args i < 64 ->
  nargs c = Z.of_nat (length (ci_args i)) /\
  length (loop_params c) = length (ci_args i) /\
  cif_nargs (cif c) =
    bool_to_Z (has_self c) + nargs c + bool_to_Z (throws c) /\
  Z.of_nat (length (cif_arg_types (cif c))) = cif_nargs (cif c).
Proof.
  intros Hb Hn.
  destruct (callable_build_internal env i addr c Hb) as (_ & Hna & Hl & _).
  destruct (callable_build_plan env i addr c Hb)
    as (_ & H2 & H3 & _ & _ & _ & _ & H8 & _).
  unfold g_callable_info_get_n_args in *.
  rewrite Z.mod_small in Hna by lia.
  split; [done|]. split.
  { unfold loop_params. rewrite Hna, length_take. lia. }
  rewrite H8, H2, H3, Hna. unfold callable_signature.
  cbn [cif_nargs cif_arg_types]. unfold g_callable_info_get_n_args.
  split; [done|].
  rewrite !length_app, length_fmap.
  destruct (if GI_IS_FUNCTION_INFO i then flags_has_self _ else _),
           (if GI_IS_FUNCTION_INFO i then flags_throws _ else _);
    cbn [length bool_to_Z]; lia.
Qed.

Lemma callable_build_counts_witness :
  let c := built info_forward_companions in
  nargs c = 5 /\ length (loop_params c) = 5%nat /\
  cif_nargs (cif c) = bool_to_Z (has_self c) + nargs c + bool_to_Z (throws c) /\
  Z.of_nat (length (cif_arg_types (cif c))) = cif_nargs (cif c).
Proof.
  assert (Hb : callable_build example_env info_forward_companions 0 =
               LuaOk (built info_forward_companions))
    by (vm_compute; reflexivity).
  assert (Hn : g_callable_info_get_n_args info_forward_companions < 64)
    by reflexivity.
  pose proof (callable_build_counts example_env info_forward_companions 0
                (built info_forward_companions) Hb Hn) as H.
  revert H. vm_compute. tauto.
Defined.

(** X4.  [callable_build] fails in exactly two ways.  When the symbol of
    a function is not found the error is "could not locate", with the
    cache key, the symbol and the loader's message; when libffi refuses
    the signature it is "ffi_prep_cif ... failed" with the qualified
    name.  In every other case a Callable is built. *)
Theorem callable_build_outcomes
    (env : CreateEnv) (i : GICallableInfo) (addr : Z) :
  (callable_resolve env i addr = None ->
   callable_build env i addr =
     LuaError (luaL_where env +:+ "could not locate " +:+
               callable_cache_key i +:+ "(" +:+ ci_symbol i +:+ "): " +:+
               g_module_error env)) /\
  (callable_resolve env i addr <> None ->
   signature_accepted env i = false ->
   callable_build env i addr =
     LuaError (luaL_where env +:+ "ffi_prep_cif for `" +:+
               type_name i +:+ "' failed")) /\
  ((exists c, callable_build env i addr = LuaOk c) <->
   callable_resolve env i addr <> None /\
   signature_accepted env i = true).
Proof.
  destruct (callable_resolve env i addr) as [a|] eqn:Hr.
  - pose proof (callable_build_resolved env i addr a Hr) as H.
    destruct (signature_accepted env i).
    + split; [done|]. split; [done|]. split; [done|]. by intros _.
    + split; [done|]. split; [done|]. rewrite H. split.
      * by intros [c Hc].
      * by intros [_ ?].
  - pose proof (callable_build_unresolved env i addr Hr) as H.
    split; [done|]. split; [done|]. rewrite H. split.
    + by intros [c Hc].
    + by intros [? _].
Qed.

(** X5.  A creation never drops what the state holds: every cache entry
    stays under its key with its userdata, and the Callable blocks
    allocated before keep their identities. *)
Theorem lgi_callable_create_keeps
    (env : CreateEnv) (L : lua_State) (i : GICallableInfo) (addr : Z) :
  let L' := (lgi_callable_create env L i addr).2 in
  (forall key ud, ls_callable_cache L !! key = Some ud ->
                  ls_callable_cache L' !! key = Some ud) /\
  (forall ud c, ls_userdata L !! ud = Some c ->
                ls_userdata L' !! ud = Some c).
Proof.
  cbv zeta.
  destruct (lgi_callable_create_extends env L i addr) as [H1 H2].
  split; [done|]. intros ud c Hc. by eapply prefix_lookup_Some.
Qed.

Lemma cache_consistent_empty : cache_consistent lua_State_empty.
Proof. intros k u Hk. cbn in Hk. by rewrite lookup_empty in Hk. Defined.

Lemma cache_consistent_create_all env reqs :
  forall L, cache_consistent L -> cache_consistent (create_all env L reqs).
Proof.
  induction reqs as [|r reqs IH]; intros L HL; [done|].
  cbn. apply IH. by apply cache_consistent_create.
Qed.

(** X6.  Whatever creations have run since the cache was made, failed
    ones included, every cache entry names a live Callable block that
    was built for a description with the key of the entry. *)
Theorem cache_entries_name_their_callables
    (env : CreateEnv) (reqs : list (GICallableInfo * Z))
    (key : string) (ud : nat) :
  ls_callable_cache (create_all env lua_State_empty reqs) !! key = Some ud ->
  exists c,
    ls_userdata (create_all env lua_State_empty reqs) !! ud = Some c /\
    callable_cache_key (info c) = key.
Proof.
  apply (cache_consistent_create_all env reqs lua_State_empty).
  apply cache_consistent_empty.
Qed.

Lemma cache_entries_name_their_callables_witness :
  exists c,
    ls_userdata (create_all example_env lua_State_empty
                   [(info_check_throws, 0); (info_callback_int, 5)])
      !! 1%nat = Some c /\
    callable_cache_key (info c) = "2:Foo.Getter".
Proof.
  apply (cache_entries_name_their_callables example_env
           [(info_check_throws, 0); (info_callback_int, 5)]
           "2:Foo.Getter" 1).
  reflexivity.
Defined.

(** X7.  Two creations in a row, the second in any environment, return
    the same userdata exactly when the two descriptions have the same
    kind code and the same qualified name. *)
Theorem lgi_callable_create_same_iff
    (env env' : CreateEnv) (L L1 L2 : lua_State) (i i' : GICallableInfo)
    (addr addr' : Z) (ud ud' : nat) :
  cache_consistent L ->
  lgi_callable_create env L i addr = (LuaOk ud, L1) ->
  lgi_callable_create env' L1 i' addr' = (LuaOk ud', L2) ->
  ud = ud' <->
  ci_type_code i = ci_type_code i' /\ type_name i = type_name i'.
Proof.
  intros HL H1 H2.
  destruct (lgi_callable_create_cached_block env L i addr ud L1 HL H1)
    as (C1 & c1 & U1 & K1).
  assert (HL1 : cache_consistent L1).
  { replace L1 with (lgi_callable_create env L i addr).2 by (by rewrite H1).
    by apply cache_consistent_create. }
  destruct (lgi_callable_create_cached_block env' L1 i' addr' ud' L2 HL1 H2)
    as (C2 & c2 & U2 & K2).
  rewrite <- callable_cache_key_inj. split.
  - intros <-.
    destruct (lgi_callable_create_extends env' L1 i' addr') as [_ Hp].
    rewrite H2 in Hp. cbn [snd] in Hp.
    pose proof (prefix_lookup_Some _ _ _ _ U1 Hp) as U1'.
    rewrite U2 in U1'. injection U1' as ->. by rewrite <- K1, <- K2.
  - intros Hk. revert H2. unfold lgi_callable_create.
    rewrite <- Hk, C1. by intros [= <- _].
Qed.

Lemma lgi_callable_create_same_iff_witness :
  0%nat = 1%nat <->
  ci_type_code info_check_throws = ci_type_code info_callback_int /\
  type_name info_check_throws = type_name info_callback_int.
Proof.
  apply (lgi_callable_create_same_iff example_env example_env lua_State_empty
           (create_all example_env lua_State_empty [(info_check_throws, 0)])
           (create_all example_env lua_State_empty
              [(info_check_throws, 0); (info_callback_int, 5)])
           info_check_throws info_callback_int 0 5 0 1).
  - apply cache_consistent_empty.
  - reflexivity.
  - reflexivity.
Defined.

(** *** Further properties of [callable_call] *)

(** X8.  When the signature fits the argument block, the native
    function is called on argument slots filled from the caller's Lua
    arguments alone: the receiver from index 2, then each visible in or
    inout Param from the next index, read as nil when the caller passed
    fewer values; temporaries and caller-allocated values that
    marshalling pushes meanwhile never shift an index.  Internal Params
    and plain out Params consume no Lua argument: their slots hold what
    the marshaller of another argument stored there (the length of its
    array, say) or else what the new block held; a caller-allocated out
    Param gets the address of its new value. *)
Theorem callable_call_reads_arguments
    (m : Marshal) (native : Z -> list GIArgument -> NativeResult)
    (callable : Callable) (stack0 : lua_stack) :
  0 <= nargs callable ->
  plan_consistent callable = true ->
  let args :=
    input_args m callable stack0 0 (loop_params callable)
               (2 + bool_to_Z (has_self callable))
               (self_args m callable stack0) in
  callable_call_args m callable stack0 = args /\
  EvFfiCall (address callable) args
    ∈ (callable_call m native callable stack0).1.
Proof.
  intros Hn Hpc. cbv zeta.
  assert (A : callable_call_args m callable stack0 =
              input_args m callable stack0 0 (loop_params callable)
                (2 + bool_to_Z (has_self callable))
                (self_args m callable stack0)).
  { unfold callable_call_args.
    by destruct (callable_call_prepare_args m callable stack0 Hn)
      as (st & -> & A & _). }
  split; [done|]. rewrite <- A.
  destruct (callable_call_trace m native callable stack0 Hpc)
    as (pre & post & -> & _).
  rewrite !elem_of_app, !elem_of_cons. tauto.
Qed.

Lemma callable_call_reads_arguments_witness :
  callable_call_args companion_marshal (built info_forward_companions)
    [LuaUserdata 0; LuaString "abc"; LuaFunction 1] = [0; 3; 0; 103; 104] /\
  EvFfiCall 4096 [0; 3; 0; 103; 104]
    ∈ (callable_call companion_marshal native_succeeds
         (built info_forward_companions)
         [LuaUserdata 0; LuaString "abc"; LuaFunction 1]).1.
Proof.
  assert (Hn : 0 <= nargs (built info_forward_companions))
    by (vm_compute; discriminate).
  assert (Hpc : plan_consistent (built info_forward_companions) = true)
    by (vm_compute; reflexivity).
  pose proof (callable_call_reads_arguments companion_marshal native_succeeds
                (built info_forward_companions)
                [LuaUserdata 0; LuaString "abc"; LuaFunction 1] Hn Hpc) as H.
  revert H. vm_compute. tauto.
Defined.

Lemma callable_call_out_counter m callable i p st st' :
  callable_call_out m callable i p st = Some st' ->
  cs_caller_allocated st' =
    cs_caller_allocated st
    - Z.of_nat (length (caller_allocated_values m [p]))
    - (if inout_caller_allocated m p then 1 else 0).
Proof.
  rewrite caller_allocated_values_one.
  unfold callable_call_out, inout_caller_allocated,
    caller_allocated_value, caller_alloc_handled.
  destruct (internal p); cbn [negb andb].
  { intros [= <-]. cbn. lia. }
  destruct (dir p);
    repeat match goal with
           | |- context [bool_decide (?a = ?b)] =>
               first [ rewrite (bool_decide_eq_true_2 (a = b)) by done
                     | rewrite (bool_decide_eq_false_2 (a = b)) by done ]
           end;
    cbn [negb andb].
  - intros [= <-]. cbn. lia.
  - destruct (ai_caller_allocates (ai p)); cbn [andb].
    + destruct (lgi_marshal_arg_2c_caller_alloc m (ti p)) as [[q v]|]; cbn.
      * intros [= <-]. cbn. lia.
      * destruct (lua_insert _ _); [|done]. intros [= <-]. cbn. lia.
    + destruct (lua_insert _ _); [|done]. intros [= <-]. cbn. lia.
  - destruct (ai_caller_allocates (ai p)); cbn [andb].
    + destruct (lgi_marshal_arg_2c_caller_alloc m (ti p)) as [[q v]|]; cbn.
      * intros [= <-]. cbn. lia.
      * destruct (lua_insert _ _); [|done]. intros [= <-]. cbn. lia.
    + destruct (lua_insert _ _); [|done]. intros [= <-]. cbn. lia.
Qed.

Lemma callable_call_out_loop_counter m callable ps :
  forall i st st',
    for_params (callable_call_out m callable) i ps st = Some st' ->
    cs_caller_allocated st' =
      cs_caller_allocated st
      - Z.of_nat (length (caller_allocated_values m ps))
      - Z.of_nat (length (filter (fun p => inout_caller_allocated m p = true) ps)).
Proof.
  induction ps as [|p ps IH]; intros i st st' H.
  - cbn in *. injection H as <-. lia.
  - cbn [for_params] in H.
    destruct (callable_call_out m callable i p st) as [st1|] eqn:E1; [|done].
    apply callable_call_out_counter in E1. apply IH in H.
    rewrite caller_allocated_values_cons, length_app, filter_cons.
    destruct (inout_caller_allocated m p) eqn:Hp.
    + rewrite decide_True by done. cbn [length]. lia.
    + rewrite decide_False by done. lia.
Qed.

(** X9.  A visible inout argument flagged caller-allocates, of a type
    the caller-allocation marshaller handles, breaks every call that
    reports no error: the output loop counts it as a pre-created value,
    though the input loop created none, so the count of pre-created
    values goes below zero.  A later output is then inserted at an
    invalid stack index, or the final check that every pre-created value
    was used fails; in both cases no result list is returned. *)
Theorem callable_call_inout_caller_allocated_fails
    (m : Marshal) (native : Z -> list GIArgument -> NativeResult)
    (callable : Callable) (stack0 : lua_stack) (p : Param) :
  p ∈ loop_params callable ->
  inout_caller_allocated m p = true ->
  callable_call_err callable
    (native (address callable) (callable_call_args m callable stack0)) = None ->
  returned (callable_call m native callable stack0).2 = false.
Proof.
  intros Hin Hp. unfold callable_call_args.
  destruct (plan_consistent callable) eqn:Hpc; cycle 1.
  { destruct (callable_call_inconsistent m native callable stack0 Hpc)
      as (pre & -> & _). done. }
  destruct (callable_call_unfold m native callable stack0 Hpc)
    as (st & base & Hprep & _ & Hc & (_ & _ & Hca)).
  rewrite Hprep, Hc. intros ->. unfold callable_call_finish.
  set (st0 := mkCallState _ _ _ _ _ _) in *.
  destruct (callable_call_retval m callable _ st0) as [st1|] eqn:E1; [|done].
  assert (C1 : cs_caller_allocated st1 = cs_caller_allocated st0).
  { revert E1. unfold callable_call_retval. case_bool_decide.
    - by intros [= <-].
    - destruct (lua_insert _ _); [|done]. by intros [= <-]. }
  destruct (for_params _ _ _ st1) as [st2|] eqn:E2; [|done].
  apply callable_call_out_loop_counter in E2.
  assert (Hpos : (0 < length (filter (fun p => inout_caller_allocated m p = true)
                                     (loop_params callable)))%nat).
  { assert (Hf : p ∈ filter (fun p => inout_caller_allocated m p = true)
                            (loop_params callable))
      by (by apply list_elem_of_filter).
    destruct (filter _ _); [by apply elem_of_nil in Hf|cbn; lia]. }
  replace (cs_caller_allocated st2 =? 0) with false
    by (symmetry; apply Z.eqb_neq; lia).
  by destruct (_ && _).
Qed.

Lemma callable_call_inout_caller_allocated_fails_witness :
  returned (callable_call example_marshal native_succeeds
              (built info_fill_inout) [LuaUserdata 0; LuaUserdata 7]).2 = false.
Proof.
  apply (callable_call_inout_caller_allocated_fails example_marshal
           native_succeeds (built info_fill_inout)
           [LuaUserdata 0; LuaUserdata 7]
           (arg_param (mkGIArgInfo "buf" ti_struct GI_DIRECTION_INOUT
                                   GI_TRANSFER_NOTHING (-1) (-1) true) false)).
  - vm_compute. apply list_elem_of_here.
  - reflexivity.
  - reflexivity.
Defined.

(** *** Further properties of [closure_callback] *)

Lemma closure_base_prepare (cb : Callback) :
  exists target,
    (callback_prepare_call cb).1 = closure_base cb ++ target /\
    length target = (if (callback_prepare_call cb).2 then 1 else 0)%nat /\
    (callback_prepare_call cb).2 = negb (target_ref cb =? LUA_NOREF).
Proof.
  unfold callback_prepare_call, closure_base.
  destruct (target_ref cb =? LUA_NOREF); cbn [negb fst snd].
  - exists []. by rewrite app_nil_r.
  - exists [cb_target cb]. split; [|done].
    destruct (cb_status cb =? 0); cbn [negb]; [|done].
    rewrite length_app. cbn [length].
    replace (length (cb_stack cb) + 1 - 1)%nat with (length (cb_stack cb)) by lia.
    by rewrite take_app_length.
Qed.

Lemma closure_stacktop_base (closure : FfiClosure) :
  closure_stacktop closure =
    Z.of_nat (length (closure_base (callback closure))).
Proof.
  unfold closure_stacktop.
  destruct (closure_base_prepare (callback closure)) as (t & Hs & Ht & _).
  destruct (callback_prepare_call (callback closure)) as [s call].
  cbn [fst snd] in *. subst s. unfold lua_gettop. rewrite length_app, Ht.
  destruct call; lia.
Qed.

Lemma closure_callback_enter_stack m closure args st :
  closure_callback_enter m closure args = inr st ->
  exists pushed,
    st_stack st = closure_base (callback closure) ++ pushed.
Proof.
  unfold closure_callback_enter.
  destruct (closure_base_prepare (callback closure)) as (t & Hs & _).
  destruct (callback_prepare_call (callback closure)) as [s call].
  cbn [fst] in Hs. subst s.
  set (st0 := mkClosureState _ _ _ _).
  destruct (closure_callback_self m _ st0) as [st1|] eqn:E1; [|done].
  assert (S1 : exists e, st_stack st1 = st_stack st0 ++ e).
  { revert E1. unfold closure_callback_self. destruct (has_self _).
    - destruct (match ci_container_type _ with
                | GI_INFO_TYPE_FUNCTION => _ | _ => _ end); [|done].
      intros [= <-]. by eexists.
    - intros [= <-]. exists []. by rewrite app_nil_r. }
  destruct (for_params _ _ _ _) as [st2|] eqn:E2; [|done].
  intros [= <-].
  assert (S2 : exists e, st_stack st2 = st_stack st1 ++ e).
  { revert E2.
    apply (for_params_preserves
             (fun a b => exists e, st_stack b = st_stack a ++ e)).
    - intros a. exists []. by rewrite app_nil_r.
    - intros a b c [e1 H1] [e2 H2]. exists (e1 ++ e2).
      by rewrite H2, H1, (assoc_L (++)).
    - intros i p a b. unfold closure_callback_in.
      destruct (_ && _); intros [= <-]; [by eexists|].
      exists []. by rewrite app_nil_r. }
  destruct S1 as [e1 H1], S2 as [e2 H2].
  exists (t ++ e1 ++ e2). rewrite H2, H1. cbn [st_stack st0]. list_assoc.
Qed.


Lemma closure_callback_enter_body m closure args st :
  closure_callback_enter m closure args = inr st ->
  exists body, st_trace st = EvLock :: body /\ Forall body_event body.
Proof.
  unfold closure_callback_enter.
  destruct (callback_prepare_call (callback closure)) as [s call].
  set (st0 := mkClosureState _ _ _ _).
  destruct (closure_callback_self m _ st0) as [st1|] eqn:E1; [|done].
  assert (S1 : exists e, st_trace st1 = st_trace st0 ++ e /\
                         Forall body_event e).
  { revert E1. unfold closure_callback_self. destruct (has_self _).
    - destruct (match ci_container_type _ with
                | GI_INFO_TYPE_FUNCTION => _ | _ => _ end); [|done].
      intros [= <-]. eexists. split; [done|]. by repeat constructor.
    - intros [= <-]. exists []. by rewrite app_nil_r. }
  destruct (for_params _ _ _ _) as [st2|] eqn:E2; [|done].
  intros [= <-].
  assert (S2 : exists e, st_trace st2 = st_trace st1 ++ e /\
                         Forall body_event e).
  { revert E2.
    apply (for_params_preserves
             (fun a b => exists e, st_trace b = st_trace a ++ e /\
                                   Forall body_event e)).
    - intros a. exists []. by rewrite app_nil_r.
    - intros a b c (e1 & H1 & F1) (e2 & H2 & F2). exists (e1 ++ e2).
      split; [by rewrite H2, H1, (assoc_L (++))|by apply Forall_app].
    - intros i p a b. unfold closure_callback_in.
      destruct (_ && _); intros [= <-].
      + eexists. split; [done|]. by repeat constructor.
      + exists []. by rewrite app_nil_r. }
  destruct S1 as (e1 & H1 & F1), S2 as (e2 & H2 & F2).
  exists (e1 ++ e2). split; [|by apply Forall_app].
  by rewrite H2, H1, <- (assoc_L (++)).
Qed.



(** [closure_callback] once the target has run: either its error is
    thrown again, or the results (or the message) are marshalled from
    the stack made of the base and the values the target left. *)
Lemma closure_callback_after_target m lua_run closure args st status vals :
  closure_callback_enter m closure args = inr st ->
  lua_run (drop (Z.to_nat (closure_stacktop closure)) (st_stack st)) =
    (status, vals) ->
  let s := closure_base (callback closure) ++ vals in
  if closure_throws_again closure status then
    exists trace,
      closure_callback m lua_run closure args =
        mkClosureRun trace (mkNativeFrame None args None) s
                     (Raised (lua_index s (-1)))
  else
    exists res trace,
      (res = 0 /\
       (status = 0 \/
        target_ref (callback closure) = LUA_NOREF /\ status = LUA_YIELD) \/
       res = status /\ status <> 0 /\
       ~ (target_ref (callback closure) = LUA_NOREF /\ status = LUA_YIELD)) /\
      (exists body, trace = EvLock :: body /\ Forall body_event body) /\
      closure_callback m lua_run closure args =
        match closure_callback_marshal m (closure_callable closure) res
                (mkClosureState s (closure_stacktop closure + 1)
                                (mkNativeFrame None args None) trace) with
        | None =>
            closure_run_of
              (mkClosureState s (closure_stacktop closure + 1)
                              (mkNativeFrame None args None) trace) Undefined
        | Some st' =>
            mkClosureRun
              (closure_callback_leave closure (closure_stacktop closure) st').2
              (st_frame st')
              (closure_callback_leave closure (closure_stacktop closure) st').1
              (Returned [])
        end.
Proof.
  intros He Hrun. cbv zeta.
  pose proof (closure_callback_enter_frame m closure args st He) as Hf.
  destruct (closure_callback_enter_stack m closure args st He) as [pushed Hs].
  destruct (closure_callback_enter_body m closure args st He)
    as (body0 & Hb0 & Fb0).
  assert (Hsnoc : forall e, body_event e ->
            exists body, st_trace st ++ [e] = EvLock :: body /\
                         Forall body_event body).
  { intros e Hev. exists (body0 ++ [e]). rewrite Hb0. split; [done|].
    apply Forall_app. split; [done|]. by repeat constructor. }
  pose proof (closure_stacktop_base closure) as Htop.
  destruct (closure_base_prepare (callback closure)) as (_ & _ & _ & Hcall).
  unfold closure_callback. rewrite He.
  unfold closure_callback_invoke, closure_throws_again.
  rewrite Hrun, Hcall, Hf.
  replace (take (Z.to_nat (closure_stacktop closure)) (st_stack st))
    with (closure_base (callback closure))
    by (by rewrite Hs, Htop, Nat2Z.id, take_app_length).
  destruct (target_ref (callback closure) =? LUA_NOREF) eqn:Ht;
    cbn [negb].
  - destruct (status =? LUA_YIELD) eqn:Hy.
    + apply Z.eqb_eq in Hy, Ht.
      replace (status =? LUA_ERRRUN) with false by (by subst).
      rewrite andb_false_r.
      exists 0, (st_trace st ++ [EvLuaResume (st_npos st)]).
      split; [left; split; [done|by right]|].
      split; [by apply Hsnoc|].
      by destruct (closure_callback_marshal _ _ _ _) as [st'|];
        [destruct (closure_callback_leave _ _ _)|].
    + rewrite andb_comm.
      destruct ((status =? LUA_ERRRUN) && negb (throws _)); [by eexists|].
      exists status, (st_trace st ++ [EvLuaResume (st_npos st)]).
      apply Z.eqb_neq in Hy.
      split; [destruct (decide (status = 0)) as [->|H0];
              [left; by split; [|left] | right; by intuition]|].
      split; [by apply Hsnoc|].
      by destruct (closure_callback_marshal _ _ _ _) as [st'|];
        [destruct (closure_callback_leave _ _ _)|].
  - destruct (throws (closure_callable closure)); cbn [negb andb].
    + exists status, (st_trace st ++ [EvLuaPCall (st_npos st)]).
      apply Z.eqb_neq in Ht.
      split; [destruct (decide (status = 0)) as [->|H0];
              [left; by split; [|left] | right; by intuition]|].
      split; [by apply Hsnoc|].
      by destruct (closure_callback_marshal _ _ _ _) as [st'|];
        [destruct (closure_callback_leave _ _ _)|].
    + destruct (status =? 0) eqn:H0; cbn [negb]; [|by eexists].
      apply Z.eqb_eq in H0.
      exists 0, (st_trace st ++ [EvLuaCall (st_npos st)]).
      split; [left; split; [done|by left]|].
      split; [by apply Hsnoc|].
      by destruct (closure_callback_marshal _ _ _ _) as [st'|];
        [destruct (closure_callback_leave _ _ _)|].
Qed.


(** X10.  A resume that yields is treated as one that returns: with the
    same values left by the coroutine, the run is the same in every
    respect. *)
Theorem closure_callback_yield_is_return
    (m : Marshal) (lua_run lua_run' : lua_stack -> Z * lua_stack)
    (closure : FfiClosure) (args : list GIArgument) :
  target_ref (callback closure) = LUA_NOREF ->
  (forall s, (lua_run s).2 = (lua_run' s).2 /\
             (lua_run s).1 = LUA_YIELD /\ (lua_run' s).1 = 0) ->
  closure_callback m lua_run closure args =
  closure_callback m lua_run' closure args.
Proof. apply resume_yield_as_return. Qed.

Lemma closure_callback_yield_is_return_witness :
  closure_callback example_marshal (fun _ => (LUA_YIELD, [LuaInteger 5]))
                   (closure_on_thread info_callback_int) [] =
  closure_callback example_marshal (fun _ => (0, [LuaInteger 5]))
                   (closure_on_thread info_callback_int) [].
Proof.
  apply (closure_callback_yield_is_return example_marshal
           (fun _ => (LUA_YIELD, [LuaInteger 5]))
           (fun _ => (0, [LuaInteger 5]))
           (closure_on_thread info_callback_int) []).
  - reflexivity.
  - intros s. repeat split.
Defined.

(** X11.  The error of the target leaves [closure_callback] as a Lua
    error exactly when the callable does not throw and either the call
    failed or the resume failed with LUA_ERRRUN.  The error value is the
    one on top of the stack, and nothing was written to the native
    frame, neither return value nor output nor error. *)
Theorem closure_callback_raises_iff
    (m : Marshal) (lua_run : lua_stack -> Z * lua_stack)
    (closure : FfiClosure) (args : list GIArgument)
    (st : ClosureState) (status : Z) (vals : lua_stack) :
  closure_callback_enter m closure args = inr st ->
  lua_run (drop (Z.to_nat (closure_stacktop closure)) (st_stack st)) =
    (status, vals) ->
  let run := closure_callback m lua_run closure args in
  let s := closure_base (callback closure) ++ vals in
  if closure_throws_again closure status then
    run_outcome run = Raised (lua_index s (-1)) /\
    run_frame run = mkNativeFrame None args None /\
    run_stack run = s
  else forall v, run_outcome run <> Raised v.
Proof.
  intros He Hrun. cbv zeta.
  pose proof (closure_callback_after_target m lua_run closure args st status
                vals He Hrun) as H. cbv zeta in H.
  destruct (closure_throws_again closure status).
  - destruct H as [trace ->]. done.
  - destruct H as (res & trace & _ & _ & ->). intros v.
    by destruct (closure_callback_marshal _ _ _ _).
Qed.

Lemma closure_callback_raises_iff_witness :
  let run := closure_callback example_marshal
               (fun _ => (LUA_ERRRUN, [LuaString "bad"]))
               (closure_on_function info_callback_void) [] in
  run_outcome run = Raised (LuaString "bad") /\
  run_frame run = mkNativeFrame None [] None /\
  run_stack run = [LuaString "bad"].
Proof.
  apply (closure_callback_raises_iff example_marshal
           (fun _ => (LUA_ERRRUN, [LuaString "bad"]))
           (closure_on_function info_callback_void) []
           (mkClosureState [LuaFunction 1] 0 (mkNativeFrame None [] None)
                           [EvLock])
           LUA_ERRRUN [LuaString "bad"]); reflexivity.
Defined.





(** *** References *)

Lemma example_objlen_border : border example_refs.
Proof.
  intros reg. cbn [lua_objlen example_refs]. unfold example_objlen.
  assert (H : let n := map_fold (fun k (_ : lua_value) acc => Z.max k acc)
                                0 reg in
              0 <= n /\ (forall k v, reg !! k = Some v -> k <= n) /\
              (n = 0 \/ is_Some (reg !! n))).
  { apply (map_fold_weak_ind
             (fun n (m : gmap Z lua_value) =>
                0 <= n /\ (forall k v, m !! k = Some v -> k <= n) /\
                (n = 0 \/ is_Some (m !! n)))).
    - split; [done|]. split; [|by left].
      intros k v Hk. by rewrite lookup_empty in Hk.
    - intros i x m n Hi (H0 & Hle & Hn). split; [lia|]. split.
      + intros k v Hk. destruct (decide (k = i)) as [->|Hne]; [lia|].
        rewrite lookup_insert_ne in Hk by done. specialize (Hle k v Hk). lia.
      + destruct (Z.max_spec i n) as [[Hlt ->]|[Hge ->]].
        * destruct Hn as [->|[v Hv]]; [by left|]. right.
          exists v. rewrite lookup_insert_ne; [done|].
          intros ->. congruence.
        * right. exists x. apply lookup_insert_eq. }
  cbv zeta in H. destruct H as (H0 & Hle & Hn). split; [done|].
  split; [|done].
  match goal with |- ?t = None => destruct t as [v|] eqn:E; [|done] end.
  specialize (Hle _ v E). lia.
Qed.

Lemma lua_tointeger_link r reg k n :
  free_link reg k = Some n -> lua_tointeger r (lua_rawgeti k reg) = n.
Proof.
  unfold free_link, lua_rawgeti. destruct (reg !! k) as [[]|]; cbn; congruence.
Qed.

Lemma free_list_frame reg reg' l :
  forall h,
    (forall k, k ∈ l -> reg' !! k = reg !! k) ->
    free_list reg h l -> free_list reg' h l.
Proof.
  induction l as [|k l IH]; intros h Hsame; [done|].
  intros (-> & n & Hn & Hl). split; [done|]. exists n. split.
  - unfold free_link in *. rewrite Hsame; [done|apply list_elem_of_here].
  - apply IH; [|done]. intros j Hj. apply Hsame. by apply list_elem_of_further.
Qed.

Lemma lookup_rawseti k n v reg :
  lua_rawseti n v reg !! k =
    if decide (k = n) then (if bool_decide (v = LuaNil) then None else Some v)
    else reg !! k.
Proof.
  unfold lua_rawseti. case_bool_decide; destruct (decide (k = n)) as [->|Hne].
  - apply lookup_delete_eq.
  - by apply lookup_delete_ne.
  - apply lookup_insert_eq.
  - by apply lookup_insert_ne.
Qed.

(** Storing the value of slot [k] at key 0 makes the link of [k] the
    head. *)
Lemma free_link_head reg k n :
  free_link reg k = Some n ->
  free_link (lua_rawseti FREELIST_REF (lua_rawgeti k reg) reg) FREELIST_REF
    = Some n.
Proof.
  unfold free_link, lua_rawgeti. rewrite lookup_rawseti.
  rewrite decide_True by done.
  destruct (reg !! k) as [v|]; cbn [default].
  - destruct v; first [done | by rewrite bool_decide_eq_false_2].
  - by rewrite bool_decide_eq_true_2.
Qed.

(** One [luaL_ref] of a value that is not nil. *)
Lemma luaL_ref_free r v reg l :
  border r -> registry_free reg l -> v <> LuaNil ->
  exists l',
    registry_free (luaL_ref r v reg).2 l' /\
    0 < (luaL_ref r v reg).1 /\
    (luaL_ref r v reg).2 !! (luaL_ref r v reg).1 = Some v /\
    (forall k, k <> 0 -> k <> (luaL_ref r v reg).1 ->
               (luaL_ref r v reg).2 !! k = reg !! k) /\
    (l = (luaL_ref r v reg).1 :: l' \/
     l = [] /\ l' = [] /\ reg !! (luaL_ref r v reg).1 = None).
Proof.
  intros Hb ((h & Hh & Hl) & Hnd & Hpos) Hv. unfold luaL_ref.
  rewrite bool_decide_eq_false_2 by done.
  rewrite (lua_tointeger_link r reg FREELIST_REF h Hh).
  destruct l as [|k l'].
  - cbn in Hl. subst h. change (negb (0 =? 0)) with false. cbv iota.
    destruct (Hb reg) as (H0 & Hnone & _). cbn [fst snd].
    set (n := lua_objlen r reg + 1) in *.
    exists []. split; [|split; [lia|split; [|split]]].
    + split; [|split; [constructor|constructor]].
      exists 0. split; [|done]. unfold free_link in *.
      rewrite lookup_rawseti, decide_False by (unfold FREELIST_REF; lia). done.
    + rewrite lookup_rawseti, decide_True by done.
      by rewrite bool_decide_eq_false_2.
    + intros j _ Hj. by rewrite lookup_rawseti, decide_False.
    + right. done.
  - cbn [free_list] in Hl. destruct Hl as (-> & n & Hn & Hl).
    apply NoDup_cons in Hnd as [Hk Hnd].
    apply Forall_cons in Hpos as [Hk0 Hpos].
    replace (negb (k =? 0)) with true
      by (symmetry; apply negb_true_iff, Z.eqb_neq; lia).
    cbv iota. cbn [fst snd].
    exists l'. split; [|split; [done|split; [|split]]].
    + split; [|done]. exists n. split.
      * unfold free_link. rewrite lookup_rawseti.
        rewrite decide_False by (unfold FREELIST_REF; lia).
        by apply free_link_head.
      * apply (free_list_frame reg); [|done]. intros j Hj.
        assert (j <> k) by (intros ->; done).
        assert (0 < j) by (by eapply Forall_forall in Hpos).
        rewrite !lookup_rawseti.
        rewrite decide_False by done.
        rewrite decide_False by (unfold FREELIST_REF; lia). done.
    + rewrite lookup_rawseti, decide_True by done.
      by rewrite bool_decide_eq_false_2.
    + intros j Hj0 Hj. rewrite !lookup_rawseti.
      rewrite decide_False by done. by rewrite decide_False.
    + by left.
Qed.

(** One [luaL_unref] of a positive reference that is not free. *)
Lemma luaL_unref_free ref reg l :
  registry_free reg l -> 0 < ref -> ref ∉ l ->
  registry_free (luaL_unref ref reg) (ref :: l) /\
  (forall k, k <> 0 -> k <> ref -> luaL_unref ref reg !! k = reg !! k).
Proof.
  intros ((h & Hh & Hl) & Hnd & Hpos) Href Hnot. unfold luaL_unref.
  rewrite (proj2 (Z.leb_le _ _)) by lia. split.
  - split; [|split; [by constructor|by constructor]].
    exists ref. split.
    + unfold free_link. rewrite lookup_rawseti, decide_True by done.
      by rewrite bool_decide_eq_false_2.
    + cbn [free_list]. split; [done|]. exists h. split.
      * unfold free_link in *. rewrite !lookup_rawseti.
        rewrite decide_False by (unfold FREELIST_REF; lia).
        rewrite decide_True by done. unfold lua_rawgeti.
        destruct (reg !! FREELIST_REF) as [v|]; cbn [default].
        -- destruct v; first [done | by rewrite bool_decide_eq_false_2].
        -- by rewrite bool_decide_eq_true_2.
      * apply (free_list_frame reg); [|done]. intros j Hj.
        assert (j <> ref) by (intros ->; done).
        assert (0 < j) by (by eapply Forall_forall in Hpos).
        rewrite !lookup_rawseti.
        rewrite decide_False by (unfold FREELIST_REF; lia).
        by rewrite decide_False.
  - intros j Hj0 Hj. rewrite !lookup_rawseti.
    rewrite decide_False by done. by rewrite decide_False.
Qed.

Lemma holding_start reg l : registry_free reg l -> holding reg l reg l ∅.
Proof.
  intros Hf. split; [done|]. split; [set_solver|]. split; [by left|].
  split; [done|]. intros k [Hk|Hk] Hn; [done|set_solver].
Qed.

Lemma holding_end reg0 l0 reg l T :
  holding reg0 l0 reg l T -> (forall k, k ∉ T) ->
  registry_free reg l /\ same_references reg0 reg l0 l.
Proof.
  intros (Hf & HT & HA & HB & HC) Hemp. split; [done|]. split; [|split].
  - intros k Hk. destruct (HA k Hk) as [?|Hk']; [done|]. by apply Hemp in Hk'.
  - intros k Hk0 Hk. apply HB; [done..|apply Hemp].
  - intros k Hk Hn. apply HC; [by left|done].
Qed.

Lemma holding_ext reg0 l0 reg l T T' :
  (forall k, k ∈ T' <-> k ∈ T) ->
  holding reg0 l0 reg l T -> holding reg0 l0 reg l T'.
Proof.
  intros HTT (Hf & HT & HA & HB & HC). split; [done|]. split; [|split; [|split]].
  - intros k Hk. apply HT. by apply HTT.
  - intros k Hk. destruct (HA k Hk); [by left|right; by apply HTT].
  - intros k Hk0 Hk Hn. apply HB; [done..|]. intros Hin. by apply Hn, HTT.
  - intros k [Hk|Hk] Hn; apply HC; try done; [by left|right; by apply HTT].
Qed.

(** [luaL_ref] while references are held: the reference it hands out
    is none of them, and their slots stay as they are. *)
Lemma luaL_ref_holding r v reg0 l0 reg l T :
  border r -> holding reg0 l0 reg l T -> v <> LuaNil ->
  exists l',
    holding reg0 l0 (luaL_ref r v reg).2 l' ({[ (luaL_ref r v reg).1 ]} ∪ T) /\
    ((luaL_ref r v reg).1 ∉ T) /\
    0 < (luaL_ref r v reg).1 /\
    (luaL_ref r v reg).2 !! (luaL_ref r v reg).1 = Some v /\
    (forall k, k ∈ T -> (luaL_ref r v reg).2 !! k = reg !! k).
Proof.
  intros Hb (Hf & HT & HA & HB & HC) Hv.
  destruct (luaL_ref_free r v reg l Hb Hf Hv)
    as (l' & Hf' & Hpos & Hget & Hsame & Hl).
  set (ref := (luaL_ref r v reg).1) in *.
  set (reg' := (luaL_ref r v reg).2) in *.
  assert (HrefT : ref ∉ T).
  { intros Hin. destruct (HT ref Hin) as (_ & Hnl & Hs).
    destruct Hl as [->|(_ & _ & Hnone)].
    - apply Hnl, list_elem_of_here.
    - rewrite Hnone in Hs. by destruct Hs. }
  assert (Hsub : forall k, k ∈ l' -> k ∈ l).
  { intros k Hk. destruct Hl as [->|(_ & -> & _)];
      [by apply list_elem_of_further|by apply elem_of_nil in Hk]. }
  assert (Hout : forall k, k ∉ l' -> k <> ref -> k ∉ l).
  { intros k Hk Hne Hin. destruct Hl as [->|(-> & _ & _)].
    - apply elem_of_cons in Hin as [?|?]; done.
    - by apply elem_of_nil in Hin. }
  assert (HkeepT : forall k, k ∈ T -> reg' !! k = reg !! k).
  { intros k Hk. destruct (HT k Hk) as (Hk0 & _ & _).
    apply Hsame; [lia|]. intros ->. done. }
  exists l'. split; [|done].
  split; [done|]. split; [|split; [|split]].
  - intros k Hk. apply elem_of_union in Hk as [Hk|Hk].
    + apply elem_of_singleton in Hk as ->. split; [done|]. split; [|by eexists].
      destruct Hf as (_ & Hnd & _). destruct Hl as [->|(_ & -> & _)].
      * by apply NoDup_cons in Hnd as [? _].
      * apply not_elem_of_nil.
    + destruct (HT k Hk) as (Hk0 & Hnl & Hs). split; [done|].
      split; [by intros ?%Hsub|]. by rewrite HkeepT.
  - intros k Hk. destruct (HA k Hk) as [Hin|Hin];
      [|right; apply elem_of_union; by right].
    destruct Hl as [->|(-> & _ & _)].
    + apply elem_of_cons in Hin as [->|?]; [right|by left].
      apply elem_of_union. left. by apply elem_of_singleton.
    + by apply elem_of_nil in Hin.
  - intros k Hk0 Hk Hn.
    assert (k <> ref)
      by (intros ->; apply Hn, elem_of_union; left; by apply elem_of_singleton).
    rewrite Hsame by done. apply HB; [done|by apply Hout|].
    intros ?. apply Hn, elem_of_union. by right.
  - intros k Hk Hn. destruct Hk as [Hk|Hk].
    + apply HC; [left; by apply Hsub|done].
    + apply elem_of_union in Hk as [Hk|Hk]; [|apply HC; [by right|done]].
      apply elem_of_singleton in Hk as ->.
      destruct Hl as [->|(-> & _ & Hnone)].
      * apply HC; [left; apply list_elem_of_here|done].
      * rewrite <- Hnone. symmetry. apply HB; [lia|apply not_elem_of_nil|done].
Qed.

(** [luaL_unref] of a reference that is held, or of one that is
    negative. *)
Lemma luaL_unref_holding ref reg0 l0 reg l T :
  holding reg0 l0 reg l T -> ref ∈ T \/ ref < 0 ->
  exists l',
    holding reg0 l0 (luaL_unref ref reg) l' (T ∖ {[ ref ]}) /\
    (forall k, k ∈ l -> k ∈ l') /\
    (0 <= ref -> ref ∈ l').
Proof.
  intros (Hf & HT & HA & HB & HC) [Hin|Hneg].
  - destruct (HT ref Hin) as (Hpos & Hnl & _).
    destruct (luaL_unref_free ref reg l Hf Hpos Hnl) as [Hf' Hsame].
    exists (ref :: l). split; [|split].
    + split; [done|]. split; [|split; [|split]].
      * intros k Hk. apply elem_of_difference in Hk as [Hk Hne].
        rewrite elem_of_singleton in Hne.
        destruct (HT k Hk) as (Hk0 & Hknl & Hs). split; [done|]. split.
        -- intros [->|?]%elem_of_cons; done.
        -- rewrite Hsame; [done|lia|done].
      * intros k Hk. destruct (HA k Hk) as [?|HkT].
        -- left. by apply list_elem_of_further.
        -- destruct (decide (k = ref)) as [->|Hne];
             [left; apply list_elem_of_here|right].
           apply elem_of_difference. by rewrite elem_of_singleton.
      * intros k Hk0 Hk Hn.
        assert (k <> ref) by (intros ->; apply Hk, list_elem_of_here).
        rewrite Hsame by done. apply HB; [done| |].
        ++ intros ?. by apply Hk, list_elem_of_further.
        ++ intros ?. apply Hn, elem_of_difference.
           by rewrite elem_of_singleton.
      * intros k [Hk|Hk] Hn.
        -- apply elem_of_cons in Hk as [->|Hk];
             apply HC; [by right|done|by left|done].
        -- apply elem_of_difference in Hk as [Hk _].
           apply HC; [by right|done].
    + intros k Hk. by apply list_elem_of_further.
    + intros _. apply list_elem_of_here.
  - unfold luaL_unref. rewrite (proj2 (Z.leb_gt _ _)) by lia.
    exists l. split; [|split; [done|lia]].
    apply (holding_ext _ _ _ _ T); [|done].
    intros k. rewrite elem_of_difference, elem_of_singleton. split; [tauto|].
    intros Hk. split; [done|]. intros ->. destruct (HT _ Hk). lia.
Qed.

Lemma luaL_ref_nil r reg : luaL_ref r LuaNil reg = (LUA_REFNIL, reg).
Proof. unfold luaL_ref. by rewrite bool_decide_eq_true_2. Qed.

(** [luaL_ref] of any value: nil takes no slot. *)
Lemma luaL_ref_holding_any r v reg0 l0 reg l T :
  border r -> holding reg0 l0 reg l T ->
  exists l' T',
    holding reg0 l0 (luaL_ref r v reg).2 l' T' /\
    (forall k, k ∈ T' <->
               k ∈ T \/ k = (luaL_ref r v reg).1 /\ 0 < (luaL_ref r v reg).1) /\
    ((luaL_ref r v reg).1 ∉ T) /\
    (luaL_ref r v reg).1 <> 0 /\
    (v <> LuaNil ->
     0 < (luaL_ref r v reg).1 /\
     (luaL_ref r v reg).2 !! (luaL_ref r v reg).1 = Some v) /\
    (forall k, k ∈ T -> (luaL_ref r v reg).2 !! k = reg !! k).
Proof.
  intros Hb Hh. destruct (decide (v = LuaNil)) as [->|Hv].
  - rewrite luaL_ref_nil. cbn [fst snd]. exists l, T.
    split; [done|]. split; [|split; [|split; [done|split; [done|done]]]].
    + intros k. split; [by left|]. intros [?|[_ ?]]; [done|]. by exfalso.
    + intros Hin. destruct Hh as (_ & HT & _). destruct (HT _ Hin) as [? _].
      unfold LUA_REFNIL in *. lia.
  - destruct (luaL_ref_holding r v reg0 l0 reg l T Hb Hh Hv)
      as (l' & Hh' & Hn & Hpos & Hget & Hkeep).
    exists l', ({[ (luaL_ref r v reg).1 ]} ∪ T).
    split; [done|]. split; [|split; [done|split; [lia|split; [done|done]]]].
    intros k. rewrite elem_of_union, elem_of_singleton. split.
    + intros [->|?]; [by right|by left].
    + intros [?|[-> _]]; [by right|by left].
Qed.

(** [callback_create] while references are held. *)
Lemma callback_create_holding r s target thread reg0 l0 reg l T :
  border r -> holding reg0 l0 reg l T ->
  let cb := callback_create_refs r s target thread reg in
  let tref := target_ref (cbr_callback cb.1) in
  let thref := thread_ref cb.1 in
  exists l' T',
    holding reg0 l0 cb.2 l' T' /\
    (forall k, k ∈ T' <->
               k ∈ T \/ k = tref /\ 0 < tref \/ k = thref /\ 0 < thref) /\
    (tref ∉ T) /\ (thref ∉ T) /\ tref <> 0 /\ thref <> 0 /\
    (thref <> tref \/ thref < 0) /\
    cbr_callback cb.1 = callback_create s target tref thread /\
    (lua_isthread s target = true -> tref = LUA_NOREF) /\
    (lua_isthread s target = false -> lua_index s target <> LuaNil ->
     0 < tref /\ cb.2 !! tref = Some (lua_index s target)) /\
    (thread <> LuaNil -> 0 < thref /\ cb.2 !! thref = Some thread) /\
    (forall k, k ∈ T -> cb.2 !! k = reg !! k).
Proof.
  intros Hb Hh. cbv zeta. unfold callback_create_refs, callback_create.
  destruct (lua_isthread s target) eqn:Ht.
  - destruct (luaL_ref_holding_any r thread reg0 l0 reg l T Hb Hh)
      as (l' & T' & Hh' & HT' & Hn & H0 & Hv & Hkeep).
    destruct (luaL_ref r thread reg) as [thref reg2].
    cbn [fst snd cbr_callback thread_ref target_ref] in *.
    exists l', T'. split; [done|]. split.
    { intros k. rewrite HT'. unfold LUA_NOREF. split.
      - intros [?|?]; [by left|by right; right].
      - intros [?|[[_ ?]|?]]; [by left|lia|by right]. }
    split.
    { intros Hin. destruct Hh as (_ & HT & _). destruct (HT _ Hin) as [? _].
      unfold LUA_NOREF in *. lia. }
    split; [done|]. split; [done|]. split; [done|].
    split; [destruct (decide (thref = LUA_NOREF)) as [->|?];
              [right; unfold LUA_NOREF; lia|by left]|].
    split; [done|]. split; [done|]. split; [done|]. split; done.
  - destruct (luaL_ref_holding_any r (lua_index s target) reg0 l0 reg l T Hb Hh)
      as (l1 & T1 & Hh1 & HT1 & Hn1 & H01 & Hv1 & Hkeep1).
    destruct (luaL_ref r (lua_index s target) reg) as [tref reg1].
    cbn [fst snd] in *.
    destruct (luaL_ref_holding_any r thread reg0 l0 reg1 l1 T1 Hb Hh1)
      as (l2 & T2 & Hh2 & HT2 & Hn2 & H02 & Hv2 & Hkeep2).
    destruct (luaL_ref r thread reg1) as [thref reg2].
    cbn [fst snd cbr_callback thread_ref target_ref] in *.
    exists l2, T2. split; [done|]. split.
    { intros k. rewrite HT2, HT1. tauto. }
    split; [done|]. split.
    { intros Hin. apply Hn2, HT1. by left. }
    split; [done|]. split; [done|]. split.
    { destruct (decide (thref = tref)) as [->|?]; [|by left]. right.
      destruct (Z_lt_le_dec tref 0) as [?|Hge]; [done|]. exfalso.
      apply Hn2, HT1. right. split; [done|lia]. }
    split; [done|]. split; [done|]. split.
    { intros _ Hnil. destruct (Hv1 Hnil) as [Hpos Hget]. split; [done|].
      rewrite Hkeep2; [done|]. apply HT1. right. by split. }
    split; [done|].
    intros k Hk. rewrite Hkeep2; [by apply Hkeep1|]. apply HT1. by left.
Qed.

(** [callback_destroy] of references that are held. *)
Lemma callback_destroy_holding cb reg0 l0 reg l T :
  holding reg0 l0 reg l T ->
  let tref := target_ref (cbr_callback cb) in
  let thref := thread_ref cb in
  tref ∈ T \/ tref < 0 -> thref ∈ T \/ thref < 0 ->
  thref <> tref \/ thref < 0 ->
  exists l',
    holding reg0 l0 (callback_destroy cb reg) l' ((T ∖ {[ tref ]}) ∖ {[ thref ]}) /\
    (forall k, k ∈ l -> k ∈ l') /\
    (0 <= tref -> tref ∈ l') /\ (0 <= thref -> thref ∈ l').
Proof.
  intros Hh tref thref Ht Hth Hne. unfold callback_destroy.
  destruct (luaL_unref_holding tref reg0 l0 reg l T Hh Ht)
    as (l1 & Hh1 & Hsub1 & Hin1). fold tref thref.
  assert (Hth1 : thref ∈ T ∖ {[ tref ]} \/ thref < 0).
  { destruct Hth as [Hin|?]; [|by right]. destruct Hne as [?|?]; [|by right].
    left. apply elem_of_difference. by rewrite elem_of_singleton. }
  destruct (luaL_unref_holding thref reg0 l0 _ l1 _ Hh1 Hth1)
    as (l2 & Hh2 & Hsub2 & Hin2).
  exists l2. split; [done|]. split; [|split; [|done]].
  - intros k Hk. by apply Hsub2, Hsub1.
  - intros H0. by apply Hsub2, Hin1.
Qed.

Lemma mkCallbackRefs_eta cb :
  mkCallbackRefs (cbr_callback cb) (thread_ref cb) = cb.
Proof. by destruct cb. Qed.

Lemma example_registry_free : registry_free (cl_registry example_closure_lua) [3; 2].
Proof.
  split; [|split].
  - exists 3. split; [done|]. split; [done|]. exists 2. split; [done|].
    split; [done|]. exists 0. by split.
  - apply (bool_decide_unpack _). by vm_compute.
  - by repeat constructor.
Qed.

(** X14.  A callback holds its target under [target_ref] and its thread
    under [thread_ref] while it lives; a thread target takes no
    reference of its own (LUA_NOREF).  [callback_destroy] puts the
    references it releases on the free list of the registry, and the
    registry then holds the references it held before the callback was
    created, in the slots they had; the free list is well formed again.
    [lgi_gclosure_finalize] does this to the callback of a GClosure. *)
Theorem callback_create_destroy_registry
    (r : RefEnv) (s : lua_stack) (target : Z) (thread : lua_value)
    (reg : gmap Z lua_value) (l : list Z) :
  border r -> registry_free reg l ->
  let cb := callback_create_refs r s target thread reg in
  let tref := target_ref (cbr_callback cb.1) in
  let reg' := callback_destroy cb.1 cb.2 in
  (exists l',
     registry_free reg' l' /\ same_references reg reg' l l' /\
     (0 <= tref -> tref ∈ l') /\
     (0 <= thread_ref cb.1 -> thread_ref cb.1 ∈ l')) /\
  (lua_isthread s target = true -> tref = LUA_NOREF) /\
  (lua_isthread s target = false -> lua_index s target <> LuaNil ->
   cb.2 !! tref = Some (lua_index s target)) /\
  (thread <> LuaNil -> cb.2 !! thread_ref cb.1 = Some thread) /\
  (lua_isthread s target = false -> lua_index s target <> LuaNil ->
   thread <> LuaNil -> thread_ref cb.1 <> tref).
Proof.
  intros Hb Hf. cbv zeta.
  destruct (callback_create_holding r s target thread reg l reg l ∅ Hb
              (holding_start reg l Hf))
    as (l1 & T1 & Hh1 & HT1 & _ & _ & Ht0 & Hth0 & Hne & _ & Hthr & Htg & Hthd
        & _).
  cbv zeta in *.
  set (cb := callback_create_refs r s target thread reg) in *.
  split; [|split; [done|split; [|split]]].
  - destruct (callback_destroy_holding cb.1 reg l cb.2 l1 T1 Hh1)
      as (l2 & Hh2 & _ & Hin1 & Hin2).
    + destruct (Z_lt_le_dec (target_ref (cbr_callback cb.1)) 0); [by right|].
      left. apply HT1. right. left. split; [done|lia].
    + destruct (Z_lt_le_dec (thread_ref cb.1) 0); [by right|].
      left. apply HT1. right. right. split; [done|lia].
    + done.
    + exists l2. destruct (holding_end _ _ _ _ _ Hh2) as [Hf2 Hs2]; [|done].
      intros k Hk. apply elem_of_difference in Hk as [Hk Hn2].
      apply elem_of_difference in Hk as [Hk Hn1].
      rewrite elem_of_singleton in Hn1, Hn2.
      apply HT1 in Hk as [Hk|[[? _]|[? _]]]; [|done..].
      by apply elem_of_empty in Hk.
  - intros Ht Hnil. by apply Htg.
  - intros Hnil. by apply Hthd.
  - intros Ht Hnil Hnil'. destruct Hne as [?|?]; [done|].
    destruct (Hthd Hnil') as [? _]. lia.
Qed.

Lemma callback_create_destroy_registry_witness :
  let reg := cl_registry example_closure_lua in
  let cb := callback_create_refs example_refs [LuaFunction 1] 1 (LuaThread 0)
                                 reg in
  let tref := target_ref (cbr_callback cb.1) in
  let reg' := callback_destroy cb.1 cb.2 in
  (exists l',
     registry_free reg' l' /\ same_references reg reg' [3; 2] l' /\
     (0 <= tref -> tref ∈ l') /\
     (0 <= thread_ref cb.1 -> thread_ref cb.1 ∈ l')) /\
  (lua_isthread [LuaFunction 1] 1 = true -> tref = LUA_NOREF) /\
  (lua_isthread [LuaFunction 1] 1 = false ->
   lua_index [LuaFunction 1] 1 <> LuaNil ->
   cb.2 !! tref = Some (lua_index [LuaFunction 1] 1)) /\
  (LuaThread 0 <> LuaNil -> cb.2 !! thread_ref cb.1 = Some (LuaThread 0)) /\
  (lua_isthread [LuaFunction 1] 1 = false ->
   lua_index [LuaFunction 1] 1 <> LuaNil ->
   LuaThread 0 <> LuaNil -> thread_ref cb.1 <> tref).
Proof.
  apply (callback_create_destroy_registry example_refs [LuaFunction 1] 1
           (LuaThread 0) (cl_registry example_closure_lua) [3; 2]).
  - apply example_objlen_border.
  - apply example_registry_free.
Defined.

(** *** Closures *)

(** The parts of a successful [lgi_closure_create]. *)
Lemma lgi_closure_create_ok env L ci s target ad c L' :
  lgi_closure_create env L ci s target ad = Some (LuaOk c, L') ->
  exists ud callable,
    lgi_callable_create (cc_env env) (cl_lua L) ci 0 = (LuaOk ud, cl_lua L') /\
    ls_userdata (cl_lua L') !! ud = Some callable /\
    ffi_closure_alloc env = true /\
    ffi_prep_closure_loc env (cif callable) = true /\
    let r1 := luaL_ref (cc_refs env) (LuaUserdata ud) (cl_registry L) in
    let r2 := callback_create_refs (cc_refs env) s target
                                   (LuaThread (cc_thread env)) r1.2 in
    c = mkFfiClosureRefs (mkFfiClosure callable (cbr_callback r2.1) ad)
                         r1.1 (thread_ref r2.1) /\
    cl_registry L' = r2.2.
Proof.
  unfold lgi_closure_create.
  destruct (lgi_callable_create _ _ _ _) as [[ud|msg] lua]; [|done].
  destruct (ls_userdata lua !! ud) as [callable|] eqn:Hu; [|done].
  destruct (ffi_closure_alloc env) eqn:Ha; [|done]. cbn [negb].
  destruct (luaL_ref _ _ _) as [cref reg1] eqn:E1.
  destruct (callback_create_refs _ _ _ _ _) as [cb reg2] eqn:E2.
  destruct (ffi_prep_closure_loc env (cif callable)) eqn:Hp;
    cbv beta iota zeta; [|intros [=]].
  intros [= <- <-]. exists ud, callable. cbn [cl_lua cl_registry].
  rewrite E1. cbn [fst snd]. by rewrite E2.
Qed.

(** The three references of a closure, taken on a registry with a well
    formed free list. *)
Lemma closure_refs_holding r s target thread ud reg l :
  border r -> registry_free reg l ->
  let r1 := luaL_ref r (LuaUserdata ud) reg in
  let r2 := callback_create_refs r s target thread r1.2 in
  let cref := r1.1 in
  let tref := target_ref (cbr_callback r2.1) in
  let thref := thread_ref r2.1 in
  exists l' T',
    holding reg l r2.2 l' T' /\
    (forall k, k ∈ T' <->
               k = cref \/ k = tref /\ 0 < tref \/ k = thref /\ 0 < thref) /\
    0 < cref /\ tref <> cref /\ thref <> cref /\ tref <> 0 /\ thref <> 0 /\
    (thref <> tref \/ thref < 0) /\
    r2.2 !! cref = Some (LuaUserdata ud) /\
    (lua_isthread s target = true -> tref = LUA_NOREF) /\
    (lua_isthread s target = false -> lua_index s target <> LuaNil ->
     0 < tref /\ r2.2 !! tref = Some (lua_index s target)) /\
    (thread <> LuaNil -> 0 < thref /\ r2.2 !! thref = Some thread).
Proof.
  intros Hb Hf. cbv zeta.
  destruct (luaL_ref_holding r (LuaUserdata ud) reg l reg l ∅ Hb
              (holding_start reg l Hf))
    as (l1 & Hh1 & _ & Hpos & Hget & _); [done|].
  destruct (callback_create_holding r s target thread reg l
              (luaL_ref r (LuaUserdata ud) reg).2 l1 _ Hb Hh1)
    as (l2 & T2 & Hh2 & HT2 & Hn1 & Hn2 & Ht0 & Hth0 & Hne & _ & Hthr & Htg
        & Hthd & Hkeep).
  cbv zeta in *. exists l2, T2. split; [done|]. split.
  { intros k. rewrite HT2, elem_of_union, elem_of_singleton.
    split; [intros [[?|Hk]|?]|intros [?|?]]; try tauto.
    by apply elem_of_empty in Hk. }
  split; [done|]. split.
  { intros E. apply Hn1. rewrite E. apply elem_of_union. left.
    by apply elem_of_singleton. }
  split.
  { intros E. apply Hn2. rewrite E. apply elem_of_union. left.
    by apply elem_of_singleton. }
  split; [done|]. split; [done|]. split; [done|]. split.
  { rewrite Hkeep; [done|]. apply elem_of_union. left.
    by apply elem_of_singleton. }
  split; [done|]. split; done.
Qed.

(** [lgi_closure_destroy] of the three references. *)
Lemma lgi_closure_destroy_holding c reg0 l0 reg l T :
  holding reg0 l0 reg l T ->
  let cref := callable_ref c in
  let tref := target_ref (callback (fc_closure c)) in
  let thref := fc_thread_ref c in
  (forall k, k ∈ T <->
             k = cref \/ k = tref /\ 0 < tref \/ k = thref /\ 0 < thref) ->
  0 < cref -> tref <> cref -> thref <> cref -> tref <> 0 -> thref <> 0 ->
  thref <> tref \/ thref < 0 ->
  exists l',
    registry_free (lgi_closure_destroy c reg) l' /\
    same_references reg0 (lgi_closure_destroy c reg) l0 l' /\
    cref ∈ l' /\ (0 <= tref -> tref ∈ l') /\ (0 <= thref -> thref ∈ l').
Proof.
  intros Hh cref tref thref HT Hpos Hn1 Hn2 Ht0 Hth0 Hne.
  unfold lgi_closure_destroy. fold cref thref.
  destruct (luaL_unref_holding cref reg0 l0 reg l T Hh)
    as (l1 & Hh1 & _ & Hin1); [left; apply HT; by left|].
  set (cb := mkCallbackRefs (callback (fc_closure c)) thref).
  destruct (callback_destroy_holding cb reg0 l0 _ l1 _ Hh1)
    as (l2 & Hh2 & Hsub & Hin2 & Hin3); cbn [cb cbr_callback thread_ref].
  - fold tref. destruct (Z_lt_le_dec tref 0); [by right|]. left.
    apply elem_of_difference. rewrite elem_of_singleton. split; [|done].
    apply HT. right. left. split; [done|lia].
  - destruct (Z_lt_le_dec thref 0); [by right|]. left.
    apply elem_of_difference. rewrite elem_of_singleton. split; [|done].
    apply HT. right. right. split; [done|lia].
  - done.
  - cbn [cb cbr_callback thread_ref] in *. fold tref in Hh2, Hin2.
    exists l2. destruct (holding_end _ _ _ _ _ Hh2) as [Hf2 Hs2].
    { intros k Hk. apply elem_of_difference in Hk as [Hk Hk3].
      apply elem_of_difference in Hk as [Hk Hk2].
      apply elem_of_difference in Hk as [Hk Hk1].
      rewrite elem_of_singleton in Hk1, Hk2, Hk3.
      apply HT in Hk as [?|[[? _]|[? _]]]; done. }
    split; [done|]. split; [done|]. split; [|done].
    apply Hsub, Hin1. lia.
Qed.

(** The cache entry of the Callable a closure is created for. *)
Lemma lgi_callable_create_cache_entry env lua ci ud lua' :
  lgi_callable_create env lua ci 0 = (LuaOk ud, lua') ->
  ls_callable_cache lua' !! callable_cache_key ci = Some ud.
Proof.
  unfold lgi_callable_create.
  destruct (ls_callable_cache lua !! callable_cache_key ci) as [u|] eqn:E.
  - by intros [= <- <-].
  - destruct (callable_build _ _ _); [|done].
    intros [= <- <-]. apply lookup_insert_eq.
Qed.

(** What a closure holds while it lives. *)
Lemma lgi_closure_create_holds env L ci s target ad c L' l :
  border (cc_refs env) -> registry_free (cl_registry L) l ->
  lgi_closure_create env L ci s target ad = Some (LuaOk c, L') ->
  exists ud l' T',
    holding (cl_registry L) l (cl_registry L') l' T' /\
    callable_ref c ∈ T' /\
    cl_registry L' !! callable_ref c = Some (LuaUserdata ud) /\
    ls_userdata (cl_lua L') !! ud = Some (closure_callable (fc_closure c)) /\
    ls_callable_cache (cl_lua L') !! callable_cache_key ci = Some ud.
Proof.
  intros Hb Hf Hc.
  destruct (lgi_closure_create_ok env L ci s target ad c L' Hc)
    as (ud & callable & Hcr & Hu & _ & _ & -> & Hreg).
  destruct (closure_refs_holding (cc_refs env) s target
              (LuaThread (cc_thread env)) ud (cl_registry L) l Hb Hf)
    as (l' & T' & Hh & HT & _ & _ & _ & _ & _ & _ & Hget & _).
  cbv zeta in *. rewrite Hreg.
  cbn [fc_closure callable_ref closure_callable].
  exists ud, l', T'. split; [done|]. split; [apply HT; by left|].
  split; [done|]. split; [done|].
  by eapply lgi_callable_create_cache_entry.
Qed.

(** X15.  A closure [lgi_closure_create] returns holds its references
    in the registry while it lives, each in a slot of its own: one to
    the Callable userdata (which the cache names for the description),
    one to the thread and, unless the target is a thread
    ([target_ref] is then LUA_NOREF), one to the target.
    [lgi_closure_destroy] puts them on the free list of the registry,
    which then holds the references it held before the closure was
    created, in the slots they had.  The closure carries the autodestroy
    flag it was created with. *)
Theorem lgi_closure_create_destroy_registry
    (env : ClosureCreateEnv) (L L' : ClosureLua) (ci : GICallableInfo)
    (s : lua_stack) (target : Z) (ad : bool) (c : FfiClosureRefs)
    (l : list Z) :
  border (cc_refs env) -> registry_free (cl_registry L) l ->
  lgi_closure_create env L ci s target ad = Some (LuaOk c, L') ->
  let tref := target_ref (callback (fc_closure c)) in
  let reg' := lgi_closure_destroy c (cl_registry L') in
  (exists l',
     registry_free reg' l' /\ same_references (cl_registry L) reg' l l' /\
     callable_ref c ∈ l' /\ fc_thread_ref c ∈ l' /\
     (0 <= tref -> tref ∈ l')) /\
  (exists ud,
     cl_registry L' !! callable_ref c = Some (LuaUserdata ud) /\
     ls_userdata (cl_lua L') !! ud = Some (closure_callable (fc_closure c)) /\
     ls_callable_cache (cl_lua L') !! callable_cache_key ci = Some ud) /\
  cl_registry L' !! fc_thread_ref c = Some (LuaThread (cc_thread env)) /\
  fc_thread_ref c <> callable_ref c /\
  (if lua_isthread s target then tref = LUA_NOREF
   else lua_index s target <> LuaNil ->
        cl_registry L' !! tref = Some (lua_index s target) /\
        tref <> callable_ref c /\ tref <> fc_thread_ref c) /\
  autodestroy (fc_closure c) = ad.
Proof.
  intros Hb Hf Hc. cbv zeta.
  destruct (lgi_closure_create_ok env L ci s target ad c L' Hc)
    as (ud & callable & Hcr & Hu & _ & _ & -> & Hreg).
  destruct (closure_refs_holding (cc_refs env) s target
              (LuaThread (cc_thread env)) ud (cl_registry L) l Hb Hf)
    as (l1 & T1 & Hh & HT & Hpos & Hn1 & Hn2 & Ht0 & Hth0 & Hne & Hget & Hthr
        & Htg & Hthd).
  cbv zeta in *. rewrite Hreg.
  cbn [fc_closure callable_ref fc_thread_ref callback closure_callable
       autodestroy].
  set (r1 := luaL_ref (cc_refs env) (LuaUserdata ud) (cl_registry L)) in *.
  set (r2 := callback_create_refs (cc_refs env) s target
               (LuaThread (cc_thread env)) r1.2) in *.
  destruct Hthd as [Hthpos Hthget]; [done|].
  split; [|split; [|split; [done|split; [done|split; [|done]]]]].
  - destruct (lgi_closure_destroy_holding
                (mkFfiClosureRefs (mkFfiClosure callable (cbr_callback r2.1) ad)
                                  r1.1 (thread_ref r2.1))
                (cl_registry L) l r2.2 l1 T1 Hh)
      as (l2 & Hf2 & Hs2 & Hi1 & Hi2 & Hi3); try done.
    exists l2. split; [done|]. split; [done|]. split; [done|].
    split; [|done]. apply Hi3.
    cbn [fc_thread_ref]. lia.
  - exists ud. split; [done|]. split; [done|].
    by eapply lgi_callable_create_cache_entry.
  - destruct (lua_isthread s target) eqn:Ht; [by apply Hthr|].
    intros Hnil. destruct (Htg eq_refl Hnil) as [Htpos Htget].
    split; [done|]. split; [done|]. destruct Hne as [?|?]; [done|lia].
Qed.

Lemma lgi_closure_create_destroy_registry_witness :
  match lgi_closure_create example_closure_env example_closure_lua
          info_callback_int [LuaFunction 1] 1 true with
  | Some (LuaOk c, L') =>
      (exists l',
         registry_free (lgi_closure_destroy c (cl_registry L')) l' /\
         same_references (cl_registry example_closure_lua)
                         (lgi_closure_destroy c (cl_registry L')) [3; 2] l' /\
         callable_ref c ∈ l' /\ fc_thread_ref c ∈ l' /\
         (0 <= target_ref (callback (fc_closure c)) ->
          target_ref (callback (fc_closure c)) ∈ l')) /\
      cl_registry L' !! fc_thread_ref c = Some (LuaThread 0) /\
      autodestroy (fc_closure c) = true
  | _ => False
  end.
Proof.
  destruct (lgi_closure_create example_closure_env example_closure_lua
              info_callback_int [LuaFunction 1] 1 true)
    as [[[c|msg] L']|] eqn:E; [|discriminate E..].
  destruct (lgi_closure_create_destroy_registry example_closure_env
              example_closure_lua L' info_callback_int [LuaFunction 1] 1 true
              c [3; 2] example_objlen_border example_registry_free E)
    as (H1 & _ & H3 & _ & _ & H6).
  split; [exact H1 | split; [exact H3 | exact H6]].
Defined.

(** X16.  When libffi cannot prepare the closure, [lgi_closure_create]
    releases the references it has just taken - the registry holds the
    references it held before, in the slots they had, and its free list
    is well formed - and raises an error whose text is the fixed string
    "failed to prepare closure for `%'": the conversion [%'] is not one
    [lua_pushvfstring] substitutes, so the name of the callable does not
    appear.  The Callable created for the description stays cached. *)
Theorem lgi_closure_create_prepare_failure
    (env : ClosureCreateEnv) (L : ClosureLua) (ci : GICallableInfo)
    (s : lua_stack) (target : Z) (ad : bool)
    (ud : nat) (lua : lua_State) (callable : Callable) (l : list Z) :
  border (cc_refs env) -> registry_free (cl_registry L) l ->
  lgi_callable_create (cc_env env) (cl_lua L) ci 0 = (LuaOk ud, lua) ->
  ls_userdata lua !! ud = Some callable ->
  ffi_closure_alloc env = true ->
  ffi_prep_closure_loc env (cif callable) = false ->
  exists reg' l',
    lgi_closure_create env L ci s target ad =
      Some (LuaError (luaL_where (cc_env env) +:+
                      "failed to prepare closure for `%'"),
            mkClosureLua lua reg') /\
    registry_free reg' l' /\
    same_references (cl_registry L) reg' l l' /\
    ls_callable_cache lua !! callable_cache_key ci = Some ud.
Proof.
  intros Hb Hf Hcr Hu Ha Hp. unfold lgi_closure_create. rewrite Hcr, Hu, Ha.
  cbn [negb].
  destruct (closure_refs_holding (cc_refs env) s target
              (LuaThread (cc_thread env)) ud (cl_registry L) l Hb Hf)
    as (l1 & T1 & Hh & HT & Hpos & Hn1 & Hn2 & Ht0 & Hth0 & Hne & _).
  cbv zeta in *.
  destruct (luaL_ref _ _ _) as [cref reg1]. cbn [fst snd] in *.
  destruct (callback_create_refs _ _ _ _ _) as [cb reg2]. cbn [fst snd] in *.
  rewrite Hp.
  destruct (lgi_closure_destroy_holding
              (mkFfiClosureRefs (mkFfiClosure callable (cbr_callback cb) ad)
                                cref (thread_ref cb))
              (cl_registry L) l reg2 l1 T1 Hh)
    as (l2 & Hf2 & Hs2 & _); try done.
  eexists _, l2. split; [done|]. split; [done|]. split; [done|].
  by eapply lgi_callable_create_cache_entry.
Qed.

Lemma lgi_closure_create_prepare_failure_witness :
  exists reg' l',
    lgi_closure_create refusing_closure_env example_closure_lua
                       info_callback_int [LuaFunction 1] 1 false =
      Some (LuaError "failed to prepare closure for `%'",
            mkClosureLua
              (lgi_callable_create example_env lua_State_empty
                                   info_callback_int 0).2
              reg') /\
    registry_free reg' l' /\
    same_references (cl_registry example_closure_lua) reg' [3; 2] l' /\
    ls_callable_cache
      (lgi_callable_create example_env lua_State_empty info_callback_int 0).2
      !! callable_cache_key info_callback_int = Some 0%nat.
Proof.
  apply (lgi_closure_create_prepare_failure refusing_closure_env
           example_closure_lua info_callback_int [LuaFunction 1] 1 false
           0%nat _ (built info_callback_int) [3; 2] example_objlen_border
           example_registry_free);
    reflexivity.
Defined.

(** X17.  Two closures created for descriptions of the same kind and
    qualified name share one Callable: the second creation finds it in
    the cache, allocates no userdata, and takes a reference of its own to
    it. *)
Theorem lgi_closure_create_shares_callable
    (env env' : ClosureCreateEnv) (L L1 L2 : ClosureLua)
    (ci ci' : GICallableInfo) (s s' : lua_stack) (target target' : Z)
    (ad ad' : bool) (c1 c2 : FfiClosureRefs) (l : list Z) :
  border (cc_refs env) ->
  border (cc_refs env') ->
  registry_free (cl_registry L) l ->
  lgi_closure_create env L ci s target ad = Some (LuaOk c1, L1) ->
  lgi_closure_create env' L1 ci' s' target' ad' = Some (LuaOk c2, L2) ->
  ci_type_code ci' = ci_type_code ci ->
  type_name ci' = type_name ci ->
  closure_callable (fc_closure c2) = closure_callable (fc_closure c1) /\
  cl_lua L2 = cl_lua L1 /\
  callable_ref c2 <> callable_ref c1.
Proof.
  intros Hb Hb' Hf H1 H2 Hk Hn.
  destruct (lgi_closure_create_holds env L ci s target ad c1 L1 l Hb Hf H1)
    as (ud & l1 & T1 & Hh & Hin & R1 & U1 & C1).
  destruct (lgi_closure_create_ok env' L1 ci' s' target' ad' c2 L2 H2)
    as (ud2 & callable2 & Hcr & U2 & _ & _ & -> & _).
  assert (Hkey : callable_cache_key ci' = callable_cache_key ci)
    by (by apply callable_cache_key_inj).
  unfold lgi_callable_create in Hcr. rewrite Hkey, C1 in Hcr.
  injection Hcr as <- HL. rewrite <- HL in U2. rewrite U1 in U2.
  injection U2 as <-.
  cbn [fc_closure closure_callable callable_ref].
  split; [done|]. split; [done|].
  destruct (luaL_ref_holding (cc_refs env') (LuaUserdata ud) (cl_registry L)
              l (cl_registry L1) l1 T1 Hb' Hh) as (_ & _ & Hnot & _); [done|].
  intros E. apply Hnot. by rewrite E.
Qed.

Lemma lgi_closure_create_shares_callable_witness :
  match lgi_closure_create example_closure_env example_closure_lua
          info_callback_int [LuaFunction 1] 1 true with
  | Some (LuaOk c1, L1) =>
      match lgi_closure_create example_closure_env L1 info_callback_int
              [LuaFunction 2] 1 false with
      | Some (LuaOk c2, L2) =>
          closure_callable (fc_closure c2) = closure_callable (fc_closure c1) /\
          cl_lua L2 = cl_lua L1 /\
          callable_ref c2 <> callable_ref c1
      | _ => False
      end
  | _ => False
  end.
Proof.
  destruct (lgi_closure_create example_closure_env example_closure_lua
              info_callback_int [LuaFunction 1] 1 true)
    as [[[c1|msg] L1]|] eqn:E1; [|discriminate E1..].
  destruct (lgi_closure_create example_closure_env L1 info_callback_int
              [LuaFunction 2] 1 false)
    as [[[c2|msg] L2]|] eqn:E2.
  - apply (lgi_closure_create_shares_callable example_closure_env
             example_closure_env example_closure_lua L1 L2 info_callback_int
             info_callback_int [LuaFunction 1] [LuaFunction 2] 1 1 true false
             c1 c2 [3; 2] example_objlen_border example_objlen_border
             example_registry_free E1 E2 eq_refl eq_refl).
  - injection E1 as <- <-. discriminate E2.
  - injection E1 as <- <-. discriminate E2.
Defined.

(** X18.  On a state whose cache entries name their Callables,
    [lgi_closure_create] is undefined exactly when the Callable is made
    and [ffi_closure_alloc] returns NULL, through which the code stores
    [callable_ref] unchecked.  In every other case it comes to an end,
    with a closure or with an error, in the state [lgi_callable_create]
    left, whose cache entries again name their Callables. *)
Theorem lgi_closure_create_defined
    (env : ClosureCreateEnv) (L : ClosureLua) (ci : GICallableInfo)
    (s : lua_stack) (target : Z) (ad : bool) :
  cache_consistent (cl_lua L) ->
  let made := lgi_callable_create (cc_env env) (cl_lua L) ci 0 in
  (lgi_closure_create env L ci s target ad = None <->
   ffi_closure_alloc env = false /\ exists ud, made.1 = LuaOk ud) /\
  (forall r L',
     lgi_closure_create env L ci s target ad = Some (r, L') ->
     cache_consistent (cl_lua L') /\ cl_lua L' = made.2).
Proof.
  intros HL. cbv zeta. unfold lgi_closure_create.
  pose proof (cache_consistent_create (cc_env env) (cl_lua L) ci 0 HL) as HL'.
  destruct (lgi_callable_create (cc_env env) (cl_lua L) ci 0)
    as [[ud|msg] lua] eqn:Hcr; cbn [fst snd] in *.
  - destruct (lgi_callable_create_cached_block _ _ _ _ _ _ HL Hcr)
      as (_ & c & -> & _).
    destruct (ffi_closure_alloc env) eqn:Ha; cbn [negb].
    + destruct (luaL_ref _ _ _) as [cref reg1].
      destruct (callback_create_refs _ _ _ _ _) as [cb reg2].
      destruct (ffi_prep_closure_loc env (cif c));
        (split; [split; [done|by intros [? _]]|by intros r L' [= <- <-]]).
    + split; [|done]. split; [|done]. intros _. split; [done|by exists ud].
  - split; [|by intros r L' [= <- <-]].
    split; [done|]. by intros (_ & ud & ?).
Qed.

Lemma lgi_closure_create_defined_witness :
  lgi_closure_create exhausted_closure_env example_closure_lua
                     info_callback_void [LuaFunction 1] 1 false = None /\
  forall r L',
    lgi_closure_create example_closure_env example_closure_lua
                       info_callback_void [LuaFunction 1] 1 false
      = Some (r, L') ->
    cache_consistent (cl_lua L') /\
    cl_lua L' = (lgi_callable_create example_env lua_State_empty
                                     info_callback_void 0).2.
Proof.
  split.
  - apply (lgi_closure_create_defined exhausted_closure_env example_closure_lua
             info_callback_void [LuaFunction 1] 1 false
             cache_consistent_empty).
    split; [reflexivity|]. exists 0%nat. reflexivity.
  - apply (lgi_closure_create_defined example_closure_env example_closure_lua
             info_callback_void [LuaFunction 1] 1 false
             cache_consistent_empty).
Defined.

(** *** The GClosure marshaller *)

Lemma callback_prepare_call_parts (cb : Callback) :
  callback_prepare_call cb =
    (closure_base cb ++
       (if target_ref cb =? LUA_NOREF then [] else [cb_target cb]),
     negb (target_ref cb =? LUA_NOREF)).
Proof.
  unfold callback_prepare_call, closure_base.
  destruct (target_ref cb =? LUA_NOREF); cbn [negb].
  - by rewrite app_nil_r.
  - destruct (cb_status cb =? 0); cbn [negb]; [|done].
    rewrite length_app. cbn [length]. rewrite Nat.add_sub.
    by rewrite take_app_length.
Qed.

Lemma gclosure_marshal_unfold vm lua_run c param_values status results :
  lua_run (gclosure_input vm c param_values) = (status, results) ->
  let cb := gc_callback c in
  let base := closure_base cb in
  let vals := Z.of_nat (length param_values) in
  let pushed := EvLock :: imap (fun i _ => EvArg2Lua i) param_values in
  lgi_gclosure_marshal vm lua_run c param_values =
    if negb (target_ref cb =? LUA_NOREF) then
      if status =? 0 then
        mkGClosureRun
          (pushed ++ [EvLuaCall vals] ++ [EvRet2C; EvUnlock])
          (Some (lgi_marshal_val_2c vm (default LuaNil (head results))))
          (base ++ [default LuaNil (head results)]) (Returned [])
      else
        mkGClosureRun (pushed ++ [EvLuaCall vals]) None (base ++ results)
                      (Raised (lua_index (base ++ results) (-1)))
    else
      if negb (status =? 0) && negb (status =? LUA_YIELD) then
        mkGClosureRun (pushed ++ [EvLuaResume vals; EvLuaError]) None
                      (base ++ results)
                      (Raised (lua_index (base ++ results) (-1)))
      else
        mkGClosureRun
          (pushed ++ [EvLuaResume vals] ++ [EvRet2C; EvUnlock])
          (Some (lgi_marshal_val_2c vm (lua_index (base ++ results) (-1))))
          (base ++ results) (Returned []).
Proof.
  intros Hrun. cbv zeta. unfold lgi_gclosure_marshal.
  rewrite callback_prepare_call_parts.
  set (base := closure_base (gc_callback c)).
  set (t := if target_ref (gc_callback c) =? LUA_NOREF then [] else _).
  assert (Hb : take (length (base ++ t) -
                     (if negb (target_ref (gc_callback c) =? LUA_NOREF)
                      then 1 else 0))
                    (base ++ t) = base).
  { rewrite length_app. unfold t.
    destruct (target_ref (gc_callback c) =? LUA_NOREF); cbn [negb length];
      rewrite ?Nat.add_sub, ?Nat.add_0_r, ?Nat.sub_0_r;
      by rewrite take_app_length. }
  rewrite Hb.
  assert (Hin : drop (length base)
                     ((base ++ t) ++
                      (lgi_marshal_val_2lua vm <$> param_values)) =
                gclosure_input vm c param_values).
  { by rewrite <- (assoc_L (++)), drop_app_length. }
  rewrite Hin, Hrun.
  destruct (negb (target_ref (gc_callback c) =? LUA_NOREF)).
  - destruct (status =? 0); [|done].
    by rewrite lua_index_top, <- !(assoc_L (++)).
  - destruct (negb (status =? 0) && negb (status =? LUA_YIELD)); [done|].
    by rewrite <- !(assoc_L (++)).
Qed.

Lemma imap_inner_events (param_values : list GValue) :
  Forall inner_event (imap (fun i _ => EvArg2Lua i) param_values).
Proof.
  apply Forall_lookup. intros i e. rewrite list_lookup_imap.
  destruct (param_values !! i); [|done]. by intros [= <-].
Qed.

(** X19.  The trace of [lgi_gclosure_marshal] is: the lock of the call
    mutex; the marshalling of the parameters in order, one Lua value
    each; the one run of the target, a call or a resume with all the
    parameters; and, when the function returns, the conversion of the
    result followed by the release of the mutex.  When the error of the
    target leaves the function, the mutex is not released and no result
    is stored. *)
Theorem lgi_gclosure_marshal_mutex
    (vm : ValueMarshal) (lua_run : lua_stack -> Z * lua_stack)
    (c : GlibClosure) (param_values : list GValue) :
  let run := lgi_gclosure_marshal vm lua_run c param_values in
  let n := Z.of_nat (length param_values) in
  let resume := target_ref (gc_callback c) =? LUA_NOREF in
  gr_trace run =
    (EvLock :: imap (fun i _ => EvArg2Lua i) param_values) ++
    [if resume then EvLuaResume n else EvLuaCall n] ++
    (if returned (gr_outcome run) then [EvRet2C; EvUnlock]
     else if resume then [EvLuaError] else []) /\
  (returned (gr_outcome run) = false -> gr_return run = None).
Proof.
  cbv zeta.
  destruct (lua_run (gclosure_input vm c param_values)) as [status results]
    eqn:Hrun.
  rewrite (gclosure_marshal_unfold vm lua_run c param_values status results
             Hrun).
  destruct (target_ref (gc_callback c) =? LUA_NOREF); cbn [negb].
  - destruct (negb (status =? 0) && negb (status =? LUA_YIELD));
      cbn [gr_trace gr_outcome gr_return returned]; done.
  - destruct (status =? 0); cbn [gr_trace gr_outcome gr_return returned].
    + done.
    + by rewrite app_nil_r.
Qed.

(** X20.  [lgi_gclosure_marshal] returns when the call succeeded, or
    when the resume succeeded or yielded; every other status leaves it as
    a Lua error with the value on top of the stack, whatever the error
    code.  On return the GValue result is converted from the value on
    top of the stack, which stays there: for a call it is the first
    result of the target, or nil when the target returned nothing, on top
    of the stack as it was before. *)
Theorem lgi_gclosure_marshal_outcome
    (vm : ValueMarshal) (lua_run : lua_stack -> Z * lua_stack)
    (c : GlibClosure) (param_values : list GValue)
    (status : Z) (results : lua_stack) :
  lua_run (gclosure_input vm c param_values) = (status, results) ->
  let run := lgi_gclosure_marshal vm lua_run c param_values in
  let base := closure_base (gc_callback c) in
  let resume := target_ref (gc_callback c) =? LUA_NOREF in
  if (status =? 0) || (resume && (status =? LUA_YIELD)) then
    gr_outcome run = Returned [] /\
    gr_stack run =
      base ++ (if resume then results else [default LuaNil (head results)]) /\
    gr_return run = Some (lgi_marshal_val_2c vm (lua_index (gr_stack run) (-1)))
  else
    gr_outcome run = Raised (lua_index (base ++ results) (-1)) /\
    gr_stack run = base ++ results /\
    gr_return run = None.
Proof.
  intros Hrun. cbv zeta.
  rewrite (gclosure_marshal_unfold vm lua_run c param_values status results
             Hrun).
  destruct (target_ref (gc_callback c) =? LUA_NOREF); cbn [negb andb].
  - destruct (status =? 0); cbn [negb andb orb].
    + done.
    + by destruct (status =? LUA_YIELD).
  - rewrite orb_false_r. destruct (status =? 0).
    + cbn [gr_outcome gr_stack gr_return]. by rewrite lua_index_top.
    + done.
Qed.

Lemma lgi_gclosure_marshal_outcome_witness :
  let run := lgi_gclosure_marshal example_value_marshal
               (fun _ => (0, [LuaInteger 7; LuaInteger 8]))
               gclosure_on_function [4; 5] in
  gr_outcome run = Returned [] /\
  gr_stack run = [LuaFunction 1; LuaInteger 7] /\
  gr_return run = Some 7.
Proof.
  apply (lgi_gclosure_marshal_outcome example_value_marshal
           (fun _ => (0, [LuaInteger 7; LuaInteger 8]))
           gclosure_on_function [4; 5] 0 [LuaInteger 7; LuaInteger 8]).
  reflexivity.
Defined.

(** X21.  A GClosure made by [lgi_gclosure_create] holds the value at
    the target index, and [lgi_gclosure_marshal] always calls it: the
    branch that resumes a coroutine is never taken for it, since the
    thread targets that would select it are refused at creation. *)
Theorem lgi_gclosure_create_is_called
    (w f : string) (ref : Z) (th : lua_value) (s : lua_stack) (target : Z)
    (c : GlibClosure) (vm : ValueMarshal)
    (lua_run : lua_stack -> Z * lua_stack) (param_values : list GValue) :
  lgi_gclosure_create w f ref th s target = LuaOk c ->
  ref <> LUA_NOREF ->
  cb_target (gc_callback c) = lua_index s target /\
  gclosure_input vm c param_values =
    lua_index s target :: (lgi_marshal_val_2lua vm <$> param_values) /\
  EvLuaCall (Z.of_nat (length param_values))
    ∈ gr_trace (lgi_gclosure_marshal vm lua_run c param_values) /\
  forall n, EvLuaResume n
    ∉ gr_trace (lgi_gclosure_marshal vm lua_run c param_values).
Proof.
  intros Hc Href. rewrite lgi_gclosure_create_spec in Hc.
  destruct (callable_target (lua_type_at s target)) eqn:Ht; [|done].
  injection Hc as <-. cbn [gc_callback].
  assert (Hth : lua_isthread s target = false).
  { unfold lua_isthread. apply bool_decide_eq_false_2. intros E.
    rewrite E in Ht. done. }
  unfold callback_create. rewrite Hth.
  assert (Hr : (ref =? LUA_NOREF) = false) by (by apply Z.eqb_neq).
  split; [done|]. split.
  { unfold gclosure_input. cbn [gc_callback target_ref cb_target].
    by rewrite Hr. }
  destruct (lua_run (gclosure_input vm
              (mkGlibClosure (mkCallback ref (lua_index s target) th 0 s))
              param_values)) as [status results] eqn:Hrun.
  rewrite (gclosure_marshal_unfold vm lua_run _ param_values status results
             Hrun).
  cbn [gc_callback target_ref]. rewrite Hr. cbn [negb].
  pose proof (imap_inner_events param_values) as Hin.
  assert (Hno : forall n, EvLuaResume n ∉
                  imap (fun i _ => EvArg2Lua i) param_values).
  { intros n Hel. apply list_elem_of_lookup in Hel as [i Hi].
    rewrite list_lookup_imap in Hi. by destruct (param_values !! i). }
  destruct (status =? 0); cbn [gr_trace].
  - split.
    + rewrite !elem_of_app, !elem_of_cons. tauto.
    + intros n. rewrite !elem_of_app, !elem_of_cons, elem_of_nil.
      intros H; decompose [or] H; try done; by apply (Hno n).
  - split.
    + rewrite !elem_of_app, !elem_of_cons. tauto.
    + intros n. rewrite !elem_of_app, !elem_of_cons, elem_of_nil.
      intros H; decompose [or] H; try done; by apply (Hno n).
Qed.

Lemma lgi_gclosure_create_is_called_witness :
  cb_target (gc_callback gclosure_on_function) = LuaFunction 1 /\
  gclosure_input example_value_marshal gclosure_on_function [4; 5] =
    [LuaFunction 1; LuaInteger 4; LuaInteger 5].
Proof.
  destruct (lgi_gclosure_create_is_called "" "closure" 3 (LuaThread 0)
              [LuaFunction 1] 1 gclosure_on_function example_value_marshal
              (fun _ => (0, [])) [4; 5] eq_refl) as (H1 & H2 & _).
  - discriminate.
  - split; [exact H1 | exact H2].
Defined.
